(** * chain-indexer: the indexing engine and the standard RPC transport

    A shallow embedding of [src/indexer.ts] ([createIndexer]: the poll
    loop, the lifecycle state machine, [subscribeToContract], [init],
    [stop], [readContract], [watch], [indexToBlock]) and of the RPC
    transport that follows it in the same file ([createRpcClient.getLogs]).

    Asynchronous functions are written in a state-and-exception monad
    over the closure's mutable variables.  Control yields only at
    [await]s, and the model runs every function from entry to exit: calls
    by the embedding application that interleave at a suspension point
    are outside the model. *)

From Stdlib Require Import ZArith String List Lia Bool.
From stdpp Require Import base option list gmap strings fin_maps.

Local Open Scope string_scope.
Local Open Scope list_scope.
Local Open Scope Z_scope.

(** ** Thrown values *)

(** The [error] member of a JSON-RPC response.  The transport reads
    [e.error?.message?.includes(..)], so a missing message is allowed. *)
Record RpcErrorBody := {
  message : option string;
  code : Z
}.

(** What the code throws: a plain [Error], the transport's
    [JsonRpcError] (whose [error] member is optional) and
    [JsonRpcRangeTooWideError] wrapping its cause. *)
Inductive JsError :=
| Error (msg : string)
| JsonRpcError (method : string) (error : option RpcErrorBody)
| JsonRpcRangeTooWideError (cause : JsError).

Inductive Result (A : Type) :=
| Ok (a : A)
| Throw (e : JsError).
Arguments Ok {A} a.
Arguments Throw {A} e.

(** ** The monad of the closure: state [S], exceptions [JsError].
    A throw keeps the mutations made before it, as in JavaScript. *)

Definition M (S A : Type) : Type := S -> Result A * S.

Definition ret {S A} (a : A) : M S A := fun s => (Ok a, s).

Definition bind {S A B} (m : M S A) (k : A -> M S B) : M S B :=
  fun s => match m s with
           | (Ok a, s') => k a s'
           | (Throw e, s') => (Throw e, s')
           end.

Definition throw {S A} (e : JsError) : M S A := fun s => (Throw e, s).

(** [try { m } catch (e) { h e }] *)
Definition try_catch {S A} (m : M S A) (h : JsError -> M S A) : M S A :=
  fun s => match m s with
           | (Ok a, s') => (Ok a, s')
           | (Throw e, s') => h e s'
           end.

Definition gets {S A} (f : S -> A) : M S A := fun s => (Ok (f s), s).
Definition modify {S} (f : S -> S) : M S unit := fun s => (Ok tt, f s).
Definition liftR {S A} (r : Result A) : M S A := fun s => (r, s).

(** An un-awaited call of an async function: a rejection of the returned
    promise is not seen by the caller. *)
Definition detached {S} (m : M S unit) : M S unit :=
  try_catch m (fun _ => ret tt).

Declare Scope js_scope.
Delimit Scope js_scope with js.
Notation "x <~ c ; k" := (bind c (fun x => k))
  (at level 20, c at level 100, k at level 200, only parsing) : js_scope.
Notation "'exec' c ; k" := (bind c (fun _ => k))
  (at level 20, c at level 100, k at level 200, only parsing) : js_scope.
Local Open Scope js_scope.

Fixpoint forEach {S A} (l : list A) (f : A -> M S unit) : M S unit :=
  match l with
  | [] => ret tt
  | x :: l' => exec f x; forEach l' f
  end.

(** ** Data model *)

(** [ToBlock = bigint | "latest"] *)
Inductive ToBlock :=
| Latest
| BlockNumber (n : Z).

Definition ToBlock_eqb (a b : ToBlock) : bool :=
  match a, b with
  | Latest, Latest => true
  | BlockNumber x, BlockNumber y => x =? y
  | _, _ => false
  end.

(** A pending event envelope on the queue: the log's position, the
    subscription it was fetched for, and the undecoded log data. *)
Record Event := {
  ev_blockNumber : Z;
  ev_logIndex : Z;
  ev_subscriptionId : string;
  ev_data : string
}.

Section DataModel.
Context {Abi : Type}.

Record Subscription := {
  sub_id : string;
  sub_abi : Abi;
  sub_contractName : string;
  sub_contractAddress : string;
  sub_fromBlock : Z;
  sub_toBlock : ToBlock;
  sub_indexedToBlock : Z;
  sub_fetchedToBlock : Z;
  sub_indexedToLogIndex : Z
}.

(** The options object of [subscribeToContract]; [None] is an omitted
    member. *)
Record SubscribeOptions := {
  opt_contract : string;
  opt_address : string;
  opt_indexedToBlock : option Z;
  opt_fromBlock : option Z;
  opt_fromLogIndex : option Z;
  opt_toBlock : option ToBlock;
  opt_id : option string
}.

(** [Partial<Subscription>] as passed to [updateSubscription]; the
    poll loop only ever passes the three cursors. *)
Record SubscriptionUpdate := {
  upd_fetchedToBlock : option Z;
  upd_indexedToBlock : option Z;
  upd_indexedToLogIndex : option Z
}.

Definition applyUpdate (u : SubscriptionUpdate) (s : Subscription) : Subscription :=
  {| sub_id := sub_id s;
     sub_abi := sub_abi s;
     sub_contractName := sub_contractName s;
     sub_contractAddress := sub_contractAddress s;
     sub_fromBlock := sub_fromBlock s;
     sub_toBlock := sub_toBlock s;
     sub_indexedToBlock := default (sub_indexedToBlock s) (upd_indexedToBlock u);
     sub_fetchedToBlock := default (sub_fetchedToBlock s) (upd_fetchedToBlock u);
     sub_indexedToLogIndex := default (sub_indexedToLogIndex s) (upd_indexedToLogIndex u) |}.

(** The members of the [IndexerEvents] emitter that the engine emits,
    the settlement of the promise returned by [indexToBlock], and a
    completed save of the store.  [EmitEvent] stands for the [event]
    signal and the keyed signal of one dispatch. *)
Inductive Effect :=
| EmitStarted
| EmitStopped
| EmitError (err : JsError)
| EmitProgress (currentBlock targetBlock : Z) (pendingEventsCount : nat)
| EmitEvent (contractName eventName : string) (ev : Event)
| Resolved
| Rejected (err : JsError)
| Saved (subs : gmap string Subscription).

(** The callbacks of a running state are closures over the promise of
    [indexToBlock] or over the emitter; they are kept as the entry
    point that created them. *)
Inductive Callbacks :=
| OfWatch
| OfIndexToBlock.

(** [IndexerState]: a tagged union; [pollTimeout] is the timer handle. *)
Inductive IndexerState :=
| Initial
| Stopped
| Running (pollTimeout : nat) (targetBlock : ToBlock) (callbacks : Callbacks).

Definition isRunning (st : IndexerState) : bool :=
  match st with Running _ _ _ => true | _ => false end.

(** The mutable variables of the [createIndexer] closure, the pending
    timers of the runtime ([timers] maps a live handle to its delay),
    and the effects observed so far, oldest first.  The [Map] of
    subscriptions is held by its content: the order of insertion that a
    [Map] keeps is not represented. *)
Record World := {
  state : IndexerState;
  subscriptions : gmap string Subscription;
  eventQueue : list Event;
  timers : gmap nat Z;
  nextTimer : nat;
  effects : list Effect
}.

Definition set_state (st : IndexerState) (w : World) : World :=
  {| state := st; subscriptions := subscriptions w; eventQueue := eventQueue w;
     timers := timers w; nextTimer := nextTimer w; effects := effects w |}.

Definition set_subscriptions (m : gmap string Subscription) (w : World) : World :=
  {| state := state w; subscriptions := m; eventQueue := eventQueue w;
     timers := timers w; nextTimer := nextTimer w; effects := effects w |}.

Definition set_eventQueue (q : list Event) (w : World) : World :=
  {| state := state w; subscriptions := subscriptions w; eventQueue := q;
     timers := timers w; nextTimer := nextTimer w; effects := effects w |}.

Definition set_timers (t : gmap nat Z) (n : nat) (w : World) : World :=
  {| state := state w; subscriptions := subscriptions w; eventQueue := eventQueue w;
     timers := t; nextTimer := n; effects := effects w |}.

Definition add_effect (e : Effect) (w : World) : World :=
  {| state := state w; subscriptions := subscriptions w; eventQueue := eventQueue w;
     timers := timers w; nextTimer := nextTimer w; effects := effects w ++ [e] |}.

(** [config.subscriptionStore]: what [all()] answers, and whether
    [save] of a given map fails. *)
Record SubscriptionStore := {
  store_all : Result (list Subscription);
  store_save : gmap string Subscription -> option JsError
}.

(** The collaborators the closure captures.  They are external to the
    engine and are taken as they answer:
    - [contracts]: the ABI registry [config.contracts];
    - [getAddress]: viem's checksum, which throws on a malformed address;
    - [getLastBlockNumber]: the RPC client's answer in this tick;
    - [getSubscriptionEvents]: the fetch planner, as the events it
      pushes and the error it ends with, if any; it is given the map to
      read, and a planner that writes the map is not represented;
    - [decodeEvent]: the ABI codec, [None] on a decode failure;
    - [handler]: the user's listeners for an event, as the calls of
      [subscribeToContract] they make and the error they end with, if
      any. *)
Record Env := {
  contracts : string -> option Abi;
  pollingIntervalMs : option Z;
  subscriptionStore : option SubscriptionStore;
  getAddress : string -> Result string;
  getLastBlockNumber : Result Z;
  getSubscriptionEvents : Z -> gmap string Subscription -> list Event * option JsError;
  decodeEvent : Subscription -> Event -> option string;
  handler : string -> string -> Event -> list SubscribeOptions * option JsError
}.
End DataModel.

Arguments Subscription : clear implicits.
Arguments SubscribeOptions : clear implicits.
Arguments Effect : clear implicits.
Arguments World : clear implicits.
Arguments SubscriptionStore : clear implicits.
Arguments Env : clear implicits.

(** ** The helpers of the engine that live in other modules *)

(** Modelled from the spec: the event queue [createEventQueue] of
    [@/eventQueue], which is not among the sources.  It holds pending
    events ordered by (blockNumber, logIndex, subscriptionId) ascending;
    [queue] inserts, [size] counts, and the smallest event is at the
    head.  It does not deduplicate. *)
Definition eventBefore (a b : Event) : bool :=
  (ev_blockNumber a <? ev_blockNumber b)
  || ((ev_blockNumber a =? ev_blockNumber b)
      && ((ev_logIndex a <? ev_logIndex b)
          || ((ev_logIndex a =? ev_logIndex b)
              && String.ltb (ev_subscriptionId a) (ev_subscriptionId b)))).

(** Modelled from the spec: [queue(event)] of the event queue, an
    insertion that keeps the order; an event goes behind the queued
    events it ties with. *)
Fixpoint queue (e : Event) (q : list Event) : list Event :=
  match q with
  | [] => [e]
  | x :: q' => if eventBefore e x then e :: q else x :: queue e q'
  end.

(** Modelled from the spec: the order on cursors (block, logIndex)
    by which the event processor of [@/eventProcessor] skips an event
    already dispatched (spec 4.P, step 2). *)
Definition cursor_leb (a b : Z * Z) : bool :=
  (fst a <? fst b) || ((fst a =? fst b) && (snd a <=? snd b)).

(** Modelled from the spec: the lesser of two cursors, for "the min
    across all subscriptions" that [processEvents] returns. *)
Definition cursor_min (a b : Z * Z) : Z * Z :=
  if cursor_leb a b then a else b.

Section Engine.
Context {Abi : Type} (env : Env Abi).

#[local] Abbreviation World := (World Abi).
#[local] Abbreviation Subscription := (Subscription Abi).

Definition emit (e : Effect Abi) : M World unit := modify (add_effect e).

(** [setTimeout(poll, delay)]: a fresh handle, pending with its delay. *)
Definition setTimeout (delay : Z) : M World nat :=
  fun w => (Ok (nextTimer w),
            set_timers (<[nextTimer w := delay]> (timers w)) (S (nextTimer w)) w).

(** [clearTimeout(handle)] *)
Definition clearTimeout (handle : nat) : M World unit :=
  modify (fun w => set_timers (delete handle (timers w)) (nextTimer w) w).

(** Modelled from the spec: [updateSubscription] of [@/subscriptions],
    which is not among the sources; the core's update primitive.  It
    overwrites the given members of the subscription stored under [id].
    Subscriptions are never removed, so the ids the poll loop passes
    are present; for an absent id the model leaves the map as it is. *)
Definition updateSubscription (id : string) (u : SubscriptionUpdate) : M World unit :=
  modify (fun w => set_subscriptions (alter (applyUpdate u) id (subscriptions w)) w).

Definition fetchedTo (targetBlock : Z) : SubscriptionUpdate :=
  {| upd_fetchedToBlock := Some targetBlock;
     upd_indexedToBlock := None;
     upd_indexedToLogIndex := None |}.

Definition indexedTo (block logIndex : Z) : SubscriptionUpdate :=
  {| upd_fetchedToBlock := None;
     upd_indexedToBlock := Some block;
     upd_indexedToLogIndex := Some logIndex |}.

(** Modelled from the spec: [saveSubscriptionsToStore] of
    [@/subscriptions], which is not among the sources; [save] is a
    complete overwrite of the stored set and may fail. *)
Definition saveSubscriptionsToStore (store : SubscriptionStore Abi) : M World unit :=
  subs <~ gets subscriptions;
  match store_save store subs with
  | Some err => throw err
  | None => emit (Saved subs)
  end.

(** [subscribeToContract], indexer.ts lines 244-278.  The [id] and
    [fromLogIndex] members of the options are not read. *)
Definition subscribeToContract (subscribeOptions : SubscribeOptions) : M World unit :=
  let contractName := opt_contract subscribeOptions in
  address <~ liftR (getAddress env (opt_address subscribeOptions));
  match contracts env contractName with
  | None => throw (Error ("Contract " +:+ contractName +:+ " not found"))
  | Some contract =>
      let id := address in
      let fromBlock := default 0 (opt_fromBlock subscribeOptions) in
      let subscription :=
        {| sub_id := id;
           sub_abi := contract;
           sub_contractName := contractName;
           sub_contractAddress := address;
           sub_fromBlock := fromBlock;
           sub_toBlock := default Latest (opt_toBlock subscribeOptions);
           sub_indexedToBlock :=
             default (fromBlock - 1) (opt_indexedToBlock subscribeOptions);
           sub_fetchedToBlock := -1;
           sub_indexedToLogIndex := 0 |} in
      modify (fun w => set_subscriptions (<[id := subscription]> (subscriptions w)) w)
  end.

(** A subscription as [subscribeToContract] makes it for the checksummed
    [address]: keyed by it, nothing fetched, log index 0. *)
Definition freshlyKeyed (address : string) (s : Subscription) : Prop :=
  sub_id s = address
  /\ sub_contractAddress s = address
  /\ sub_fetchedToBlock s = -1
  /\ sub_indexedToLogIndex s = 0.

(** The options [init] builds from a stored subscription, lines 285-293. *)
Definition storedOptions (subscription : Subscription) : SubscribeOptions :=
  {| opt_contract := sub_contractName subscription;
     opt_id := Some (sub_id subscription);
     opt_address := sub_contractAddress subscription;
     opt_indexedToBlock := Some (sub_indexedToBlock subscription);
     opt_fromBlock := Some (sub_fromBlock subscription);
     opt_fromLogIndex := Some (sub_indexedToLogIndex subscription);
     opt_toBlock := Some (sub_toBlock subscription) |}.

(** [init], lines 280-298 *)
Definition init : M World unit :=
  match subscriptionStore env with
  | Some store =>
      storedSubscriptions <~ liftR (store_all store);
      forEach storedSubscriptions
        (fun subscription => subscribeToContract (storedOptions subscription))
  | None => ret tt
  end.

(** [state.onStop?.()]: [watch] installs an empty function,
    [indexToBlock] one that resolves its promise. *)
Definition onStop (cb : Callbacks) : M World unit :=
  match cb with
  | OfWatch => ret tt
  | OfIndexToBlock => emit Resolved
  end.

(** What the stop callback of a running state leaves in the trace. *)
Definition onStopEffects (cb : Callbacks) : list (Effect Abi) :=
  match cb with
  | OfWatch => []
  | OfIndexToBlock => [Resolved]
  end.

(** [stop], lines 300-314 *)
Definition stop : M World unit :=
  st <~ gets state;
  match st with
  | Running pollTimeout _ cb =>
      exec clearTimeout pollTimeout;
      exec emit EmitStopped;
      exec onStop cb;
      modify (set_state Stopped)
  | _ => throw (Error "Indexer is not running")
  end.

(** [state.onError(err)]: [watch] emits [error]; [indexToBlock] rejects
    its promise and calls [stop()] without awaiting it. *)
Definition onError (cb : Callbacks) (err : JsError) : M World unit :=
  match cb with
  | OfWatch => emit (EmitError err)
  | OfIndexToBlock => exec emit (Rejected err); detached stop
  end.

(** *** The event processor *)

(** What [processEvents] returns. *)
Record ProcessResult := {
  indexedToBlock : Z;
  indexedToLogIndex : Z;
  hasNewSubscriptions : bool
}.

Definition cursorOf (s : Subscription) : Z * Z :=
  (sub_indexedToBlock s, sub_indexedToLogIndex s).

(** Modelled from the spec: how far a subscription is known indexed
    when the drain ends (spec 4.P, "Return", and the glossary's
    watermark).  After a drain that [completed], that is, one that went
    through every queued event at or below [targetBlock] without a
    listener adding a subscription, a subscription whose logs were
    fetched through [targetBlock] has nothing left to dispatch at or
    below it: it is indexed up to [(targetBlock, 0)].  This is what
    scenario 1 of the spec expects of a full catch-up ([progress] with
    [currentBlock = 100] after logs at blocks 10, 20 and 20).  Otherwise
    the subscription is known indexed up to its cursor, the last event
    dispatched for it. *)
Definition indexedUpTo (completed : bool) (targetBlock : Z) (s : Subscription)
    : Z * Z :=
  if completed && (targetBlock <=? sub_fetchedToBlock s) then (targetBlock, 0)
  else cursorOf s.

(** Modelled from the spec: the cursors [processEvents] returns, "the
    min across all subscriptions (i.e. the watermark up to which every
    subscription is known indexed)"; [None] for an empty map. *)
Definition watermark (completed : bool) (targetBlock : Z)
    (subs : gmap string Subscription) : option (Z * Z) :=
  map_fold
    (fun _ s acc =>
       Some (match acc with
             | None => indexedUpTo completed targetBlock s
             | Some c => cursor_min (indexedUpTo completed targetBlock s) c
             end))
    None subs.

(** The signals of a dispatch. *)
Definition isEventEffect (e : Effect Abi) : Prop :=
  match e with
  | EmitEvent _ _ _ => True
  | _ => False
  end.

(** [w'] differs from [w] in the map and the queue, and in event
    signals added to the trace. *)
Definition eventsOnly (w w' : World) : Prop :=
  state w' = state w
  /\ timers w' = timers w
  /\ nextTimer w' = nextTimer w
  /\ exists evs, effects w' = effects w ++ evs /\ Forall isEventEffect evs.

Definition isProgress (e : Effect Abi) : Prop :=
  match e with
  | EmitProgress _ _ _ => True
  | _ => False
  end.

(** [w'] differs from [w] in the state and the timers, and in signals
    other than [progress] and events added to the trace. *)
Definition settles (w w' : World) : Prop :=
  subscriptions w' = subscriptions w
  /\ eventQueue w' = eventQueue w
  /\ exists tail,
       effects w' = effects w ++ tail
       /\ Forall (fun e => ~ isProgress e /\ ~ isEventEffect e) tail.



(** Modelled from the spec: step 4 of the event processor, the dispatch
    of one decoded event to the user's listeners: the signal, then the
    calls of [subscribeToContract] the listeners make, then the error
    they end with, if any. *)
Definition dispatch (contractName eventName : string) (ev : Event) : M World unit :=
  exec emit (EmitEvent contractName eventName ev);
  let '(calls, err) := handler env contractName eventName ev in
  exec forEach calls subscribeToContract;
  match err with
  | Some e => throw e
  | None => ret tt
  end.

(** Modelled from the spec: the drain of the event processor (spec 4.P)
    over the queue [q], smallest event first.
    An event beyond [targetBlock] stays queued with all that follow it.
    A taken event is dropped when its subscription is absent, skipped
    when it is not beyond the subscription's cursor or does not decode,
    and otherwise dispatched, after which the subscription's cursor
    moves to it.  The drain stops, answering [true], after the first
    dispatch that added a subscription. *)
Fixpoint drain (targetBlock : Z) (q : list Event) : M World bool :=
  match q with
  | [] => ret false
  | ev :: rest =>
      if targetBlock <? ev_blockNumber ev then ret false
      else
        exec modify (set_eventQueue rest);
        subs <~ gets subscriptions;
        match subs !! ev_subscriptionId ev with
        | None => drain targetBlock rest
        | Some sub =>
            if cursor_leb (ev_blockNumber ev, ev_logIndex ev) (cursorOf sub)
            then drain targetBlock rest
            else
              match decodeEvent env sub ev with
              | None => drain targetBlock rest
              | Some eventName =>
                  exec dispatch (sub_contractName sub) eventName ev;
                  exec updateSubscription (ev_subscriptionId ev)
                    (indexedTo (ev_blockNumber ev) (ev_logIndex ev));
                  subs' <~ gets subscriptions;
                  if bool_decide (dom subs' = dom subs)
                  then drain targetBlock rest
                  else ret true
              end
        end
  end.

(** Modelled from the spec: [processEvents] of [@/eventProcessor],
    which is not among the sources (spec 4.P).  It drains the queue up
    to [targetBlock] and returns the flag together with the two
    cursors, the watermark over all subscriptions: of their cursors
    when the drain stopped for a new subscription, and of how far each
    is known indexed when it completed.  With no subscription at all
    every one of them is indexed up to any block, and the answer is the
    block the drain went up to, [(targetBlock, 0)]. *)
Definition processEvents (targetBlock : Z) : M World ProcessResult :=
  q <~ gets eventQueue;
  hasNew <~ drain targetBlock q;
  subs <~ gets subscriptions;
  let c := default (targetBlock, 0) (watermark (negb hasNew) targetBlock subs) in
  ret {| indexedToBlock := fst c;
         indexedToLogIndex := snd c;
         hasNewSubscriptions := hasNew |}.

(** *** The poll loop, indexer.ts lines 140-242 *)

(** [scheduleNextPoll(delay)], lines 145-149 *)
Definition scheduleNextPoll (delay : Z) : M World unit :=
  st <~ gets state;
  match st with
  | Running _ targetBlock cb =>
      h <~ setTimeout delay;
      modify (set_state (Running h targetBlock cb))
  | _ => ret tt
  end.

Definition eventPollDelayMs : Z := default 1000 (pollingIntervalMs env).

(** Lines 152-159: [latest] is a moving target. *)
Definition resolveTarget (stateTarget : ToBlock) : M World Z :=
  match stateTarget with
  | Latest => liftR (getLastBlockNumber env)
  | BlockNumber n => ret n
  end.

(** [resolveTarget] answers [T]. *)
Definition targetResolves (stateTarget : ToBlock) (T : Z) : Prop :=
  match stateTarget with
  | Latest => getLastBlockNumber env = Ok T
  | BlockNumber n => n = T
  end.

(** Lines 161-171: the planner pushes what it fetched, then fails or
    returns. *)
Definition fetchEvents (targetBlock : Z) : M World unit :=
  subs <~ gets subscriptions;
  let '(events, err) := getSubscriptionEvents env targetBlock subs in
  exec modify (fun w => set_eventQueue (foldl (fun q e => queue e q) (eventQueue w) events) w);
  match err with
  | Some e => throw e
  | None => ret tt
  end.

Definition saveIfConfigured : M World unit :=
  match subscriptionStore env with
  | Some store => saveSubscriptionsToStore store
  | None => ret tt
  end.

(** The map after [updateSubscription] ran for each of [ids]. *)
Definition updateAll (u : SubscriptionUpdate) (ids : list string)
    (m : gmap string Subscription) : gmap string Subscription :=
  foldl (fun acc id => alter (applyUpdate u) id acc) m ids.

(** [for (const id of subscriptionIds) updateSubscription(subscriptions, id, u)] *)
Definition updateEach (subscriptionIds : list string) (u : SubscriptionUpdate) : M World unit :=
  forEach subscriptionIds (fun id => updateSubscription id u).

(** Lines 152-177 of the [try] block: the target, the planner, the
    snapshot of the ids and the [fetchedToBlock] cursors.  The order of
    [subscriptionIds] is immaterial: the updates are to distinct keys. *)
Definition pollFetch (stateTarget : ToBlock) : M World (Z * list string) :=
  targetBlock <~ resolveTarget stateTarget;
  exec fetchEvents targetBlock;
  subscriptionIds <~ gets (fun w => (map_to_list (subscriptions w)).*1);
  exec updateEach subscriptionIds (fetchedTo targetBlock);
  ret (targetBlock, subscriptionIds).

(** Lines 193-236 of the [try] block, after [processEvents] answered
    [r].  It answers [false] where the source returns from [poll] and
    [true] where it falls through to the [scheduleNextPoll()] of line
    241. *)
Definition pollFinish (targetBlock : Z) (subscriptionIds : list string)
    (r : ProcessResult) : M World bool :=
  exec updateEach subscriptionIds (indexedTo (indexedToBlock r) (indexedToLogIndex r));
  if hasNewSubscriptions r then
    exec saveIfConfigured;
    exec scheduleNextPoll 0;
    ret false
  else
    exec updateEach subscriptionIds (indexedTo targetBlock 0);
    pending <~ gets (fun w => length (eventQueue w));
    exec emit (EmitProgress (indexedToBlock r) targetBlock pending);
    exec saveIfConfigured;
    st <~ gets state;
    match st with
    | Running _ (BlockNumber n) _ =>
        if targetBlock =? n
        then exec detached stop; ret false
        else ret true
    | _ => ret true
    end.

(** What a successful [saveIfConfigured] of the map [m] adds to the
    trace. *)
Definition savedEffects (m : gmap string Subscription) : list (Effect Abi) :=
  match subscriptionStore env with
  | Some _ => [Saved m]
  | None => []
  end.

(** The body of the [try] block, lines 152-236. *)
Definition pollBody (stateTarget : ToBlock) : M World bool :=
  fetched <~ pollFetch stateTarget;
  r <~ processEvents fetched.1;
  pollFinish fetched.1 fetched.2 r.

(** The [catch] block, lines 237-239: it reads the callbacks of the
    state current at that moment. *)
Definition pollCatch (err : JsError) : M World bool :=
  st <~ gets state;
  match st with
  | Running _ _ cb => exec onError cb err; ret true
  | _ => throw (Error "state.onError is not a function")
  end.

(** [poll], lines 140-242 *)
Definition poll : M World unit :=
  st <~ gets state;
  match st with
  | Running _ stateTarget _ =>
      continue <~ try_catch (pollBody stateTarget) pollCatch;
      if continue : bool then scheduleNextPoll eventPollDelayMs else ret tt
  | _ => ret tt
  end.

(** *** The entry points, lines 391-455 *)

Definition initIfInitial : M World unit :=
  st <~ gets state;
  match st with
  | Initial => init
  | _ => ret tt
  end.

(** [watch], lines 391-419: the promise chain ends in a [catch] that
    emits [error]. *)
Definition watch : M World unit :=
  try_catch
    (exec initIfInitial;
     st <~ gets state;
     if isRunning st then throw (Error "Indexer is already running")
     else
       h <~ setTimeout 0;
       exec modify (set_state (Running h Latest OfWatch));
       emit EmitStarted)
    (fun error => emit (EmitError error)).

(** [indexToBlock], lines 421-455.  A normal return hands the pending
    promise to the caller, which [Resolved] or [Rejected] settle later;
    a throw is the rejection of the async function itself. *)
Definition indexToBlock (target : ToBlock) : M World unit :=
  exec initIfInitial;
  st <~ gets state;
  if isRunning st then throw (Error "Indexer is already running")
  else
    targetBlock <~ resolveTarget target;
    h <~ setTimeout 0;
    exec modify (set_state (Running h (BlockNumber targetBlock) OfIndexToBlock));
    emit EmitStarted.
(** *** The lifecycle as a step relation *)

(** One call of an entry point of the closure, or one firing of [poll],
    run from entry to exit. *)
Inductive apiStep : World -> World -> Prop :=
| step_watch w : apiStep w (snd (watch w))
| step_indexToBlock target w : apiStep w (snd (indexToBlock target w))
| step_stop w : apiStep w (snd (stop w))
| step_poll w : apiStep w (snd (poll w))
| step_subscribeToContract options w : apiStep w (snd (subscribeToContract options w)).

(** The changes of state the code makes: [initial] is left only for
    [running] and never entered again; [running] and [stopped] lead to
    one another. *)
Definition transition (st st' : IndexerState) : Prop :=
  match st, st' with
  | Initial, Stopped => False
  | Running _ _ _, Initial => False
  | Stopped, Initial => False
  | _, _ => True
  end.

(** An action that never puts the state back to [initial]. *)
Definition noReset {A} (m : M World A) : Prop :=
  forall w r w', m w = (r, w') -> state w' = Initial -> state w = Initial.

End Engine.

(** ** The contract reader, indexer.ts lines 316-381 *)

Definition Hex := string.

(** The key of a call-result entry of the cache. *)
Record ReadKey := {
  key_chainId : Z;
  key_address : Hex;
  key_blockNumber : Z;
  key_functionName : string;
  key_data : Hex
}.

(** The calls [readContract] makes to its collaborators, oldest first. *)
Inductive ReadCall :=
| CacheGet (key : ReadKey)
| RpcRead (functionName : string) (data address : Hex) (blockNumber : Z)
| CacheInsert (key : ReadKey) (result : Hex).

(** The two call-result methods of the [Cache] interface; both may fail. *)
Record Cache := {
  getContractRead : ReadKey -> Result (option Hex);
  insertContractRead : ReadKey -> Hex -> Result unit
}.

Record ReadArgs := {
  ra_contract : string;
  ra_functionName : string;
  ra_address : Hex;
  ra_blockNumber : Z;
  ra_args : list string
}.

Section ContractReader.
Context {Abi Value : Type}.

(** What the closure captures for a read: the ABI registry, the chain
    id, the optional cache, the RPC client's [readContract] and viem's
    codec, each of which may throw. *)
Record ReadEnv := {
  rd_contracts : string -> option Abi;
  rd_chainId : Z;
  rd_cache : option Cache;
  rd_rpcReadContract : string -> Hex -> Hex -> Z -> Result Hex;
  encodeFunctionData : Abi -> string -> list string -> Result Hex;
  decodeFunctionResult : Abi -> string -> Hex -> Result Value
}.

Context (renv : ReadEnv).

Definition called (c : ReadCall) : M (list ReadCall) unit :=
  modify (fun log : list ReadCall => (log ++ [c])%list).

Definition readKey (args : ReadArgs) (data : Hex) : ReadKey :=
  {| key_chainId := rd_chainId renv;
     key_address := ra_address args;
     key_blockNumber := ra_blockNumber args;
     key_functionName := ra_functionName args;
     key_data := data |}.

(** Lines 342-354: the lookup; [None] is [result === undefined]. *)
Definition lookupCache (key : ReadKey) : M (list ReadCall) (option Hex) :=
  match rd_cache renv with
  | Some cache =>
      exec called (CacheGet key);
      liftR (getContractRead cache key)
  | None => ret None
  end.

(** Lines 357-373: the RPC call, then the insert when a cache is there. *)
Definition fetchAndStore (args : ReadArgs) (data : Hex) : M (list ReadCall) Hex :=
  exec called (RpcRead (ra_functionName args) data (ra_address args) (ra_blockNumber args));
  result <~ liftR (rd_rpcReadContract renv (ra_functionName args) data
                     (ra_address args) (ra_blockNumber args));
  exec match rd_cache renv with
       | Some cache =>
           exec called (CacheInsert (readKey args data) result);
           liftR (insertContractRead cache (readKey args data) result)
       | None => ret tt
       end;
  ret result.

Definition readContract (args : ReadArgs) : M (list ReadCall) Value :=
  match rd_contracts renv (ra_contract args) with
  | None => throw (Error ("Contract " +:+ ra_contract args +:+ " not found"))
  | Some contract =>
      data <~ liftR (encodeFunctionData renv contract (ra_functionName args) (ra_args args));
      cachedRead <~ lookupCache (readKey args data);
      result <~ match cachedRead with
                | Some r => ret r
                | None => fetchAndStore args data
                end;
      liftR (decodeFunctionResult renv contract (ra_functionName args) result)
  end.
(** The RPC call of a read and what it answers. *)
Definition rpcCallOf (args : ReadArgs) (data : Hex) : ReadCall :=
  RpcRead (ra_functionName args) data (ra_address args) (ra_blockNumber args).

Definition rpcAnswer (args : ReadArgs) (data : Hex) : Result Hex :=
  rd_rpcReadContract renv (ra_functionName args) data (ra_address args) (ra_blockNumber args).

End ContractReader.

Arguments ReadEnv : clear implicits.

(** ** The standard RPC transport [createRpcClient], the second module
    of the source file (lines 478-713) *)

Record Log := {
  log_address : Hex;
  log_blockNumber : Hex;
  log_logIndex : Hex;
  log_data : Hex
}.

(** The parsed body of a JSON-RPC reply: it has an [error] member or a
    [result]. *)
Inductive JsonReply :=
| ReplyError (error : RpcErrorBody)
| ReplyResult (result : list Log).

(** What [rpcCall] reads of a [fetch] response. *)
Record HttpResponse := {
  resp_status : Z;
  resp_contentType : option string;
  resp_text : string;
  resp_json : Result JsonReply
}.

(** The [getLogs] request; the hexadecimal rendering of the two bounds
    is left out. *)
Record LogsRequest := {
  req_address : list Hex;
  req_topics : list Hex;
  req_fromBlock : Z;
  req_toBlock : ToBlock
}.

(** The transport's effects: how many requests went out, and the delays
    waited between attempts, oldest first. *)
Record Wire := {
  requests : nat;
  delays : list Z
}.

(** [String.prototype.includes] *)
Fixpoint includes (needle hay : string) : bool :=
  String.prefix needle hay
  || match hay with
     | EmptyString => false
     | String _ hay' => includes needle hay'
     end.

(** Modelled from the spec: [retry] of [@/retry], which is not among the
    sources.  It runs [fn]; a failure that [shouldRetry] refuses is
    thrown at once; any other failure is retried after [delay] ms, up to
    [maxRetries] times, after which the last failure is thrown. *)
Fixpoint retry {A} (fn : M Wire A) (shouldRetry : JsError -> bool)
    (delay : Z) (maxRetries : nat) : M Wire A :=
  try_catch fn (fun e =>
    if shouldRetry e then
      match maxRetries with
      | O => throw e
      | S n =>
          exec modify (fun w => {| requests := requests w; delays := delays w ++ [delay] |});
          retry fn shouldRetry delay n
      end
    else throw e).

(** The wire after one more request. *)
Definition sent (w : Wire) : Wire :=
  {| requests := S (requests w); delays := delays w |}.

(** The wire after [k] failed attempts, each followed by the delay. *)
Definition retried (delay : Z) (k : nat) (w : Wire) : Wire :=
  {| requests := requests w + k; delays := delays w ++ repeat delay k |}.

Section RpcClient.
(** [fetch] as the server answers the n-th request of this client;
    a [Throw] is a network failure. *)
Context (fetch : LogsRequest -> nat -> Result HttpResponse).

(** [rpcCall], lines 586-620, as used for [eth_getLogs] *)
Definition rpcCall (method : string) (params : LogsRequest) : M Wire (list Log) :=
  n <~ gets requests;
  exec modify (fun w => {| requests := S (requests w); delays := delays w |});
  response <~ liftR (fetch params n);
  if negb (resp_status response =? 200) then throw (JsonRpcError method None)
  else
    match resp_contentType response with
    | Some contentType =>
        if includes "application/json" contentType then
          json <~ liftR (resp_json response);
          match json with
          | ReplyError error => throw (JsonRpcError method (Some error))
          | ReplyResult result => ret result
          end
        else throw (Error ("Invalid response: " +:+ resp_text response))
    | None => throw (Error ("Invalid response: " +:+ resp_text response))
    end.

(** The test of the [catch] in [getLogs]: a [JsonRpcError] whose
    provider message contains one of the two phrases. *)
Definition isRangeTooWide (e : JsError) : bool :=
  match e with
  | JsonRpcError _ (Some body) =>
      match message body with
      | Some m =>
          includes "query returned more than" m
          || includes "Log response size exceeded" m
      | None => false
      end
  | _ => false
  end.

(** The function [getLogs] hands to [retry]. *)
Definition getLogsAttempt (opts : LogsRequest) : M Wire (list Log) :=
  try_catch (rpcCall "eth_getLogs" opts)
    (fun e =>
       if isRangeTooWide e then throw (JsonRpcRangeTooWideError e)
       else throw e).

(** What the attempt that sends the n-th request ends with. *)
Definition attemptOutcome (opts : LogsRequest) (n : nat) : Result (list Log) :=
  fst (getLogsAttempt opts {| requests := n; delays := [] |}).

(** The [shouldRetry] option of [getLogs]. *)
Definition shouldRetry (error : JsError) : bool :=
  match error with
  | JsonRpcRangeTooWideError _ => false
  | _ => true
  end.

(** [getLogs] with [maxRetries: 5] and [delay: 1000] *)
Definition getLogs (opts : LogsRequest) : M Wire (list Log) :=
  retry (getLogsAttempt opts) shouldRetry 1000 5.
End RpcClient.


(** ** What a tick and a load leave behind *)

Section Outcomes.
Context {Abi : Type}.

#[local] Abbreviation World := (World Abi).
#[local] Abbreviation Subscription := (Subscription Abi).

(** The lifecycle state and the timers are the same in [w'] as in [w]. *)
Definition sameControl (w w' : World) : Prop :=
  state w' = state w /\ timers w' = timers w /\ nextTimer w' = nextTimer w.

(** An action that touches neither the lifecycle state nor the timers. *)
Definition keepsControl {A} (m : M World A) : Prop :=
  forall w r w', m w = (r, w') -> sameControl w w'.

(** [w'] is [w] after [scheduleNextPoll(delay)] in a running state: one
    new timer, which the state holds. *)
Definition rescheduled (delay : Z) (w w' : World) : Prop :=
  exists h tb cb,
    state w = Running h tb cb
    /\ state w' = Running (nextTimer w) tb cb
    /\ timers w' = <[nextTimer w := delay]> (timers w)
    /\ nextTimer w' = S (nextTimer w).

(** [w'] is [w] after [stop()] in a running state: the timer of the
    state cleared, no new one. *)
Definition stoppedFrom (w w' : World) : Prop :=
  exists h tb cb,
    state w = Running h tb cb
    /\ state w' = Stopped
    /\ timers w' = delete h (timers w)
    /\ nextTimer w' = nextTimer w.

(** What the error callback of a running state adds to the trace:
    [watch] emits [error]; [indexToBlock] rejects, and the [stop()] that
    follows emits [stopped] and resolves the promise already rejected. *)
Definition onErrorEffects (cb : Callbacks) (err : JsError) : list (Effect Abi) :=
  match cb with
  | OfWatch => [EmitError err]
  | OfIndexToBlock => [Rejected err; EmitStopped; Resolved]
  end.

(** The subscription [subscribeToContract] makes from a stored one once
    its address is checksummed to [address] and its contract found as
    [contract]: the bounds and the indexed block as stored, the id, the
    fetched block and the log index anew. *)
Definition reloaded (address : string) (contract : Abi) (stored : Subscription)
    : Subscription :=
  {| sub_id := address;
     sub_abi := contract;
     sub_contractName := sub_contractName stored;
     sub_contractAddress := address;
     sub_fromBlock := sub_fromBlock stored;
     sub_toBlock := sub_toBlock stored;
     sub_indexedToBlock := sub_indexedToBlock stored;
     sub_fetchedToBlock := -1;
     sub_indexedToLogIndex := 0 |}.

(** [s'] is [s] but for the two indexed cursors. *)
Definition sameButIndexed (s s' : Subscription) : Prop :=
  sub_id s' = sub_id s
  /\ sub_abi s' = sub_abi s
  /\ sub_contractName s' = sub_contractName s
  /\ sub_contractAddress s' = sub_contractAddress s
  /\ sub_fromBlock s' = sub_fromBlock s
  /\ sub_toBlock s' = sub_toBlock s
  /\ sub_fetchedToBlock s' = sub_fetchedToBlock s.

(** The error [subscribeToContract] throws for these options, if any:
    that of the checksum first, then the unknown contract. *)
Definition subscribeError (env : Env Abi) (o : SubscribeOptions) : option JsError :=
  match getAddress env (opt_address o) with
  | Throw e => Some e
  | Ok _ =>
      match contracts env (opt_contract o) with
      | None => Some (Error ("Contract " +:+ opt_contract o +:+ " not found"))
      | Some _ => None
      end
  end.

(** The loop of [init] over the stored subscriptions. *)
Definition loadEach (env : Env Abi) (l : list Subscription) : M World unit :=
  forEach l (fun st => subscribeToContract env (storedOptions st)).

(** The checksummed address of the options is [address]. *)
Definition keyOf (env : Env Abi) (o : SubscribeOptions) (address : string) : Prop :=
  getAddress env (opt_address o) = Ok address.

(** [w'] is [w] after [watch()] or [indexToBlock()] started a run: the
    indexer was not running, and one timer at delay 0 is set, which the
    state holds. *)
Definition started (w w' : World) : Prop :=
  isRunning (state w) = false
  /\ exists tb cb,
       state w' = Running (nextTimer w) tb cb
       /\ timers w' = <[nextTimer w := 0]> (timers w)
       /\ nextTimer w' = S (nextTimer w).

(** The pending timer [h] fires: the runtime takes it out of the pending
    set and runs [poll], the only callback the closure ever hands to
    [setTimeout] (line 147). *)
Definition fire (env : Env Abi) (h : nat) : M World unit :=
  exec modify (fun w => set_timers (delete h (timers w)) (nextTimer w) w);
  poll env.

(** One step of a run in which every call completes before the next
    begins: a call of an entry point, or a pending timer that fires. *)
Inductive runStep (env : Env Abi) : World -> World -> Prop :=
| run_watch w : runStep env w (snd (watch env w))
| run_indexToBlock target w : runStep env w (snd (indexToBlock env target w))
| run_stop w : runStep env w (snd (stop w))
| run_subscribeToContract o w : runStep env w (snd (subscribeToContract env o w))
| run_fire h delay w :
    timers w !! h = Some delay -> runStep env w (snd (fire env h w)).

(** Exactly one poll is pending while the indexer runs, the one its
    state holds, and none otherwise. *)
Definition onePollPending (w : World) : Prop :=
  match state w with
  | Running h _ _ => exists delay, timers w = {[ h := delay ]}
  | _ => timers w = ∅
  end.


End Outcomes.

(** * Scenarios *)

(** A registry with one contract, [Token], and a checksum that knows
    two addresses. *)
Definition demoContracts (name : string) : option unit :=
  if String.eqb name "Token" then Some tt else None.

Definition demoChecksum (address : string) : Result string :=
  if String.eqb address "0xabc" || String.eqb address "0xABC" then Ok "0xABC"
  else if String.eqb address "0xdef" || String.eqb address "0xDEF" then Ok "0xDEF"
  else Throw (Error "Address is invalid").

Definition demoEvent (block logIndex : Z) (id : string) : Event :=
  {| ev_blockNumber := block; ev_logIndex := logIndex;
     ev_subscriptionId := id; ev_data := "" |}.

(** An engine without a store whose planner answers [events] and whose
    listeners do nothing. *)
Definition demoEnv (events : list Event) : Env unit :=
  {| contracts := demoContracts;
     pollingIntervalMs := None;
     subscriptionStore := None;
     getAddress := demoChecksum;
     getLastBlockNumber := Ok 100;
     getSubscriptionEvents := fun _ _ => (events, None);
     decodeEvent := fun _ _ => Some "Transfer";
     handler := fun _ _ _ => ([], None) |}.

Definition freshWorld : World unit :=
  {| state := Initial; subscriptions := ∅; eventQueue := [];
     timers := ∅; nextTimer := 0%nat; effects := [] |}.

Definition demoOptions (address : string) (id : option string)
    (toBlock : option ToBlock) : SubscribeOptions :=
  {| opt_contract := "Token"; opt_address := address;
     opt_indexedToBlock := None; opt_fromBlock := Some 0;
     opt_fromLogIndex := Some 7; opt_toBlock := toBlock; opt_id := id |}.

(** The world an action leaves behind. *)
Definition after {A} (m : M (World unit) A) (w : World unit) : World unit := snd (m w).

(** A stopped indexer: started by [watch] on a fresh closure, then
    stopped. *)
Definition stoppedWorld : World unit :=
  after stop (after (watch (demoEnv [])) freshWorld).

(** A running indexer with one subscription, [0xABC] from block 0 up to
    [toBlock], started by [indexToBlock(100)]. *)
Definition demoSubscription (toBlock : ToBlock) : Subscription unit :=
  {| sub_id := "0xABC"; sub_abi := tt; sub_contractName := "Token";
     sub_contractAddress := "0xABC"; sub_fromBlock := 0; sub_toBlock := toBlock;
     sub_indexedToBlock := -1; sub_fetchedToBlock := -1;
     sub_indexedToLogIndex := 0 |}.

(** The runtime takes the timer of the running state out of the pending
    set when it fires, before it calls [poll]. *)
Definition timerFired (w : World unit) : World unit :=
  match state w with
  | Running h _ _ => set_timers (delete h (timers w)) (nextTimer w) w
  | _ => w
  end.

Definition indexingWorld (toBlock : option ToBlock) : World unit :=
  timerFired
    (after (indexToBlock (demoEnv []) (BlockNumber 100))
       (after (subscribeToContract (demoEnv []) (demoOptions "0xabc" None toBlock))
          freshWorld)).

(** Scenario 1 of the spec: three logs at (10,0), (20,0), (20,1), pushed
    out of order, and the target 100. *)
Definition threeLogs : list Event :=
  [demoEvent 20 1 "0xABC"; demoEvent 10 0 "0xABC"; demoEvent 20 0 "0xABC"].

(** A subscription as a store holds it: indexed up to log 3 of block 40,
    under an id of the caller's. *)
Definition storedSubscription : Subscription unit :=
  {| sub_id := "transfers-only"; sub_abi := tt; sub_contractName := "Token";
     sub_contractAddress := "0xdef"; sub_fromBlock := 0; sub_toBlock := Latest;
     sub_indexedToBlock := 40; sub_fetchedToBlock := 40;
     sub_indexedToLogIndex := 3 |}.

(** An engine whose store cannot be read. *)
Definition brokenStoreEnv : Env unit :=
  {| contracts := demoContracts;
     pollingIntervalMs := None;
     subscriptionStore :=
       Some {| store_all := Throw (Error "store unavailable");
               store_save := fun _ => None |};
     getAddress := demoChecksum;
     getLastBlockNumber := Ok 100;
     getSubscriptionEvents := fun _ _ => ([], None);
     decodeEvent := fun _ _ => Some "Transfer";
     handler := fun _ _ _ => ([], None) |}.

(** Scenario 5 of the spec: the listener of the event at block 10
    subscribes to [0xdef]; a store is configured and saves. *)
Definition spawningEnv : Env unit :=
  {| contracts := demoContracts;
     pollingIntervalMs := None;
     subscriptionStore :=
       Some {| store_all := Ok [storedSubscription];
               store_save := fun _ => None |};
     getAddress := demoChecksum;
     getLastBlockNumber := Ok 100;
     getSubscriptionEvents := fun _ _ => (threeLogs, None);
     decodeEvent := fun _ _ => Some "Transfer";
     handler := fun _ _ ev =>
       if ev_blockNumber ev =? 10
       then ([demoOptions "0xdef" None None], None)
       else ([], None) |}.

(** A reader with a cache that holds one call result. *)
Definition demoKey : ReadKey :=
  {| key_chainId := 1; key_address := "0xABC"; key_blockNumber := 42;
     key_functionName := "balanceOf"; key_data := "0x70a08231" |}.

Definition demoCache : Cache :=
  {| getContractRead := fun key =>
       Ok (if key_blockNumber key =? 42 then Some "0x2a" else None);
     insertContractRead := fun _ _ => Ok tt |}.

Definition demoReadEnv : ReadEnv unit string :=
  {| rd_contracts := demoContracts;
     rd_chainId := 1;
     rd_cache := Some demoCache;
     rd_rpcReadContract := fun _ _ _ blockNumber =>
       if blockNumber =? 43 then Ok "0x2b" else Throw (Error "execution reverted");
     encodeFunctionData := fun _ _ _ => Ok "0x70a08231";
     decodeFunctionResult := fun _ _ result => Ok result |}.

Definition demoRead (blockNumber : Z) : ReadArgs :=
  {| ra_contract := "Token"; ra_functionName := "balanceOf";
     ra_address := "0xABC"; ra_blockNumber := blockNumber; ra_args := [] |}.

(** A provider that answers HTTP 500 twice and then refuses the range. *)
Definition tooManyResults : RpcErrorBody :=
  {| message := Some "query returned more than 10000 results"; code := -32005 |}.

Definition demoFetch (_ : LogsRequest) (n : nat) : Result HttpResponse :=
  if (n <? 2)%nat
  then Ok {| resp_status := 500; resp_contentType := None;
             resp_text := "Internal Server Error";
             resp_json := Throw (Error "Unexpected token") |}
  else Ok {| resp_status := 200; resp_contentType := Some "application/json";
             resp_text := ""; resp_json := Ok (ReplyError tooManyResults) |}.

Definition demoRequest : LogsRequest :=
  {| req_address := ["0xABC"]; req_topics := []; req_fromBlock := 0;
     req_toBlock := BlockNumber 100 |}.

Definition idleWire : Wire := {| requests := 0; delays := [] |}.

(** The indexer with the subscription [0xABC], started by [watch()]. *)
Definition watchingWorld : World unit :=
  timerFired
    (after (watch (demoEnv []))
       (after (subscribeToContract (demoEnv []) (demoOptions "0xabc" None None))
          freshWorld)).

(** An engine whose node cannot be reached. *)
Definition headlessEnv : Env unit :=
  {| contracts := demoContracts;
     pollingIntervalMs := None;
     subscriptionStore := None;
     getAddress := demoChecksum;
     getLastBlockNumber := Throw (Error "node unreachable");
     getSubscriptionEvents := fun _ _ => ([], None);
     decodeEvent := fun _ _ => Some "Transfer";
     handler := fun _ _ _ => ([], None) |}.

(** An engine whose planner pushes three logs and then fails. *)
Definition failingPlanEnv : Env unit :=
  {| contracts := demoContracts;
     pollingIntervalMs := None;
     subscriptionStore := None;
     getAddress := demoChecksum;
     getLastBlockNumber := Ok 100;
     getSubscriptionEvents := fun _ _ => (threeLogs, Some (Error "getLogs failed"));
     decodeEvent := fun _ _ => Some "Transfer";
     handler := fun _ _ _ => ([], None) |}.

(** Options and a stored subscription for a contract, [Vault], that the
    registry does not know. *)
Definition vaultOptions : SubscribeOptions :=
  {| opt_contract := "Vault"; opt_address := "0xabc";
     opt_indexedToBlock := None; opt_fromBlock := None;
     opt_fromLogIndex := None; opt_toBlock := None; opt_id := None |}.

Definition retiredSubscription : Subscription unit :=
  {| sub_id := "0xABC"; sub_abi := tt; sub_contractName := "Vault";
     sub_contractAddress := "0xabc"; sub_fromBlock := 0; sub_toBlock := Latest;
     sub_indexedToBlock := 12; sub_fetchedToBlock := 12;
     sub_indexedToLogIndex := 0 |}.

(** An engine whose store holds a subscription of [Vault] between two of
    [Token]. *)
Definition staleStoreEnv : Env unit :=
  {| contracts := demoContracts;
     pollingIntervalMs := None;
     subscriptionStore :=
       Some {| store_all :=
                 Ok [storedSubscription; retiredSubscription; demoSubscription Latest];
               store_save := fun _ => None |};
     getAddress := demoChecksum;
     getLastBlockNumber := Ok 100;
     getSubscriptionEvents := fun _ _ => ([], None);
     decodeEvent := fun _ _ => Some "Transfer";
     handler := fun _ _ _ => ([], None) |}.

(** A reader whose cache cannot be read at block 42 and cannot be
    written at all. *)
Definition flakyCache : Cache :=
  {| getContractRead := fun key =>
       if key_blockNumber key =? 42 then Throw (Error "cache unavailable")
       else Ok None;
     insertContractRead := fun _ _ => Throw (Error "cache is read-only") |}.

Definition flakyReadEnv : ReadEnv unit string :=
  {| rd_contracts := demoContracts;
     rd_chainId := 1;
     rd_cache := Some flakyCache;
     rd_rpcReadContract := fun _ _ _ _ => Ok "0x2b";
     encodeFunctionData := fun _ _ _ => Ok "0x70a08231";
     decodeFunctionResult := fun _ _ result => Ok result |}.

(** The addresses of the DAI and USDC token contracts, as callers
    write them and as [getAddress] answers for them. *)
Definition daiAddress : string := "0x6b175474e89094c44da98b954eedeac495271d0f".
Definition daiChecksummed : string := "0x6B175474E89094C44Da98b954EedeAC495271d0F".
Definition usdcAddress : string := "0xa0b86991c6218b36c1d19d4a2e9eb0ce3606eb48".
Definition usdcChecksummed : string := "0xA0b86991c6218b36c1d19D4a2e9Eb0cE3606eB48".

Definition mainnetChecksum (address : string) : Result string :=
  if String.eqb address daiAddress || String.eqb address daiChecksummed
  then Ok daiChecksummed
  else if String.eqb address usdcAddress || String.eqb address usdcChecksummed
  then Ok usdcChecksummed
  else Throw (Error "Address is invalid").

(** Scenario 1 for the DAI contract: logs at (10,0), (20,0), (20,1),
    pushed out of order. *)
Definition daiLogs : list Event :=
  [demoEvent 20 1 daiChecksummed; demoEvent 10 0 daiChecksummed;
   demoEvent 20 0 daiChecksummed].

(** An engine without a store whose planner answers [events] and whose
    listeners do nothing. *)
Definition mainnetEnv (events : list Event) : Env unit :=
  {| contracts := demoContracts;
     pollingIntervalMs := None;
     subscriptionStore := None;
     getAddress := mainnetChecksum;
     getLastBlockNumber := Ok 100;
     getSubscriptionEvents := fun _ _ => (events, None);
     decodeEvent := fun _ _ => Some "Transfer";
     handler := fun _ _ _ => ([], None) |}.

(** An engine with a store whose [save] answers [save], whose planner
    pushes the three logs of DAI and whose listener of the event at
    block 10 makes the [calls] of [subscribeToContract]. *)
Definition listenerEnv (save : option JsError) (calls : list SubscribeOptions)
    : Env unit :=
  {| contracts := demoContracts;
     pollingIntervalMs := None;
     subscriptionStore :=
       Some {| store_all := Ok []; store_save := fun _ => save |};
     getAddress := mainnetChecksum;
     getLastBlockNumber := Ok 100;
     getSubscriptionEvents := fun _ _ => (daiLogs, None);
     decodeEvent := fun _ _ => Some "Transfer";
     handler := fun _ _ ev =>
       if ev_blockNumber ev =? 10 then (calls, None) else ([], None) |}.

Definition daiOptions (id : option string) (toBlock : option ToBlock)
    : SubscribeOptions :=
  {| opt_contract := "Token"; opt_address := daiAddress;
     opt_indexedToBlock := None; opt_fromBlock := Some 0;
     opt_fromLogIndex := None; opt_toBlock := toBlock; opt_id := id |}.

(** A subscription to USDC from block [fromBlock]. *)
Definition usdcOptions (fromBlock : Z) : SubscribeOptions :=
  {| opt_contract := "Token"; opt_address := usdcAddress;
     opt_indexedToBlock := None; opt_fromBlock := Some fromBlock;
     opt_fromLogIndex := None; opt_toBlock := None; opt_id := None |}.

(** A running indexer with the one subscription to DAI from block 0 up
    to [toBlock], started by [indexToBlock(100)], or by [watch()], when
    its first timer has fired. *)
Definition daiIndexingWorld (toBlock : option ToBlock) : World unit :=
  timerFired
    (after (indexToBlock (mainnetEnv []) (BlockNumber 100))
       (after (subscribeToContract (mainnetEnv []) (daiOptions None toBlock))
          freshWorld)).

Definition daiWatchingWorld : World unit :=
  timerFired
    (after (watch (mainnetEnv []))
       (after (subscribeToContract (mainnetEnv []) (daiOptions None None))
          freshWorld)).

(** * Theorems *)

Ltac unfold_monad :=
  unfold bind, ret, gets, modify, throw, try_catch, liftR, detached, emit in *.

Section EngineFacts.
Context {Abi : Type} (env : Env Abi).
Implicit Types (w : World Abi) (cb : Callbacks).

Lemma stop_running w h tb cb :
  state w = Running h tb cb ->
  stop w =
    (Ok tt,
     {| state := Stopped; subscriptions := subscriptions w;
        eventQueue := eventQueue w;
        timers := delete h (timers w); nextTimer := nextTimer w;
        effects := (effects w ++ [EmitStopped]) ++ onStopEffects cb |}).
Proof.
  intros Hst. unfold stop. unfold_monad. rewrite Hst. simpl.
  destruct cb; simpl; unfold_monad; simpl; rewrite ?app_nil_r; reflexivity.
Qed.

Lemma stop_not_running w :
  isRunning (state w) = false ->
  stop w = (Throw (Error "Indexer is not running"), w).
Proof.
  intros Hst. unfold stop. unfold_monad.
  destruct (state w); simpl in *; try reflexivity. discriminate.
Qed.

(** C8. [stop()] in state [running] cancels the scheduled poll tick
    (the state's timer handle leaves the pending timers), emits
    [stopped], then invokes the stop callback of the running state, and
    the state becomes [stopped]; in state [initial] or [stopped] it
    throws "Indexer is not running" and changes nothing. *)
Theorem stop_cancels_or_throws w :
  match state w with
  | Running h tb cb =>
      exists w',
        stop w = (Ok tt, w')
        /\ state w' = Stopped
        /\ timers w' = delete h (timers w)
        /\ timers w' !! h = None
        /\ effects w' = effects w ++ EmitStopped :: onStopEffects cb
        /\ subscriptions w' = subscriptions w
        /\ eventQueue w' = eventQueue w
  | _ => stop w = (Throw (Error "Indexer is not running"), w)
  end.
Proof.
  destruct (state w) as [| |h tb cb] eqn:Hst.
  - apply stop_not_running. now rewrite Hst.
  - apply stop_not_running. now rewrite Hst.
  - eexists. split; [apply (stop_running w h tb cb Hst)|]. simpl.
    repeat split; try reflexivity.
    + apply lookup_delete_eq.
    + now rewrite <- app_assoc.
Qed.

(** [subscribeToContract] and [init] touch nothing but the map. *)
Lemma subscribeToContract_frame o w :
  exists m, snd (subscribeToContract env o w) = set_subscriptions m w.
Proof.
  unfold subscribeToContract. unfold_monad.
  destruct (getAddress env (opt_address o)) as [address|e]; simpl.
  - destruct (contracts env (opt_contract o)); simpl; eauto.
    exists (subscriptions w). now destruct w.
  - exists (subscriptions w). now destruct w.
Qed.

Lemma forEach_frame {A} (f : A -> M (World Abi) unit) (l : list A) w :
  (forall x w0, exists m, snd (f x w0) = set_subscriptions m w0) ->
  exists m, snd (forEach l f w) = set_subscriptions m w.
Proof.
  intros Hf. revert w. induction l as [|x l IH]; intros w; simpl.
  - exists (subscriptions w). now destruct w.
  - unfold bind.
    destruct (Hf x w) as [m Hm].
    destruct (f x w) as [[[]|e] w1]; simpl in *; subst w1.
    + destruct (IH (set_subscriptions m w)) as [m' Hm']. exists m'.
      rewrite Hm'. reflexivity.
    + eauto.
Qed.

Lemma init_frame w :
  exists m, snd (init env w) = set_subscriptions m w.
Proof.
  unfold init. destruct (subscriptionStore env) as [store|]; simpl.
  - unfold_monad. destruct (store_all store) as [stored|e]; simpl.
    + apply forEach_frame. intros x w0. apply subscribeToContract_frame.
    + exists (subscriptions w). now destruct w.
  - exists (subscriptions w). now destruct w.
Qed.

Lemma initIfInitial_frame w :
  exists m, snd (initIfInitial env w) = set_subscriptions m w.
Proof.
  unfold initIfInitial. unfold_monad. destruct (state w); simpl.
  - apply init_frame.
  - exists (subscriptions w). now destruct w.
  - exists (subscriptions w). now destruct w.
Qed.

Lemma initIfInitial_not_initial w :
  state w <> Initial -> initIfInitial env w = (Ok tt, w).
Proof.
  intros Hst. unfold initIfInitial. unfold_monad.
  destruct (state w); [congruence|reflexivity|reflexivity].
Qed.

Lemma initIfInitial_initial w :
  state w = Initial -> initIfInitial env w = init env w.
Proof.
  intros Hst. unfold initIfInitial. unfold_monad. now rewrite Hst.
Qed.

(** The world [watch] and [indexToBlock] leave on success. *)
Lemma watch_starts w w1 :
  initIfInitial env w = (Ok tt, w1) ->
  isRunning (state w) = false ->
  watch env w =
    (Ok tt,
     add_effect EmitStarted
       (set_state (Running (nextTimer w1) Latest OfWatch)
          (set_timers (<[nextTimer w1 := 0]> (timers w1)) (S (nextTimer w1)) w1))).
Proof.
  intros Hinit Hrun. unfold watch. unfold_monad. rewrite Hinit.
  destruct (initIfInitial_frame w) as [m Hm]. rewrite Hinit in Hm. simpl in Hm.
  assert (Hst : state w1 = state w) by (subst w1; reflexivity).
  rewrite Hst, Hrun. reflexivity.
Qed.

Lemma watch_running w :
  isRunning (state w) = true ->
  watch env w =
    (Ok tt, add_effect (EmitError (Error "Indexer is already running")) w).
Proof.
  intros Hrun. unfold watch. unfold_monad.
  rewrite initIfInitial_not_initial by (destruct (state w); discriminate || congruence).
  rewrite Hrun. reflexivity.
Qed.

Lemma resolveTarget_ok target T w :
  targetResolves env target T -> resolveTarget env target w = (Ok T, w).
Proof.
  unfold targetResolves, resolveTarget. destruct target; unfold_monad.
  - now intros ->.
  - now intros ->.
Qed.

Lemma indexToBlock_running w target :
  isRunning (state w) = true ->
  indexToBlock env target w = (Throw (Error "Indexer is already running"), w).
Proof.
  intros Hrun. unfold indexToBlock. unfold_monad.
  rewrite initIfInitial_not_initial by (destruct (state w); discriminate || congruence).
  rewrite Hrun. reflexivity.
Qed.

Lemma indexToBlock_starts w w1 target T :
  initIfInitial env w = (Ok tt, w1) ->
  isRunning (state w) = false ->
  targetResolves env target T ->
  indexToBlock env target w =
    (Ok tt,
     add_effect EmitStarted
       (set_state (Running (nextTimer w1) (BlockNumber T) OfIndexToBlock)
          (set_timers (<[nextTimer w1 := 0]> (timers w1)) (S (nextTimer w1)) w1))).
Proof.
  intros Hinit Hrun HT. unfold indexToBlock. unfold bind at 1. rewrite Hinit.
  destruct (initIfInitial_frame w) as [m Hm]. rewrite Hinit in Hm. simpl in Hm.
  assert (Hst : state w1 = state w) by (subst w1; reflexivity).
  unfold bind at 1. unfold gets at 1. rewrite Hst, Hrun.
  unfold bind at 1. rewrite (resolveTarget_ok target T w1 HT).
  reflexivity.
Qed.

(** C10. [watch()] returns normally from every state.  When the indexer
    is already running it emits [error] with "Indexer is already
    running" and changes nothing else, where [indexToBlock] throws that
    error; when [init] fails from the initial state, [watch()] emits
    [error] with the failure, where [indexToBlock] throws it. *)
Theorem watch_never_throws w :
  exists w',
    watch env w = (Ok tt, w')
    /\ (isRunning (state w) = true ->
        w' = add_effect (EmitError (Error "Indexer is already running")) w
        /\ forall target,
             indexToBlock env target w
             = (Throw (Error "Indexer is already running"), w))
    /\ (forall e w1,
          state w = Initial -> init env w = (Throw e, w1) ->
          w' = add_effect (EmitError e) w1
          /\ forall target, indexToBlock env target w = (Throw e, w1)).
Proof.
  destruct (isRunning (state w)) eqn:Hrun.
  - eexists. split; [apply watch_running; exact Hrun|]. split.
    + intros _. split; [reflexivity|]. intros target.
      now apply indexToBlock_running.
    + intros e w1 Hst. rewrite Hst in Hrun. discriminate.
  - destruct (initIfInitial env w) as [[[]|e0] w0] eqn:Hinit.
    + eexists. split; [apply (watch_starts w w0 Hinit Hrun)|]. split.
      * discriminate.
      * intros e w1 Hst Hthrow.
        rewrite (initIfInitial_initial w Hst), Hthrow in Hinit. discriminate.
    + exists (add_effect (EmitError e0) w0). split.
      * unfold watch. unfold_monad. rewrite Hinit. reflexivity.
      * split; [discriminate|]. intros e w1 Hst Hthrow.
        rewrite (initIfInitial_initial w Hst), Hthrow in Hinit.
        injection Hinit as -> ->. split; [reflexivity|]. intros target.
        unfold indexToBlock. unfold_monad.
        now rewrite (initIfInitial_initial w Hst), Hthrow.
Qed.

(** ** No action returns to [initial] *)

Lemma noReset_ret {A} (a : A) : noReset (ret a : M (World Abi) A).
Proof. intros w r w' [= _ <-]. auto. Qed.

Lemma noReset_throw {A} e : noReset (throw e : M (World Abi) A).
Proof. intros w r w' [= _ <-]. auto. Qed.

Lemma noReset_gets {A} (f : World Abi -> A) : noReset (gets f).
Proof. intros w r w' [= _ <-]. auto. Qed.

Lemma noReset_liftR {A} (x : Result A) : noReset (liftR x : M (World Abi) A).
Proof. intros w r w' [= _ <-]. auto. Qed.

Lemma noReset_bind {A B} (m : M (World Abi) A) (k : A -> M (World Abi) B) :
  noReset m -> (forall a, noReset (k a)) -> noReset (bind m k).
Proof.
  intros Hm Hk w r w'. unfold bind.
  destruct (m w) as [[a|e] w1] eqn:Hmw.
  - intros Hkw Hst. eapply Hm; [exact Hmw|]. eapply Hk; eassumption.
  - intros [= _ <-]. eapply Hm. exact Hmw.
Qed.

Lemma noReset_try_catch {A} (m : M (World Abi) A) h :
  noReset m -> (forall e, noReset (h e)) -> noReset (try_catch m h).
Proof.
  intros Hm Hh w r w'. unfold try_catch.
  destruct (m w) as [[a|e] w1] eqn:Hmw.
  - intros [= _ <-]. eapply Hm. exact Hmw.
  - intros Hhw Hst. eapply Hm; [exact Hmw|]. eapply Hh; eassumption.
Qed.

Lemma noReset_modify (f : World Abi -> World Abi) :
  (forall w, state (f w) = state w \/ state (f w) <> Initial) ->
  noReset (modify f).
Proof.
  intros Hf w r w' [= _ <-] Hst. destruct (Hf w) as [<-|Hne]; [exact Hst|contradiction].
Qed.

Lemma noReset_forEach {A} (l : list A) (f : A -> M (World Abi) unit) :
  (forall x, noReset (f x)) -> noReset (forEach l f).
Proof.
  intros Hf. induction l as [|x l IH]; simpl.
  - apply noReset_ret.
  - apply noReset_bind; [apply Hf|intros _; exact IH].
Qed.

Lemma noReset_setTimeout delay : noReset (setTimeout (Abi := Abi) delay).
Proof. intros w r w' [= _ <-]. auto. Qed.

Create HintDb noreset.
#[local] Hint Resolve noReset_setTimeout : noreset.

(** The steps that decompose a goal [noReset m] along the monad. *)
Ltac no_reset :=
  repeat first
    [ solve [auto with noreset]
    | apply noReset_ret | apply noReset_throw | apply noReset_gets
    | apply noReset_liftR
    | apply noReset_bind; [|intros ?]
    | apply noReset_try_catch; [|intros ?]
    | apply noReset_forEach; intros ?
    | apply noReset_modify; intros ?; simpl; solve [auto | right; discriminate]
    | match goal with
      | |- noReset (match ?x with _ => _ end) => destruct x
      end ].

Lemma noReset_subscribeToContract o : noReset (subscribeToContract env o).
Proof. unfold subscribeToContract. no_reset. Qed.
#[local] Hint Resolve noReset_subscribeToContract : noreset.

Lemma noReset_init : noReset (init env).
Proof. unfold init. no_reset. Qed.
#[local] Hint Resolve noReset_init : noreset.

Lemma noReset_stop : noReset (@stop Abi).
Proof. unfold stop, clearTimeout, emit, onStop. no_reset. Qed.
#[local] Hint Resolve noReset_stop : noreset.

Lemma noReset_scheduleNextPoll delay : noReset (scheduleNextPoll (Abi := Abi) delay).
Proof. unfold scheduleNextPoll. no_reset. Qed.
#[local] Hint Resolve noReset_scheduleNextPoll : noreset.

Lemma noReset_updateEach ids u : noReset (updateEach (Abi := Abi) ids u).
Proof. unfold updateEach, updateSubscription. no_reset. Qed.
#[local] Hint Resolve noReset_updateEach : noreset.

Lemma noReset_saveIfConfigured : noReset (saveIfConfigured env).
Proof. unfold saveIfConfigured, saveSubscriptionsToStore, emit. no_reset. Qed.
#[local] Hint Resolve noReset_saveIfConfigured : noreset.

Lemma noReset_pollFetch tb : noReset (pollFetch env tb).
Proof. unfold pollFetch, resolveTarget, fetchEvents. no_reset. Qed.
#[local] Hint Resolve noReset_pollFetch : noreset.

Lemma noReset_dispatch c n ev : noReset (dispatch env c n ev).
Proof. unfold dispatch, emit. no_reset. Qed.
#[local] Hint Resolve noReset_dispatch : noreset.

Lemma noReset_drain T q : noReset (drain env T q).
Proof.
  induction q as [|ev rest IH]; simpl; [apply noReset_ret|].
  unfold updateSubscription. no_reset; exact IH.
Qed.
#[local] Hint Resolve noReset_drain : noreset.

Lemma noReset_processEvents T : noReset (processEvents env T).
Proof. unfold processEvents. no_reset. Qed.
#[local] Hint Resolve noReset_processEvents : noreset.

Lemma noReset_pollFinish T ids r : noReset (pollFinish env T ids r).
Proof. unfold pollFinish, emit, detached. no_reset. Qed.
#[local] Hint Resolve noReset_pollFinish : noreset.

Lemma noReset_poll : noReset (poll env).
Proof.
  unfold poll, pollBody, pollCatch, onError, emit, detached. no_reset.
Qed.

Lemma noReset_watch : noReset (watch env).
Proof. unfold watch, initIfInitial, emit. no_reset. Qed.

Lemma noReset_indexToBlock target : noReset (indexToBlock env target).
Proof. unfold indexToBlock, initIfInitial, resolveTarget, emit. no_reset. Qed.

(** From [initial], one step ends in [initial] or [running]. *)
Lemma initial_not_stopped w w' :
  apiStep env w w' -> state w = Initial -> state w' <> Stopped.
Proof.
  intros Hstep Hst. destruct Hstep as [w|target w|w|w|o w].
  - destruct (initIfInitial env w) as [[[]|e] w1] eqn:Hinit;
      destruct (initIfInitial_frame w) as [m Hm]; rewrite Hinit in Hm; simpl in Hm.
    + rewrite (watch_starts w w1 Hinit) by now rewrite Hst. discriminate.
    + unfold watch. unfold_monad. rewrite Hinit. subst w1. simpl. congruence.
  - destruct (initIfInitial env w) as [[[]|e] w1] eqn:Hinit;
      destruct (initIfInitial_frame w) as [m Hm]; rewrite Hinit in Hm; simpl in Hm.
    + unfold indexToBlock. unfold bind at 1. rewrite Hinit.
      unfold bind at 1. unfold gets at 1. subst w1.
      change (state (set_subscriptions m w)) with (state w). rewrite Hst.
      cbn [isRunning].
      destruct (resolveTarget env target (set_subscriptions m w)) as [[T|e] w2] eqn:HT.
      * unfold bind. cbv beta. rewrite HT. unfold_monad. simpl. discriminate.
      * assert (Hw2 : w2 = set_subscriptions m w).
        { revert HT. unfold resolveTarget. destruct target; unfold_monad; congruence. }
        subst w2. unfold bind. cbv beta. rewrite HT. simpl. congruence.
    + unfold indexToBlock. unfold bind at 1. rewrite Hinit. subst w1. simpl. congruence.
  - rewrite stop_not_running by now rewrite Hst. simpl. congruence.
  - unfold poll. unfold_monad. rewrite Hst. simpl. congruence.
  - destruct (subscribeToContract_frame o w) as [m ->]. simpl. congruence.
Qed.

(** Every step is a transition of the lifecycle. *)
Lemma apiStep_transition w w' :
  apiStep env w w' -> transition (state w) (state w').
Proof.
  intros Hstep.
  assert (Hback : state w' = Initial -> state w = Initial).
  { destruct Hstep as [w|target w|w|w|o w].
    - destruct (watch env w) eqn:H. exact (noReset_watch _ _ _ H).
    - destruct (indexToBlock env target w) eqn:H. exact (noReset_indexToBlock _ _ _ _ H).
    - destruct (stop w) eqn:H. exact (noReset_stop _ _ _ H).
    - destruct (poll env w) eqn:H. exact (noReset_poll _ _ _ H).
    - destruct (subscribeToContract env o w) eqn:H.
      exact (noReset_subscribeToContract _ _ _ _ H). }
  pose proof (initial_not_stopped w w' Hstep) as Hinit.
  unfold transition.
  destruct (state w) eqn:Hw, (state w') eqn:Hw'; try exact I.
  - now apply Hinit.
  - specialize (Hback eq_refl). discriminate.
  - specialize (Hback eq_refl). discriminate.
Qed.

(** C4, as the code has it.  Every call of an entry point and every
    firing of [poll] is a transition of the lifecycle: [initial] is left
    only for [running] and never entered again, [running] and [stopped]
    lead to one another.  From [stopped], [watch()] and [indexToBlock()]
    enter [running] again, with a fresh timer at delay 0 and the
    [started] signal, exactly as from [initial]; only an indexer that is
    already running refuses: [watch()] leaves the state as it is and
    [indexToBlock()] throws. *)
Theorem running_entered_unless_running w :
  (state w = Stopped ->
   exists w',
     watch env w = (Ok tt, w')
     /\ state w' = Running (nextTimer w) Latest OfWatch
     /\ timers w' = <[nextTimer w := 0]> (timers w)
     /\ effects w' = effects w ++ [EmitStarted])
  /\ (state w = Stopped ->
      forall target T, targetResolves env target T ->
      exists w',
        indexToBlock env target w = (Ok tt, w')
        /\ state w' = Running (nextTimer w) (BlockNumber T) OfIndexToBlock
        /\ timers w' = <[nextTimer w := 0]> (timers w)
        /\ effects w' = effects w ++ [EmitStarted])
  /\ (isRunning (state w) = true ->
      state (snd (watch env w)) = state w
      /\ forall target,
           indexToBlock env target w
           = (Throw (Error "Indexer is already running"), w))
  /\ (forall w', apiStep env w w' -> transition (state w) (state w')).
Proof.
  split; [|split; [|split]].
  - intros Hst.
    assert (Hinit : initIfInitial env w = (Ok tt, w))
      by (apply initIfInitial_not_initial; congruence).
    eexists. split.
    + apply (watch_starts w w Hinit). now rewrite Hst.
    + simpl. repeat split.
  - intros Hst target T HT.
    assert (Hinit : initIfInitial env w = (Ok tt, w))
      by (apply initIfInitial_not_initial; congruence).
    eexists. split.
    + apply (indexToBlock_starts w w target T Hinit); [now rewrite Hst|exact HT].
    + simpl. repeat split.
  - intros Hrun. split.
    + now rewrite (watch_running w Hrun).
    + intros target. now apply indexToBlock_running.
  - intros w'. apply apiStep_transition.
Qed.

(** A successful [subscribeToContract] is one insertion under the
    checksummed address. *)
Lemma subscribeToContract_ok o w w' :
  subscribeToContract env o w = (Ok tt, w') ->
  exists address s,
    getAddress env (opt_address o) = Ok address
    /\ freshlyKeyed address s
    /\ w' = set_subscriptions (<[address := s]> (subscriptions w)) w.
Proof.
  unfold subscribeToContract. unfold_monad.
  destruct (getAddress env (opt_address o)) as [address|e]; simpl; [|discriminate].
  destruct (contracts env (opt_contract o)) as [contract|]; simpl; [|discriminate].
  intros [= <-]. eexists address, _. split; [reflexivity|]. split; [|reflexivity].
  repeat split.
Qed.

Lemma subscribeToContract_keeps o w r w' k s :
  subscribeToContract env o w = (r, w') ->
  subscriptions w !! k = Some s -> freshlyKeyed k s ->
  exists s', subscriptions w' !! k = Some s' /\ freshlyKeyed k s'.
Proof.
  intros Hsub Hk Hs. destruct r as [[]|e].
  - destruct (subscribeToContract_ok o w w' Hsub) as (address & s1 & _ & Hs1 & ->).
    simpl. destruct (decide (address = k)) as [->|Hne].
    + exists s1. now rewrite lookup_insert_eq.
    + exists s. now rewrite lookup_insert_ne.
  - destruct (subscribeToContract_frame o w) as [m Hm].
    revert Hsub Hm. unfold subscribeToContract. unfold_monad.
    destruct (getAddress env (opt_address o)); simpl.
    + destruct (contracts env (opt_contract o)); simpl; [discriminate|].
      intros [= _ <-] _. eauto.
    + intros [= _ <-] _. eauto.
Qed.

Lemma forEach_subscribe_keeps (l : list (Subscription Abi)) w r w' k s :
  forEach l (fun st => subscribeToContract env (storedOptions st)) w = (r, w') ->
  subscriptions w !! k = Some s -> freshlyKeyed k s ->
  exists s', subscriptions w' !! k = Some s' /\ freshlyKeyed k s'.
Proof.
  revert w s. induction l as [|st l IH]; intros w s; simpl.
  - unfold ret. intros [= _ <-]. eauto.
  - unfold bind.
    destruct (subscribeToContract env (storedOptions st) w) as [[[]|e] w1] eqn:Hst.
    + intros Hrest Hk Hs.
      destruct (subscribeToContract_keeps _ _ _ _ k s Hst Hk Hs) as (s1 & Hk1 & Hs1).
      exact (IH w1 s1 Hrest Hk1 Hs1).
    + intros [= _ <-] Hk Hs.
      exact (subscribeToContract_keeps _ _ _ _ k s Hst Hk Hs).
Qed.

Lemma forEach_subscribe_loaded (l : list (Subscription Abi)) w w' st :
  forEach l (fun st => subscribeToContract env (storedOptions st)) w = (Ok tt, w') ->
  In st l ->
  exists address s,
    getAddress env (sub_contractAddress st) = Ok address
    /\ subscriptions w' !! address = Some s
    /\ freshlyKeyed address s.
Proof.
  revert w. induction l as [|x l IH]; intros w; simpl; [intros _ []|].
  unfold bind.
  destruct (subscribeToContract env (storedOptions x) w) as [[[]|e] w1] eqn:Hx;
    [|discriminate].
  intros Hrest [->|Hin].
  - destruct (subscribeToContract_ok _ _ _ Hx) as (address & s1 & Haddr & Hs1 & ->).
    destruct (forEach_subscribe_keeps l _ _ _ address s1 Hrest) as (s' & Hk & Hs');
      [simpl; apply lookup_insert_eq|exact Hs1|].
    exists address, s'. auto.
  - exact (IH w1 Hrest Hin).
Qed.

(** C9. A successful [subscribeToContract] inserts, under the
    checksummed address and whatever the [id] and [fromLogIndex] options
    are, a subscription whose id is that address, whose [fetchedToBlock]
    is -1 and whose [indexedToLogIndex] is 0, and touches no other key.
    After a successful [init], every stored subscription is in the map
    under its checksummed address in that form, whatever log index it
    was stored with. *)
Theorem subscriptions_keyed_by_address_from_log_index_zero :
  (forall o w w',
     subscribeToContract env o w = (Ok tt, w') ->
     exists address s,
       getAddress env (opt_address o) = Ok address
       /\ subscriptions w' !! address = Some s
       /\ sub_id s = address
       /\ sub_fetchedToBlock s = -1
       /\ sub_indexedToLogIndex s = 0
       /\ forall k, k <> address -> subscriptions w' !! k = subscriptions w !! k)
  /\ (forall store stored w w' st,
        subscriptionStore env = Some store ->
        store_all store = Ok stored ->
        init env w = (Ok tt, w') ->
        In st stored ->
        exists address s,
          getAddress env (sub_contractAddress st) = Ok address
          /\ subscriptions w' !! address = Some s
          /\ sub_id s = address
          /\ sub_fetchedToBlock s = -1
          /\ sub_indexedToLogIndex s = 0).
Proof.
  split.
  - intros o w w' Hsub.
    destruct (subscribeToContract_ok o w w' Hsub) as (address & s & Haddr & Hs & ->).
    destruct Hs as (Hid & _ & Hfetched & Hlog).
    exists address, s. simpl. rewrite lookup_insert_eq.
    repeat split; try assumption.
    intros k Hne. now rewrite lookup_insert_ne.
  - intros store stored w w' st Hstore Hall Hinit Hin.
    unfold init in Hinit. rewrite Hstore in Hinit.
    unfold bind, liftR in Hinit. rewrite Hall in Hinit.
    destruct (forEach_subscribe_loaded stored w w' st Hinit Hin)
      as (address & s & Haddr & Hk & Hid & _ & Hfetched & Hlog).
    exists address, s. auto.
Qed.

(** ** The poll tick *)

Lemma updateEach_run ids u w :
  updateEach ids u w = (Ok tt, set_subscriptions (updateAll u ids (subscriptions w)) w).
Proof.
  unfold updateEach, updateAll. revert w.
  induction ids as [|id ids IH]; intros w; simpl.
  - unfold ret. now destruct w.
  - unfold bind, updateSubscription, modify. rewrite IH. reflexivity.
Qed.

Lemma updateAll_lookup_notin u ids (m : gmap string (Subscription Abi)) k :
  k ∉ ids -> updateAll u ids m !! k = m !! k.
Proof.
  unfold updateAll. revert m. induction ids as [|id ids IH]; intros m Hk; simpl.
  - reflexivity.
  - rewrite IH by (intros ?; apply Hk; now right).
    apply lookup_alter_ne. intros ->. apply Hk. now left.
Qed.


Lemma updateAll_dom u ids (m : gmap string (Subscription Abi)) :
  dom (updateAll u ids m) = dom m.
Proof.
  unfold updateAll. revert m. induction ids as [|id ids IH]; intros m; simpl.
  - reflexivity.
  - rewrite IH. apply dom_alter_L.
Qed.

Lemma eventsOnly_refl w : eventsOnly w w.
Proof.
  repeat split. exists []. split; [now rewrite app_nil_r|constructor].
Qed.

Lemma eventsOnly_trans w1 w2 w3 :
  eventsOnly w1 w2 -> eventsOnly w2 w3 -> eventsOnly w1 w3.
Proof.
  intros (Hs & Ht & Hn & evs & He & Hf) (Hs' & Ht' & Hn' & evs' & He' & Hf').
  repeat split; try congruence.
  exists (evs ++ evs'). split.
  - rewrite He', He. now rewrite app_assoc.
  - now apply Forall_app.
Qed.

Lemma eventsOnly_set_subscriptions m w : eventsOnly w (set_subscriptions m w).
Proof.
  repeat split. exists []. split; [simpl; now rewrite app_nil_r|constructor].
Qed.

Lemma eventsOnly_set_eventQueue q w : eventsOnly w (set_eventQueue q w).
Proof.
  repeat split. exists []. split; [simpl; now rewrite app_nil_r|constructor].
Qed.

Lemma dispatch_eventsOnly c n ev w r w' :
  dispatch env c n ev w = (r, w') -> eventsOnly w w'.
Proof.
  unfold dispatch. unfold bind at 1. unfold emit, modify.
  destruct (handler env c n ev) as [calls err].
  unfold bind.
  destruct (forEach_frame (subscribeToContract env) calls
              (add_effect (EmitEvent c n ev) w)
              (fun x w0 => subscribeToContract_frame x w0)) as [m Hm].
  destruct (forEach calls (subscribeToContract env) _) as [[[]|e] w1];
    simpl in Hm; subst w1.
  - assert (Hgoal : eventsOnly w (set_subscriptions m (add_effect (EmitEvent c n ev) w))).
    { repeat split. exists [EmitEvent c n ev]. split; [reflexivity|].
      constructor; [exact I|constructor]. }
    destruct err; unfold throw, ret; intros [= _ <-]; exact Hgoal.
  - intros [= _ <-]. repeat split. exists [EmitEvent c n ev].
    split; [reflexivity|]. constructor; [exact I|constructor].
Qed.

Lemma drain_eventsOnly T q w r w' :
  drain env T q w = (r, w') -> eventsOnly w w'.
Proof.
  revert w. induction q as [|ev rest IH]; intros w; simpl.
  - unfold ret. intros [= _ <-]. apply eventsOnly_refl.
  - destruct (T <? ev_blockNumber ev).
    { unfold ret. intros [= _ <-]. apply eventsOnly_refl. }
    unfold bind at 1. unfold modify at 1.
    unfold bind at 1. unfold gets at 1.
    change (subscriptions (set_eventQueue rest w)) with (subscriptions w).
    pose proof (eventsOnly_set_eventQueue rest w) as Hq.
    destruct (subscriptions w !! ev_subscriptionId ev) as [sub|].
    2:{ intros H. exact (eventsOnly_trans _ _ _ Hq (IH _ H)). }
    destruct (cursor_leb _ _).
    { intros H. exact (eventsOnly_trans _ _ _ Hq (IH _ H)). }
    destruct (decodeEvent env sub ev) as [eventName|].
    2:{ intros H. exact (eventsOnly_trans _ _ _ Hq (IH _ H)). }
    unfold bind at 1.
    destruct (dispatch env (sub_contractName sub) eventName ev (set_eventQueue rest w))
      as [[[]|e] w1] eqn:Hd.
    2:{ intros [= _ <-].
        exact (eventsOnly_trans _ _ _ Hq (dispatch_eventsOnly _ _ _ _ _ _ Hd)). }
    pose proof (eventsOnly_trans _ _ _ Hq (dispatch_eventsOnly _ _ _ _ _ _ Hd)) as H1.
    unfold bind at 1. unfold updateSubscription at 1. unfold modify at 1.
    unfold bind at 1. unfold gets at 1.
    match goal with
    | |- _ ?w2 = _ -> _ =>
        assert (H2 : eventsOnly w w2)
          by exact (eventsOnly_trans _ _ _ H1 (eventsOnly_set_subscriptions _ w1))
    end.
    destruct (bool_decide _).
    + intros H. exact (eventsOnly_trans _ _ _ H2 (IH _ H)).
    + unfold ret. intros [= _ <-]. exact H2.
Qed.

Lemma processEvents_eventsOnly T w r w' :
  processEvents env T w = (r, w') -> eventsOnly w w'.
Proof.
  unfold processEvents. unfold bind at 1. unfold gets at 1.
  unfold bind at 1.
  destruct (drain env T (eventQueue w) w) as [[hasNew|e] w1] eqn:Hd.
  - unfold_monad. intros [= _ <-]. exact (drain_eventsOnly _ _ _ _ _ Hd).
  - intros [= _ <-]. exact (drain_eventsOnly _ _ _ _ _ Hd).
Qed.


Lemma pollFetch_eventsOnly stateTarget w r w' :
  pollFetch env stateTarget w = (r, w') -> eventsOnly w w'.
Proof.
  unfold pollFetch. unfold bind at 1. unfold resolveTarget.
  assert (Hres : exists x, (match stateTarget with
                            | Latest => liftR (getLastBlockNumber env)
                            | BlockNumber n => ret n
                            end) w = (x, w)).
  { destruct stateTarget; unfold liftR, ret; eauto. }
  destruct Hres as [x ->]. destruct x as [T|e].
  2:{ intros [= _ <-]. apply eventsOnly_refl. }
  unfold bind at 1. unfold fetchEvents. unfold bind at 1. unfold gets at 1.
  destruct (getSubscriptionEvents env T (subscriptions w)) as [events err].
  unfold bind at 1. unfold modify at 1.
  destruct err as [e|].
  - unfold throw. intros [= _ <-]. apply eventsOnly_set_eventQueue.
  - unfold ret at 1. unfold bind at 1. unfold gets at 1.
    unfold bind at 1. rewrite updateEach_run. unfold ret. intros [= _ <-].
    eapply eventsOnly_trans; [apply eventsOnly_set_eventQueue|].
    apply eventsOnly_set_subscriptions.
Qed.

Lemma settles_refl w : settles w w.
Proof.
  repeat split. exists []. split; [now rewrite app_nil_r|constructor].
Qed.

Lemma settles_trans w1 w2 w3 : settles w1 w2 -> settles w2 w3 -> settles w1 w3.
Proof.
  intros (Hs & Hq & t & He & Hf) (Hs' & Hq' & t' & He' & Hf').
  repeat split; try congruence.
  exists (t ++ t'). split.
  - rewrite He', He. now rewrite app_assoc.
  - now apply Forall_app.
Qed.

Lemma settles_add_effect e w :
  ~ isProgress e -> ~ isEventEffect e -> settles w (add_effect e w).
Proof.
  intros H1 H2. repeat split. exists [e]. split; [reflexivity|].
  constructor; [now split|constructor].
Qed.

Lemma settles_control st t n w : settles w (set_state st (set_timers t n w)).
Proof.
  repeat split. exists []. split; [simpl; now rewrite app_nil_r|constructor].
Qed.

Lemma stop_settles w r w' : stop w = (r, w') -> settles w w'.
Proof.
  destruct (state w) as [| |h tb cb] eqn:Hst.
  - rewrite stop_not_running by now rewrite Hst. intros [= _ <-]. apply settles_refl.
  - rewrite stop_not_running by now rewrite Hst. intros [= _ <-]. apply settles_refl.
  - rewrite (stop_running w h tb cb Hst). intros [= _ <-].
    repeat split. simpl. exists (EmitStopped :: onStopEffects cb).
    split; [now rewrite <- app_assoc|].
    constructor; [split; intros []|].
    destruct cb; simpl; [constructor|].
    constructor; [split; intros []|constructor].
Qed.

Lemma detached_stop_settles w :
  exists w', detached (@stop Abi) w = (Ok tt, w') /\ settles w w'.
Proof.
  unfold detached, try_catch.
  destruct (stop w) as [[[]|e] w'] eqn:Hs.
  - exists w'. split; [reflexivity|]. exact (stop_settles _ _ _ Hs).
  - exists w'. split; [reflexivity|]. exact (stop_settles _ _ _ Hs).
Qed.

Lemma onError_settles cb err w :
  exists w', onError cb err w = (Ok tt, w') /\ settles w w'.
Proof.
  destruct cb; simpl.
  - eexists. split; [reflexivity|]. apply settles_add_effect; intros [].
  - unfold bind at 1. unfold emit, modify.
    destruct (detached_stop_settles (add_effect (Rejected err) w)) as (w' & Hd & Hs).
    exists w'. split; [exact Hd|].
    eapply settles_trans; [|exact Hs]. apply settles_add_effect; intros [].
Qed.

Lemma scheduleNextPoll_settles delay w :
  exists w', scheduleNextPoll delay w = (Ok tt, w') /\ settles w w'.
Proof.
  unfold scheduleNextPoll. unfold_monad. destruct (state w); simpl.
  - eexists. split; [reflexivity|apply settles_refl].
  - eexists. split; [reflexivity|apply settles_refl].
  - eexists. split; [reflexivity|]. apply settles_control.
Qed.

Lemma saveIfConfigured_run w :
  saveIfConfigured env w =
    match subscriptionStore env with
    | None => (Ok tt, w)
    | Some store =>
        match store_save store (subscriptions w) with
        | Some err => (Throw err, w)
        | None => (Ok tt, add_effect (Saved (subscriptions w)) w)
        end
    end.
Proof.
  unfold saveIfConfigured. destruct (subscriptionStore env) as [store|]; [|reflexivity].
  unfold saveSubscriptionsToStore. unfold_monad.
  now destruct (store_save store (subscriptions w)).
Qed.

Lemma saveIfConfigured_settles w r w' :
  saveIfConfigured env w = (r, w') ->
  settles w w' /\ state w' = state w.
Proof.
  rewrite saveIfConfigured_run.
  destruct (subscriptionStore env) as [store|].
  - destruct (store_save store (subscriptions w)); intros [= _ <-].
    + split; [apply settles_refl|reflexivity].
    + split; [|reflexivity]. apply settles_add_effect; intros [].
  - intros [= _ <-]. split; [apply settles_refl|reflexivity].
Qed.

Lemma pollCatch_running err w h tb cb :
  state w = Running h tb cb ->
  exists w', pollCatch err w = (Ok true, w') /\ settles w w'.
Proof.
  intros Hst. unfold pollCatch. unfold bind at 1. unfold gets at 1. rewrite Hst.
  unfold bind. destruct (onError_settles cb err w) as (w' & -> & Hs).
  exists w'. split; [reflexivity|exact Hs].
Qed.

(** The tick of a running indexer, by its three phases. *)
Lemma poll_running w h tb cb :
  state w = Running h tb cb ->
  poll env w =
    bind (try_catch (pollBody env tb) (pollCatch (Abi := Abi)))
      (fun continue : bool =>
         if continue then scheduleNextPoll (eventPollDelayMs env) else ret tt) w.
Proof.
  intros Hst. unfold poll. unfold bind at 1. unfold gets at 1. now rewrite Hst.
Qed.

Lemma pollBody_phases tb w T ids w1 r w2 :
  pollFetch env tb w = (Ok (T, ids), w1) ->
  processEvents env T w1 = (Ok r, w2) ->
  pollBody env tb w = pollFinish env T ids r w2.
Proof.
  intros Hf Hp. unfold pollBody. unfold bind at 1. rewrite Hf. simpl.
  unfold bind at 1. now rewrite Hp.
Qed.

Lemma phases_keep_state tb w T ids w1 r w2 :
  pollFetch env tb w = (Ok (T, ids), w1) ->
  processEvents env T w1 = (Ok r, w2) ->
  eventsOnly w w2.
Proof.
  intros Hf Hp. eapply eventsOnly_trans.
  - exact (pollFetch_eventsOnly _ _ _ _ Hf).
  - exact (processEvents_eventsOnly _ _ _ _ Hp).
Qed.

Lemma pollFinish_new T ids r w h tb cb :
  hasNewSubscriptions r = true ->
  state w = Running h tb cb ->
  let marked :=
    updateAll (indexedTo (indexedToBlock r) (indexedToLogIndex r)) ids (subscriptions w) in
  (forall store, subscriptionStore env = Some store -> store_save store marked = None) ->
  pollFinish env T ids r w =
    (Ok false,
     {| state := Running (nextTimer w) tb cb;
        subscriptions := marked;
        eventQueue := eventQueue w;
        timers := <[nextTimer w := 0]> (timers w);
        nextTimer := S (nextTimer w);
        effects := effects w ++ savedEffects env marked |}).
Proof.
  intros Hnew Hst marked Hsave. unfold pollFinish.
  unfold bind at 1. rewrite updateEach_run. rewrite Hnew.
  unfold bind at 1. rewrite saveIfConfigured_run. unfold savedEffects.
  destruct (subscriptionStore env) as [store|] eqn:Hstore.
  - simpl subscriptions. fold marked. rewrite (Hsave store eq_refl).
    unfold scheduleNextPoll. unfold_monad. simpl. rewrite Hst. reflexivity.
  - unfold scheduleNextPoll. unfold_monad. simpl. rewrite Hst.
    now rewrite app_nil_r.
Qed.

Lemma pollFinish_new_any T ids r w h tb cb res w' :
  hasNewSubscriptions r = true ->
  state w = Running h tb cb ->
  pollFinish env T ids r w = (res, w') ->
  settles
    (set_subscriptions
       (updateAll (indexedTo (indexedToBlock r) (indexedToLogIndex r)) ids
          (subscriptions w)) w) w'
  /\ match res with
     | Throw _ => state w' = Running h tb cb
     | Ok continue => continue = false
     end.
Proof.
  intros Hnew Hst. unfold pollFinish.
  unfold bind at 1. rewrite updateEach_run. rewrite Hnew.
  set (wa := set_subscriptions _ w).
  unfold bind at 1.
  destruct (saveIfConfigured env wa) as [[[]|e] wS] eqn:Hsave;
    destruct (saveIfConfigured_settles _ _ _ Hsave) as [HsetS HstS].
  - unfold bind at 1.
    destruct (scheduleNextPoll_settles 0 wS) as (wN & -> & HsetN).
    unfold ret. intros [= <- <-]. split; [|reflexivity].
    exact (settles_trans _ _ _ HsetS HsetN).
  - intros [= <- <-]. split; [exact HsetS|]. now rewrite HstS.
Qed.

(** A tick whose event processor reports new subscriptions: what holds
    whatever the save does, and what holds when it does not fail. *)
Lemma poll_replans w h tb cb T ids w1 r w2 :
  state w = Running h tb cb ->
  pollFetch env tb w = (Ok (T, ids), w1) ->
  processEvents env T w1 = (Ok r, w2) ->
  hasNewSubscriptions r = true ->
  let marked :=
    updateAll (indexedTo (indexedToBlock r) (indexedToLogIndex r)) ids (subscriptions w2) in
  exists w',
    poll env w = (Ok tt, w')
    /\ subscriptions w' = marked
    /\ (exists added,
          effects w' = effects w ++ added
          /\ Forall (fun e => ~ isProgress e) added)
    /\ ((forall store, subscriptionStore env = Some store -> store_save store marked = None) ->
        state w' = Running (nextTimer w) tb cb
        /\ timers w' = <[nextTimer w := 0]> (timers w)
        /\ effects w' = effects w2 ++ savedEffects env marked
        /\ exists evs,
             effects w2 = effects w ++ evs /\ Forall isEventEffect evs).
Proof.
  intros Hst Hf Hp Hnew marked.
  destruct (phases_keep_state _ _ _ _ _ _ _ Hf Hp) as (Hs2 & Ht2 & Hn2 & evs & He2 & Hevs).
  assert (Hst2 : state w2 = Running h tb cb) by congruence.
  assert (Hquiet : Forall (fun e : Effect Abi => ~ isProgress e) evs).
  { eapply Forall_impl; [exact Hevs|]. intros [] He; try destruct He; intros []. }
  assert (Hfin : forall w', settles (set_subscriptions marked w2) w' ->
            subscriptions w' = marked
            /\ exists added,
                 effects w' = effects w ++ added
                 /\ Forall (fun e => ~ isProgress e) added).
  { intros w' (Hs & _ & tail & He & Htail). split; [exact Hs|].
    exists (evs ++ tail). split.
    - rewrite He. simpl. rewrite He2. now rewrite <- app_assoc.
    - apply Forall_app. split; [exact Hquiet|].
      eapply Forall_impl; [exact Htail|]. now intros e [H _]. }
  rewrite (poll_running w h tb cb Hst). unfold bind, try_catch.
  rewrite (pollBody_phases _ _ _ _ _ _ _ Hf Hp).
  destruct (pollFinish env T ids r w2) as [res wF] eqn:HF.
  destruct (pollFinish_new_any _ _ _ _ _ _ _ _ _ Hnew Hst2 HF) as [Hset Hres].
  destruct res as [continue|e].
  - subst continue. exists wF. split; [reflexivity|].
    destruct (Hfin wF Hset) as [Hsubs Hadded].
    split; [exact Hsubs|]. split; [exact Hadded|].
    intros Hsave.
    rewrite (pollFinish_new T ids r w2 h tb cb Hnew Hst2 Hsave) in HF.
    injection HF as <-. simpl. rewrite Hn2, Ht2. repeat split. eauto.
  - destruct (pollCatch_running e wF h tb cb Hres) as (wC & -> & HsetC).
    destruct (scheduleNextPoll_settles (eventPollDelayMs env) wC) as (w' & -> & HsetN).
    exists w'. split; [reflexivity|].
    destruct (Hfin w' (settles_trans _ _ _ Hset (settles_trans _ _ _ HsetC HsetN)))
      as [Hsubs Hadded].
    split; [exact Hsubs|]. split; [exact Hadded|].
    intros Hsave.
    rewrite (pollFinish_new T ids r w2 h tb cb Hnew Hst2 Hsave) in HF.
    discriminate.
Qed.

(** The map at the end of a tick that ran through step 7. *)
Lemma pollFinish_done T ids r w h tb cb res w' :
  hasNewSubscriptions r = false ->
  state w = Running h tb cb ->
  pollFinish env T ids r w = (res, w') ->
  subscriptions w' =
    updateAll (indexedTo T 0) ids
      (updateAll (indexedTo (indexedToBlock r) (indexedToLogIndex r)) ids (subscriptions w))
  /\ eventQueue w' = eventQueue w
  /\ (exists tail,
        effects w' =
          effects w ++ EmitProgress (indexedToBlock r) T (length (eventQueue w)) :: tail
        /\ Forall (fun e => ~ isProgress e /\ ~ isEventEffect e) tail)
  /\ match res with
     | Throw _ => state w' = Running h tb cb
     | Ok _ => True
     end.
Proof.
  intros Hnew Hst. unfold pollFinish.
  unfold bind at 1. rewrite updateEach_run. rewrite Hnew.
  unfold bind at 1. rewrite updateEach_run.
  unfold bind at 1. unfold gets at 1.
  unfold bind at 1. unfold emit, modify.
  set (M1 := updateAll (indexedTo (indexedToBlock r) (indexedToLogIndex r)) ids
               (subscriptions w)).
  simpl subscriptions. simpl eventQueue.
  set (M2 := updateAll (indexedTo T 0) ids M1).
  set (wE := add_effect _ _).
  assert (HE : subscriptions wE = M2 /\ eventQueue wE = eventQueue w
               /\ state wE = Running h tb cb
               /\ effects wE = effects w
                    ++ [EmitProgress (indexedToBlock r) T (length (eventQueue w))]).
  { subst wE. simpl. auto. }
  clearbody wE. destruct HE as (HEs & HEq & HEst & HEe).
  assert (Hfin : forall wS, settles wE wS ->
            subscriptions wS = M2 /\ eventQueue wS = eventQueue w
            /\ exists tail,
                 effects wS =
                   effects w ++ EmitProgress (indexedToBlock r) T (length (eventQueue w)) :: tail
                 /\ Forall (fun e => ~ isProgress e /\ ~ isEventEffect e) tail).
  { intros wS (Hs & Hq & tail & He & Hf). repeat split; try congruence.
    exists tail. split; [|exact Hf]. rewrite He, HEe. now rewrite <- app_assoc. }
  unfold bind at 1.
  destruct (saveIfConfigured env wE) as [[[]|e] wS] eqn:Hsave;
    destruct (saveIfConfigured_settles _ _ _ Hsave) as [HsetS HstS].
  2:{ intros [= <- <-]. destruct (Hfin wS HsetS) as (? & ? & ?).
      repeat split; try assumption. congruence. }
  unfold bind at 1. unfold gets at 1. rewrite HstS, HEst.
  assert (Hret : forall b, ret b wS = (res, w') ->
            subscriptions w' = M2 /\ eventQueue w' = eventQueue w
            /\ (exists tail,
                  effects w' =
                    effects w ++ EmitProgress (indexedToBlock r) T (length (eventQueue w)) :: tail
                  /\ Forall (fun e => ~ isProgress e /\ ~ isEventEffect e) tail)
            /\ match res with Throw _ => state w' = Running h tb cb | Ok _ => True end).
  { intros b. unfold ret. intros [= <- <-]. destruct (Hfin wS HsetS) as (? & ? & ?).
    repeat split; assumption. }
  destruct tb as [|n]; [apply Hret|].
  destruct (T =? n); [|apply Hret].
  unfold bind at 1. destruct (detached_stop_settles wS) as (wD & -> & HsetD).
  unfold ret. intros [= <- <-].
  destruct (Hfin wD (settles_trans _ _ _ HsetS HsetD)) as (? & ? & ?).
  repeat split; assumption.
Qed.

Lemma poll_done w h tb cb T ids w1 r w2 :
  state w = Running h tb cb ->
  pollFetch env tb w = (Ok (T, ids), w1) ->
  processEvents env T w1 = (Ok r, w2) ->
  hasNewSubscriptions r = false ->
  exists w',
    poll env w = (Ok tt, w')
    /\ subscriptions w' =
         updateAll (indexedTo T 0) ids
           (updateAll (indexedTo (indexedToBlock r) (indexedToLogIndex r)) ids
              (subscriptions w2))
    /\ eventQueue w' = eventQueue w2
    /\ exists tail,
         effects w' =
           effects w2 ++ EmitProgress (indexedToBlock r) T (length (eventQueue w2)) :: tail
         /\ Forall (fun e => ~ isProgress e /\ ~ isEventEffect e) tail.
Proof.
  intros Hst Hf Hp Hnew.
  destruct (phases_keep_state _ _ _ _ _ _ _ Hf Hp) as (Hs2 & _).
  assert (Hst2 : state w2 = Running h tb cb) by congruence.
  rewrite (poll_running w h tb cb Hst). unfold bind, try_catch.
  rewrite (pollBody_phases _ _ _ _ _ _ _ Hf Hp).
  destruct (pollFinish env T ids r w2) as [res wF] eqn:HF.
  destruct (pollFinish_done _ _ _ _ _ _ _ _ _ Hnew Hst2 HF)
    as (HFs & HFq & (tail & HFe & HFt) & HFst).
  assert (Hfin : forall w', settles wF w' ->
            subscriptions w' =
              updateAll (indexedTo T 0) ids
                (updateAll (indexedTo (indexedToBlock r) (indexedToLogIndex r)) ids
                   (subscriptions w2))
            /\ eventQueue w' = eventQueue w2
            /\ exists tail,
                 effects w' =
                   effects w2 ++ EmitProgress (indexedToBlock r) T (length (eventQueue w2)) :: tail
                 /\ Forall (fun e => ~ isProgress e /\ ~ isEventEffect e) tail).
  { intros w' (Hs & Hq & t & He & Hft). repeat split; try congruence.
    exists (tail ++ t). split.
    - rewrite He, HFe. rewrite <- app_assoc. reflexivity.
    - now apply Forall_app. }
  destruct res as [[|]|e].
  - destruct (scheduleNextPoll_settles (eventPollDelayMs env) wF) as (w' & -> & Hset).
    exists w'. split; [reflexivity|]. now apply Hfin.
  - exists wF. split; [reflexivity|]. apply Hfin, settles_refl.
  - destruct (pollCatch_running e wF h tb cb HFst) as (wC & -> & HsetC).
    destruct (scheduleNextPoll_settles (eventPollDelayMs env) wC) as (w' & -> & Hset).
    exists w'. split; [reflexivity|]. apply Hfin.
    exact (settles_trans _ _ _ HsetC Hset).
Qed.

(** ** The drain when the listeners neither subscribe nor fail *)






Lemma snapshot_elem (m : gmap string (Subscription Abi)) id :
  id ∈ (map_to_list m).*1 <-> is_Some (m !! id).
Proof.
  rewrite list_elem_of_fmap. split.
  - intros ([k s] & -> & Hin). apply elem_of_map_to_list in Hin. simpl. eauto.
  - intros [s Hs]. exists (id, s). split; [reflexivity|].
    now apply elem_of_map_to_list.
Qed.


End EngineFacts.

Section ReaderFacts.
Context {Abi Value : Type} (renv : ReadEnv Abi Value).

(** C5, as the code has it.  With the contract known and the call data
    encoded, the key of the cache entry is the chain id of the
    configuration with the address, the block number and the function
    name of the call and the encoded call data.  On a cache hit
    [readContract] makes the lookup and no other call and returns the
    decoded cached bytes.  On a miss it calls the RPC client with the
    same function name, data, address and block number and inserts the
    answer under the same key; it returns the decoded answer when the
    insert succeeds and throws the error of the insert when it fails.
    When the RPC call fails the error is thrown and no insert is made,
    with or without a cache. *)
Theorem readContract_cache_through args contract data log :
  rd_contracts renv (ra_contract args) = Some contract ->
  encodeFunctionData renv contract (ra_functionName args) (ra_args args) = Ok data ->
  let key :=
    {| key_chainId := rd_chainId renv;
       key_address := ra_address args;
       key_blockNumber := ra_blockNumber args;
       key_functionName := ra_functionName args;
       key_data := data |} in
  let call :=
    RpcRead (ra_functionName args) data (ra_address args) (ra_blockNumber args) in
  let answer :=
    rd_rpcReadContract renv (ra_functionName args) data (ra_address args)
      (ra_blockNumber args) in
  let decoded := decodeFunctionResult renv contract (ra_functionName args) in
  (forall cache h,
     rd_cache renv = Some cache ->
     getContractRead cache key = Ok (Some h) ->
     readContract renv args log = (decoded h, log ++ [CacheGet key]))
  /\ (forall cache r,
        rd_cache renv = Some cache ->
        getContractRead cache key = Ok None ->
        answer = Ok r ->
        insertContractRead cache key r = Ok tt ->
        readContract renv args log
        = (decoded r, log ++ [CacheGet key; call; CacheInsert key r]))
  /\ (forall cache r e,
        rd_cache renv = Some cache ->
        getContractRead cache key = Ok None ->
        answer = Ok r ->
        insertContractRead cache key r = Throw e ->
        readContract renv args log
        = (Throw e, log ++ [CacheGet key; call; CacheInsert key r]))
  /\ (forall cache e,
        rd_cache renv = Some cache ->
        getContractRead cache key = Ok None ->
        answer = Throw e ->
        readContract renv args log = (Throw e, log ++ [CacheGet key; call]))
  /\ (forall r,
        rd_cache renv = None ->
        answer = Ok r ->
        readContract renv args log = (decoded r, log ++ [call]))
  /\ (forall e,
        rd_cache renv = None ->
        answer = Throw e ->
        readContract renv args log = (Throw e, log ++ [call])).
Proof.
  intros Hc Hd key call answer decoded.
  assert (Hkey : readKey renv args data = key) by reflexivity.
  repeat split.
  - intros cache h Hcache Hget.
    unfold readContract. rewrite Hc. unfold bind at 1. unfold liftR at 1. rewrite Hd.
    unfold lookupCache. rewrite Hcache. unfold_monad. rewrite Hkey, Hget.
    reflexivity.
  - intros cache r Hcache Hget Hrpc Hins.
    unfold readContract. rewrite Hc. unfold bind at 1. unfold liftR at 1. rewrite Hd.
    unfold lookupCache, fetchAndStore. rewrite Hcache. unfold called. unfold_monad.
    rewrite Hkey, Hget. fold answer. rewrite Hrpc, Hins.
    rewrite <- !app_assoc. reflexivity.
  - intros cache r e Hcache Hget Hrpc Hins.
    unfold readContract. rewrite Hc. unfold bind at 1. unfold liftR at 1. rewrite Hd.
    unfold lookupCache, fetchAndStore. rewrite Hcache. unfold called. unfold_monad.
    rewrite Hkey, Hget. fold answer. rewrite Hrpc, Hins.
    rewrite <- !app_assoc. reflexivity.
  - intros cache e Hcache Hget Hrpc.
    unfold readContract. rewrite Hc. unfold bind at 1. unfold liftR at 1. rewrite Hd.
    unfold lookupCache, fetchAndStore. rewrite Hcache. unfold called. unfold_monad.
    rewrite Hkey, Hget. fold answer. rewrite Hrpc. rewrite <- !app_assoc. reflexivity.
  - intros r Hcache Hrpc.
    unfold readContract. rewrite Hc. unfold bind at 1. unfold liftR at 1. rewrite Hd.
    unfold lookupCache, fetchAndStore. rewrite Hcache. unfold called. unfold_monad.
    fold answer. rewrite Hrpc. reflexivity.
  - intros e Hcache Hrpc.
    unfold readContract. rewrite Hc. unfold bind at 1. unfold liftR at 1. rewrite Hd.
    unfold lookupCache, fetchAndStore. rewrite Hcache. unfold called. unfold_monad.
    fold answer. rewrite Hrpc. reflexivity.
Qed.
End ReaderFacts.

(** [includes] is containment as a substring. *)
Lemma includes_unfold needle hay :
  includes needle hay
  = (String.prefix needle hay
     || match hay with
        | EmptyString => false
        | String _ hay' => includes needle hay'
        end).
Proof. now destruct hay. Qed.

Lemma prefix_append needle post : String.prefix needle (needle +:+ post) = true.
Proof.
  induction needle as [|a needle IH]; simpl.
  - now destruct post.
  - destruct (Ascii.ascii_dec a a); [exact IH|congruence].
Qed.

Lemma prefix_split needle hay :
  String.prefix needle hay = true -> exists post, hay = needle +:+ post.
Proof.
  revert hay. induction needle as [|a needle IH]; intros hay; simpl.
  - intros _. now exists hay.
  - destruct hay as [|b hay]; simpl; [discriminate|]. destruct (Ascii.ascii_dec a b) as [->|]; [|discriminate].
    intros H. destruct (IH hay H) as [post ->]. now exists post.
Qed.

Lemma includes_iff needle hay :
  includes needle hay = true <-> exists pre post, hay = pre +:+ needle +:+ post.
Proof.
  split.
  - induction hay as [|a hay IH]; rewrite includes_unfold; intros H;
      apply orb_true_iff in H as [H|H].
    + destruct (prefix_split _ _ H) as [post ->]. now exists "", post.
    + discriminate.
    + destruct (prefix_split _ _ H) as [post ->]. now exists "", post.
    + destruct (IH H) as (pre & post & ->). now exists (String a pre), post.
  - intros (pre & post & ->). induction pre as [|a pre IH]; rewrite includes_unfold.
    + change ("" +:+ needle +:+ post) with (needle +:+ post).
      now rewrite prefix_append.
    + change (String a pre +:+ needle +:+ post)
        with (String a (pre +:+ needle +:+ post)).
      cbv beta iota. rewrite IH. apply orb_true_r.
Qed.

Section TransportFacts.
Context (fetch : LogsRequest -> nat -> Result HttpResponse).

Lemma rpcCall_run method opts w :
  rpcCall fetch method opts w
  = (fst (rpcCall fetch method opts {| requests := requests w; delays := [] |}), sent w).
Proof.
  unfold rpcCall, sent. unfold_monad. simpl.
  destruct (fetch opts (requests w)) as [response|e]; [|reflexivity].
  destruct (resp_status response =? 200); simpl; [|reflexivity].
  destruct (resp_contentType response) as [contentType|]; [|reflexivity].
  destruct (includes "application/json" contentType); [|reflexivity].
  destruct (resp_json response) as [[error|result]|e]; reflexivity.
Qed.

Lemma getLogsAttempt_run opts w :
  getLogsAttempt fetch opts w = (attemptOutcome fetch opts (requests w), sent w).
Proof.
  unfold attemptOutcome, getLogsAttempt, try_catch.
  rewrite (rpcCall_run _ _ w).
  rewrite (rpcCall_run _ _ {| requests := requests w; delays := [] |}). simpl.
  destruct (rpcCall fetch "eth_getLogs" opts _) as [[logs|e] w0]; simpl.
  - reflexivity.
  - unfold throw. now destruct (isRangeTooWide e).
Qed.

Lemma retry_after_failures opts sr delay k : forall n w,
  (k <= n)%nat ->
  (forall i, (i < k)%nat ->
     exists e, attemptOutcome fetch opts (requests w + i) = Throw e /\ sr e = true) ->
  retry (getLogsAttempt fetch opts) sr delay n w
  = retry (getLogsAttempt fetch opts) sr delay (n - k) (retried delay k w).
Proof.
  induction k as [|k IH]; intros n w Hle Hfail.
  - unfold retried. simpl. rewrite Nat.sub_0_r, Nat.add_0_r, app_nil_r.
    now destruct w.
  - destruct n as [|n]; [lia|].
    destruct (Hfail 0%nat ltac:(lia)) as (e & He & Hsr).
    rewrite Nat.add_0_r in He.
    simpl retry at 1. unfold try_catch at 1.
    rewrite getLogsAttempt_run, He, Hsr. unfold bind, modify.
    rewrite IH.
    + simpl. f_equal. unfold retried, sent. simpl. f_equal.
      * lia.
      * rewrite <- app_assoc. reflexivity.
    + lia.
    + intros i Hi. destruct (Hfail (S i) ltac:(lia)) as (e' & He' & Hsr').
      exists e'. split; [|exact Hsr']. simpl.
      now replace (S (requests w + i)) with (requests w + S i)%nat by lia.
Qed.

Lemma retry_succeeds opts sr delay n w logs :
  attemptOutcome fetch opts (requests w) = Ok logs ->
  retry (getLogsAttempt fetch opts) sr delay n w = (Ok logs, sent w).
Proof.
  intros Hout. destruct n; simpl; unfold try_catch;
    now rewrite getLogsAttempt_run, Hout.
Qed.

Lemma retry_refused opts sr delay n w e :
  attemptOutcome fetch opts (requests w) = Throw e ->
  sr e = false ->
  retry (getLogsAttempt fetch opts) sr delay n w = (Throw e, sent w).
Proof.
  intros Hout Hsr. destruct n; simpl; unfold try_catch;
    now rewrite getLogsAttempt_run, Hout, Hsr.
Qed.

Lemma retry_exhausted opts sr delay w e :
  attemptOutcome fetch opts (requests w) = Throw e ->
  retry (getLogsAttempt fetch opts) sr delay 0 w = (Throw e, sent w).
Proof.
  intros Hout. simpl. unfold try_catch. rewrite getLogsAttempt_run, Hout.
  now destruct (sr e).
Qed.

(** What an attempt ends with, by the response the server gave. *)
Lemma attemptOutcome_of_response opts n response :
  fetch opts n = Ok response ->
  (forall e, resp_json response = Throw e -> exists msg, e = Error msg) ->
  (forall cause,
     attemptOutcome fetch opts n = Throw (JsonRpcRangeTooWideError cause) <->
     resp_status response = 200
     /\ exists contentType body m,
          resp_contentType response = Some contentType
          /\ includes "application/json" contentType = true
          /\ resp_json response = Ok (ReplyError body)
          /\ message body = Some m
          /\ (includes "query returned more than" m = true
              \/ includes "Log response size exceeded" m = true)
          /\ cause = JsonRpcError "eth_getLogs" (Some body))
  /\ (resp_status response <> 200 ->
      attemptOutcome fetch opts n = Throw (JsonRpcError "eth_getLogs" None)
      /\ shouldRetry (JsonRpcError "eth_getLogs" None) = true).
Proof.
  intros Hfetch Hparse.
  unfold attemptOutcome, getLogsAttempt, rpcCall. unfold_monad. simpl.
  rewrite Hfetch.
  destruct (resp_status response =? 200) eqn:Hstatus; simpl.
  2:{ apply Z.eqb_neq in Hstatus. split.
      - intros cause. split; [discriminate|]. intros (? & _). contradiction.
      - intros _. split; reflexivity. }
  apply Z.eqb_eq in Hstatus. split; [|intros ?; contradiction].
  intros cause.
  destruct (resp_contentType response) as [contentType|] eqn:Hct.
  2:{ simpl. split; [discriminate|]. intros (_ & ? & ? & ? & [=] & _). }
  destruct (includes "application/json" contentType) eqn:Hjson.
  2:{ simpl. split; [discriminate|].
      intros (_ & ? & ? & ? & [= <-] & ? & _). congruence. }
  destruct (resp_json response) as [[body|result]|e] eqn:Hreply; simpl.
  - destruct (message body) as [m|] eqn:Hm.
    + destruct (includes "query returned more than" m
                || includes "Log response size exceeded" m) eqn:Hphrase.
      * split.
        -- intros [= <-]. split; [assumption|].
           exists contentType, body, m. apply orb_true_iff in Hphrase.
           repeat split; assumption.
        -- intros (_ & ? & ? & ? & _ & _ & [= <-] & _ & _ & ->). reflexivity.
      * split; [discriminate|].
        intros (_ & ? & ? & m' & _ & _ & [= <-] & Hm' & Hor & _).
        rewrite Hm in Hm'. injection Hm' as <-.
        apply orb_true_iff in Hor. congruence.
    + split; [discriminate|].
      intros (_ & ? & ? & ? & _ & _ & [= <-] & ? & _). congruence.
  - split; [discriminate|]. intros (_ & ? & ? & ? & _ & _ & [=] & _).
  - destruct (Hparse e eq_refl) as (msg & ->). simpl.
    split; [discriminate|]. intros (_ & ? & ? & ? & _ & _ & [=] & _).
Qed.

(** Every failure but the distinguished one is retried. *)
Lemma shouldRetry_others e :
  (forall cause, e <> JsonRpcRangeTooWideError cause) -> shouldRetry e = true.
Proof.
  intros Hother. destruct e as [msg|method error|cause]; try reflexivity.
  destruct (Hother cause eq_refl).
Qed.

(** C6.  An HTTP 200 JSON reply whose [error] message contains "query
    returned more than" or "Log response size exceeded" makes the
    attempt throw [JsonRpcRangeTooWideError] around the provider error,
    and an answer of the server whose body parses makes it throw that
    error in no other case.  After [k <= 5] attempts that failed with
    any other error whatever, each followed by a delay of 1000 ms: a
    successful attempt returns its logs; an attempt that throws
    [JsonRpcRangeTooWideError] makes [getLogs] throw it at once, with no
    further request and no further delay; and the failure of the sixth
    attempt is thrown to the caller. *)
Theorem getLogs_retries_five_times_except_range_too_wide opts w :
  (forall n response contentType body m,
     fetch opts n = Ok response ->
     resp_status response = 200 ->
     resp_contentType response = Some contentType ->
     includes "application/json" contentType = true ->
     resp_json response = Ok (ReplyError body) ->
     message body = Some m ->
     includes "query returned more than" m = true
     \/ includes "Log response size exceeded" m = true ->
     attemptOutcome fetch opts n
     = Throw (JsonRpcRangeTooWideError (JsonRpcError "eth_getLogs" (Some body))))
  /\ (forall n response cause,
        fetch opts n = Ok response ->
        (forall e, resp_json response = Throw e -> exists msg, e = Error msg) ->
        attemptOutcome fetch opts n = Throw (JsonRpcRangeTooWideError cause) ->
        resp_status response = 200
        /\ exists contentType body m,
             resp_contentType response = Some contentType
             /\ includes "application/json" contentType = true
             /\ resp_json response = Ok (ReplyError body)
             /\ message body = Some m
             /\ (includes "query returned more than" m = true
                 \/ includes "Log response size exceeded" m = true)
             /\ cause = JsonRpcError "eth_getLogs" (Some body))
  /\ (forall k,
        (k <= 5)%nat ->
        (forall i, (i < k)%nat ->
           exists e,
             attemptOutcome fetch opts (requests w + i) = Throw e
             /\ forall cause, e <> JsonRpcRangeTooWideError cause) ->
        (forall logs,
           attemptOutcome fetch opts (requests w + k) = Ok logs ->
           getLogs fetch opts w = (Ok logs, sent (retried 1000 k w)))
        /\ (forall cause,
              attemptOutcome fetch opts (requests w + k)
              = Throw (JsonRpcRangeTooWideError cause) ->
              getLogs fetch opts w
              = (Throw (JsonRpcRangeTooWideError cause), sent (retried 1000 k w)))
        /\ (forall e,
              k = 5%nat ->
              attemptOutcome fetch opts (requests w + k) = Throw e ->
              getLogs fetch opts w = (Throw e, sent (retried 1000 5 w)))).
Proof.
  split; [|split].
  - intros n response contentType body m Hfetch Hstatus Hct Hjson Hreply Hm Hphrase.
    unfold attemptOutcome, getLogsAttempt, rpcCall. unfold_monad. simpl.
    rewrite Hfetch, Hstatus, Hct, Hjson, Hreply. simpl. rewrite Hm.
    destruct Hphrase as [-> | ->]; [reflexivity|].
    now rewrite orb_true_r.
  - intros n response cause Hfetch Hparse Hwide.
    destruct (attemptOutcome_of_response opts n response Hfetch Hparse) as [Hiff _].
    now apply Hiff.
  - intros k Hk Hfail. unfold getLogs.
    assert (Hretried : forall i, (i < k)%nat ->
              exists e,
                attemptOutcome fetch opts (requests w + i) = Throw e
                /\ shouldRetry e = true).
    { intros i Hi. destruct (Hfail i Hi) as (e & He & Hother).
      exists e. split; [exact He|]. now apply shouldRetry_others. }
    rewrite (retry_after_failures opts shouldRetry 1000 k 5 w Hk Hretried).
    split; [|split].
    + intros logs Hout. now apply retry_succeeds.
    + intros cause Hout. now apply retry_refused.
    + intros e -> Hout. simpl Nat.sub. now apply retry_exhausted.
Qed.
End TransportFacts.

(** * Further properties of the engine *)

Section TickFacts.
Context {Abi : Type} (env : Env Abi).
Implicit Types (w : World Abi) (cb : Callbacks).

Lemma sameControl_refl w : sameControl w w.
Proof. repeat split. Qed.

Lemma sameControl_trans w1 w2 w3 :
  sameControl w1 w2 -> sameControl w2 w3 -> sameControl w1 w3.
Proof. intros (? & ? & ?) (? & ? & ?). repeat split; congruence. Qed.

Lemma keepsControl_ret {A} (a : A) : keepsControl (ret a : M (World Abi) A).
Proof. intros w r w' [= _ <-]. apply sameControl_refl. Qed.

Lemma keepsControl_throw {A} e : keepsControl (throw e : M (World Abi) A).
Proof. intros w r w' [= _ <-]. apply sameControl_refl. Qed.

Lemma keepsControl_gets {A} (f : World Abi -> A) : keepsControl (gets f).
Proof. intros w r w' [= _ <-]. apply sameControl_refl. Qed.

Lemma keepsControl_liftR {A} (x : Result A) : keepsControl (liftR x : M (World Abi) A).
Proof. intros w r w' [= _ <-]. apply sameControl_refl. Qed.

Lemma keepsControl_bind {A B} (m : M (World Abi) A) (k : A -> M (World Abi) B) :
  keepsControl m -> (forall a, keepsControl (k a)) -> keepsControl (bind m k).
Proof.
  intros Hm Hk w r w'. unfold bind.
  destruct (m w) as [[a|e] w1] eqn:Hmw.
  - intros Hkw. eapply sameControl_trans; [exact (Hm _ _ _ Hmw)|exact (Hk _ _ _ _ Hkw)].
  - intros [= _ <-]. exact (Hm _ _ _ Hmw).
Qed.

Lemma keepsControl_modify (f : World Abi -> World Abi) :
  (forall w, sameControl w (f w)) -> keepsControl (modify f).
Proof. intros Hf w r w' [= _ <-]. apply Hf. Qed.

Lemma keepsControl_forEach {A} (l : list A) (f : A -> M (World Abi) unit) :
  (forall x, keepsControl (f x)) -> keepsControl (forEach l f).
Proof.
  intros Hf. induction l as [|x l IH]; simpl.
  - apply keepsControl_ret.
  - apply keepsControl_bind; [apply Hf|intros _; exact IH].
Qed.

Lemma keepsControl_emit (e : Effect Abi) : keepsControl (emit e).
Proof. apply keepsControl_modify. intros w. repeat split. Qed.

Lemma keepsControl_updateEach ids u : keepsControl (updateEach (Abi := Abi) ids u).
Proof.
  apply keepsControl_forEach. intros id. apply keepsControl_modify.
  intros w. repeat split.
Qed.

Lemma keepsControl_saveIfConfigured : keepsControl (saveIfConfigured env).
Proof.
  intros w r w'. rewrite saveIfConfigured_run.
  destruct (subscriptionStore env) as [store|].
  - destruct (store_save store (subscriptions w)); intros [= _ <-]; repeat split.
  - intros [= _ <-]. repeat split.
Qed.

Lemma keepsControl_pollFetch tb : keepsControl (pollFetch env tb).
Proof.
  intros w r w' H. destruct (pollFetch_eventsOnly env _ _ _ _ H) as (? & ? & ? & _).
  repeat split; assumption.
Qed.

Lemma keepsControl_processEvents T : keepsControl (processEvents env T).
Proof.
  intros w r w' H. destruct (processEvents_eventsOnly env _ _ _ _ H) as (? & ? & ? & _).
  repeat split; assumption.
Qed.

(** [scheduleNextPoll] and [stop] in a running state, by their worlds. *)
Lemma scheduleNextPoll_running delay w h tb cb :
  state w = Running h tb cb ->
  scheduleNextPoll delay w =
    (Ok tt,
     {| state := Running (nextTimer w) tb cb;
        subscriptions := subscriptions w;
        eventQueue := eventQueue w;
        timers := <[nextTimer w := delay]> (timers w);
        nextTimer := S (nextTimer w);
        effects := effects w |}).
Proof.
  intros Hst. unfold scheduleNextPoll. unfold_monad. rewrite Hst. reflexivity.
Qed.

Lemma scheduleNextPoll_idle delay w :
  isRunning (state w) = false -> scheduleNextPoll delay w = (Ok tt, w).
Proof.
  intros Hst. unfold scheduleNextPoll. unfold_monad.
  destruct (state w); [reflexivity|reflexivity|discriminate].
Qed.

Lemma onError_run cb err w h tb :
  state w = Running h tb cb ->
  onError cb err w =
    (Ok tt,
     match cb with
     | OfWatch => add_effect (EmitError err) w
     | OfIndexToBlock =>
         {| state := Stopped; subscriptions := subscriptions w;
            eventQueue := eventQueue w;
            timers := delete h (timers w); nextTimer := nextTimer w;
            effects := effects w ++ [Rejected err; EmitStopped; Resolved] |}
     end).
Proof.
  intros Hst. destruct cb; simpl; [reflexivity|].
  unfold bind, emit, modify, detached, try_catch.
  rewrite (stop_running (add_effect (Rejected err) w) h tb OfIndexToBlock Hst).
  simpl. now rewrite <- !app_assoc.
Qed.

(** What [poll] does with a failure of its [try] block. *)
Lemma poll_caught w h tb cb e w1 :
  state w = Running h tb cb ->
  pollBody env tb w = (Throw e, w1) ->
  state w1 = Running h tb cb ->
  poll env w =
    (Ok tt,
     match cb with
     | OfWatch =>
         {| state := Running (nextTimer w1) tb OfWatch;
            subscriptions := subscriptions w1;
            eventQueue := eventQueue w1;
            timers := <[nextTimer w1 := eventPollDelayMs env]> (timers w1);
            nextTimer := S (nextTimer w1);
            effects := effects w1 ++ [EmitError e] |}
     | OfIndexToBlock =>
         {| state := Stopped; subscriptions := subscriptions w1;
            eventQueue := eventQueue w1;
            timers := delete h (timers w1); nextTimer := nextTimer w1;
            effects := effects w1 ++ [Rejected e; EmitStopped; Resolved] |}
     end).
Proof.
  intros Hst Hbody Hst1. rewrite (poll_running env w h tb cb Hst).
  unfold bind at 1. unfold try_catch. rewrite Hbody.
  unfold pollCatch. unfold bind at 1. unfold gets at 1. rewrite Hst1.
  unfold bind at 1. rewrite (onError_run cb e w1 h tb Hst1).
  unfold ret at 1. destruct cb.
  - rewrite (scheduleNextPoll_running _ _ h tb OfWatch) by exact Hst1. reflexivity.
  - rewrite scheduleNextPoll_idle by reflexivity. reflexivity.
Qed.

(** The lifecycle state and the timers after the last phase of a tick:
    untouched where the tick goes on to line 241 or fails, one timer at
    delay 0 or a stop where it returns. *)
Lemma pollFinish_control T ids r w h tb cb res w1 :
  state w = Running h tb cb ->
  pollFinish env T ids r w = (res, w1) ->
  match res with
  | Ok true => sameControl w w1
  | Ok false => rescheduled 0 w w1 \/ stoppedFrom w w1
  | Throw _ => sameControl w w1
  end.
Proof.
  intros Hst. unfold pollFinish.
  unfold bind at 1. rewrite updateEach_run.
  set (wa := set_subscriptions _ w).
  assert (Ha : sameControl w wa) by (repeat split).
  destruct (hasNewSubscriptions r).
  - unfold bind at 1.
    destruct (saveIfConfigured env wa) as [[[]|e] wS] eqn:Hsave;
      pose proof (sameControl_trans _ _ _ Ha (keepsControl_saveIfConfigured _ _ _ Hsave))
        as HS.
    + destruct HS as (HsS & HtS & HnS).
      unfold bind at 1.
      rewrite (scheduleNextPoll_running 0 wS h tb cb) by congruence.
      unfold ret. intros [= <- <-]. left. exists h, tb, cb. simpl.
      rewrite HnS, HtS. auto.
    + intros [= <- <-]. exact HS.
  - unfold bind at 1. rewrite updateEach_run.
    unfold bind at 1. unfold gets at 1.
    unfold bind at 1. unfold emit, modify.
    set (wE := add_effect _ _).
    assert (HE : sameControl w wE) by (repeat split).
    unfold bind at 1.
    destruct (saveIfConfigured env wE) as [[[]|e] wS] eqn:Hsave;
      pose proof (sameControl_trans _ _ _ HE (keepsControl_saveIfConfigured _ _ _ Hsave))
        as HS.
    2:{ intros [= <- <-]. exact HS. }
    pose proof HS as (HsS & HtS & HnS).
    unfold bind at 1. unfold gets at 1. rewrite HsS, Hst.
    destruct tb as [|n]; [unfold ret; intros [= <- <-]; exact HS|].
    destruct (T =? n); [|unfold ret; intros [= <- <-]; exact HS].
    unfold bind at 1. unfold detached, try_catch.
    rewrite (stop_running wS h (BlockNumber n) cb) by congruence.
    unfold ret. intros [= <- <-]. right. exists h, (BlockNumber n), cb. simpl.
    rewrite HtS, HnS. auto.
Qed.

Lemma pollBody_control w h tb cb res w1 :
  state w = Running h tb cb ->
  pollBody env tb w = (res, w1) ->
  match res with
  | Ok true => sameControl w w1
  | Ok false => rescheduled 0 w w1 \/ stoppedFrom w w1
  | Throw _ => sameControl w w1
  end.
Proof.
  intros Hst. unfold pollBody. unfold bind at 1.
  destruct (pollFetch env tb w) as [[fetched|e] wf] eqn:Hf;
    pose proof (keepsControl_pollFetch _ _ _ _ Hf) as Hcf.
  2:{ intros [= <- <-]. exact Hcf. }
  unfold bind at 1.
  destruct (processEvents env fetched.1 wf) as [[r|e] wp] eqn:Hp;
    pose proof (sameControl_trans _ _ _ Hcf (keepsControl_processEvents _ _ _ _ Hp)) as Hcp.
  2:{ intros [= <- <-]. exact Hcp. }
  intros Hfin. destruct Hcp as (Hsp & Htp & Hnp).
  assert (Hstp : state wp = Running h tb cb) by congruence.
  pose proof (pollFinish_control _ _ _ _ _ _ _ _ _ Hstp Hfin) as Hc.
  destruct res as [[|]|e].
  - eapply sameControl_trans; [|exact Hc]. repeat split; assumption.
  - destruct Hc as [(h' & tb' & cb' & Hs & Hs' & Ht' & Hn')|(h' & tb' & cb' & Hs & Hs' & Ht' & Hn')].
    + left. exists h, tb, cb. rewrite Hstp in Hs. injection Hs as <- <- <-.
      rewrite <- Hnp, <- Htp. auto.
    + right. exists h, tb, cb. rewrite Hstp in Hs. injection Hs as <- <- <-.
      rewrite <- Hnp, <- Htp. auto.
  - eapply sameControl_trans; [|exact Hc]. repeat split; assumption.
Qed.

(** How a tick of a running indexer leaves the state and the timers. *)
Lemma poll_control_running w h tb cb :
  state w = Running h tb cb ->
  exists w',
    poll env w = (Ok tt, w')
    /\ (rescheduled 0 w w'
        \/ rescheduled (eventPollDelayMs env) w w'
        \/ stoppedFrom w w').
Proof.
  intros Hst.
  destruct (pollBody env tb w) as [res w1] eqn:Hbody.
  pose proof (pollBody_control w h tb cb res w1 Hst Hbody) as Hc.
  destruct res as [[|]|e].
  - destruct Hc as (Hs1 & Ht1 & Hn1).
    rewrite (poll_running env w h tb cb Hst). unfold bind, try_catch. rewrite Hbody.
    rewrite (scheduleNextPoll_running _ w1 h tb cb) by congruence.
    eexists. split; [reflexivity|]. right. left. exists h, tb, cb. simpl.
    rewrite Hn1, Ht1. auto.
  - rewrite (poll_running env w h tb cb Hst). unfold bind, try_catch. rewrite Hbody.
    exists w1. split; [reflexivity|]. destruct Hc as [Hc|Hc]; auto.
  - destruct Hc as (Hs1 & Ht1 & Hn1).
    assert (Hst1 : state w1 = Running h tb cb) by congruence.
    rewrite (poll_caught w h tb cb e w1 Hst Hbody Hst1).
    eexists. split; [reflexivity|]. destruct cb.
    + right. left. exists h, tb, OfWatch. simpl. rewrite Hn1, Ht1. auto.
    + right. right. exists h, tb, OfIndexToBlock. simpl. rewrite Hn1, Ht1. auto.
Qed.

(** X1. A tick of a running indexer always returns normally, whatever
    fails inside it, and ends in one of three ways: the next tick is
    scheduled at delay 0, or at the polling interval, by one new timer
    that the state holds, or the indexer is stopped with the timer of its
    state cleared and none added.  So when the timer that fired was the
    only one, the tick leaves exactly one pending timer while running
    and none when stopped. *)
Theorem poll_reschedules_once_or_stops w h tb cb :
  state w = Running h tb cb ->
  exists w',
    poll env w = (Ok tt, w')
    /\ (rescheduled 0 w w'
        \/ rescheduled (eventPollDelayMs env) w w'
        \/ stoppedFrom w w')
    /\ (timers w = ∅ ->
        match state w' with
        | Running h' _ _ => exists delay, timers w' = {[ h' := delay ]}
        | Stopped => timers w' = ∅
        | Initial => False
        end).
Proof.
  intros Hst.
  destruct (poll_control_running w h tb cb Hst) as (w' & Hpoll & Hout). exists w'.
  split; [exact Hpoll|]. split; [exact Hout|]. intros Hempty.
  destruct Hout as [Hr|[Hr|Hs]].
  - destruct Hr as (h' & tb' & cb' & _ & -> & -> & _). exists 0.
    now rewrite Hempty.
  - destruct Hr as (h' & tb' & cb' & _ & -> & -> & _). exists (eventPollDelayMs env).
    now rewrite Hempty.
  - destruct Hs as (h' & tb' & cb' & _ & -> & -> & _). rewrite Hempty.
    apply delete_empty.
Qed.

(** How the first phase of a tick can end. *)
Lemma pollFetch_inv tb w T ids w1 :
  pollFetch env tb w = (Ok (T, ids), w1) ->
  targetResolves env tb T
  /\ (getSubscriptionEvents env T (subscriptions w)).2 = None
  /\ ids = (map_to_list (subscriptions w)).*1
  /\ subscriptions w1 = updateAll (fetchedTo T) ids (subscriptions w).
Proof.
  unfold pollFetch. unfold bind at 1.
  destruct (resolveTarget env tb w) as [[T0|e] w0] eqn:HT; [|discriminate].
  assert (HT0 : targetResolves env tb T0 /\ w0 = w).
  { revert HT. unfold resolveTarget, targetResolves.
    destruct tb; unfold_monad; intros [= H1 H2]; auto. }
  destruct HT0 as [HT0 ->].
  unfold bind at 1. unfold fetchEvents. unfold bind at 1. unfold gets at 1.
  destruct (getSubscriptionEvents env T0 (subscriptions w)) as [events err] eqn:Hplan.
  unfold bind at 1. unfold modify at 1.
  destruct err as [e|]; [discriminate|].
  unfold ret at 1. unfold bind at 1. unfold gets at 1.
  unfold bind at 1. rewrite updateEach_run. unfold ret.
  intros [= <- <- <-]. rewrite Hplan. auto.
Qed.

(** X2. When the head of the chain cannot be read in a tick toward
    [latest], the tick ends at line 156: the planner and the processor
    are not called, so the subscriptions and the queue are as they were,
    and the error is reported.  Under [watch] it is emitted and the next
    tick is scheduled at the polling interval; under [indexToBlock] the
    promise is rejected and the indexer stops. *)
Theorem poll_head_failure_moves_nothing w h cb e :
  state w = Running h Latest cb ->
  getLastBlockNumber env = Throw e ->
  exists w',
    poll env w = (Ok tt, w')
    /\ subscriptions w' = subscriptions w
    /\ eventQueue w' = eventQueue w
    /\ effects w' = effects w ++ onErrorEffects cb e
    /\ match cb with
       | OfWatch => rescheduled (eventPollDelayMs env) w w'
       | OfIndexToBlock => stoppedFrom w w'
       end.
Proof.
  intros Hst Hhead.
  assert (Hbody : pollBody env Latest w = (Throw e, w)).
  { unfold pollBody, pollFetch, resolveTarget. unfold_monad. now rewrite Hhead. }
  rewrite (poll_caught w h Latest cb e _ Hst Hbody Hst).
  eexists. split; [reflexivity|]. destruct cb; simpl.
  - repeat split. exists h, Latest, OfWatch. auto.
  - repeat split. exists h, Latest, OfIndexToBlock. auto.
Qed.

(** X3. Whatever fails inside the [try] block of a tick, [poll] returns
    normally and the failure reaches the error callback of the running
    state after everything the tick had done: under [watch] one [error]
    signal is added and the next tick is scheduled at the polling
    interval; under [indexToBlock] the promise is rejected before
    [stopped] is emitted, and the indexer is stopped with no timer
    scheduled. *)
Theorem poll_reports_any_failure w h tb cb e w1 :
  state w = Running h tb cb ->
  pollBody env tb w = (Throw e, w1) ->
  exists w',
    poll env w = (Ok tt, w')
    /\ subscriptions w' = subscriptions w1
    /\ eventQueue w' = eventQueue w1
    /\ effects w' = effects w1 ++ onErrorEffects cb e
    /\ match cb with
       | OfWatch => rescheduled (eventPollDelayMs env) w w'
       | OfIndexToBlock => stoppedFrom w w'
       end.
Proof.
  intros Hst Hbody.
  destruct (pollBody_control w h tb cb _ _ Hst Hbody) as (Hs1 & Ht1 & Hn1).
  assert (Hst1 : state w1 = Running h tb cb) by congruence.
  rewrite (poll_caught w h tb cb e w1 Hst Hbody Hst1).
  eexists. split; [reflexivity|]. destruct cb; simpl.
  - repeat split. exists h, tb, OfWatch. rewrite Hn1, Ht1. auto.
  - repeat split. exists h, tb, OfIndexToBlock. rewrite Hn1, Ht1. auto.
Qed.

(** The last phase of a tick without new subscriptions whose save does
    not fail, by its world. *)
Lemma pollFinish_done_ok T ids r w h tb cb :
  hasNewSubscriptions r = false ->
  state w = Running h tb cb ->
  let caughtUp :=
    updateAll (indexedTo T 0) ids
      (updateAll (indexedTo (indexedToBlock r) (indexedToLogIndex r)) ids
         (subscriptions w)) in
  let reported :=
    effects w
      ++ EmitProgress (indexedToBlock r) T (length (eventQueue w))
           :: savedEffects env caughtUp in
  (forall store, subscriptionStore env = Some store -> store_save store caughtUp = None) ->
  pollFinish env T ids r w =
    if ToBlock_eqb tb (BlockNumber T)
    then (Ok false,
          {| state := Stopped; subscriptions := caughtUp;
             eventQueue := eventQueue w;
             timers := delete h (timers w); nextTimer := nextTimer w;
             effects := reported ++ EmitStopped :: onStopEffects cb |})
    else (Ok true,
          {| state := Running h tb cb; subscriptions := caughtUp;
             eventQueue := eventQueue w;
             timers := timers w; nextTimer := nextTimer w;
             effects := reported |}).
Proof.
  intros Hnew Hst caughtUp reported Hsave. unfold pollFinish.
  unfold bind at 1. rewrite updateEach_run. rewrite Hnew.
  unfold bind at 1. rewrite updateEach_run.
  unfold bind at 1. unfold gets at 1.
  unfold bind at 1. unfold emit, modify.
  unfold bind at 1. rewrite saveIfConfigured_run.
  cbn [subscriptions set_subscriptions add_effect eventQueue]. fold caughtUp.
  subst reported. unfold savedEffects.
  assert (Hstate : forall m1 m2 : gmap string (Subscription Abi),
            state (set_subscriptions m1 (set_subscriptions m2 w)) = Running h tb cb)
    by (intros; exact Hst).
  destruct (subscriptionStore env) as [store|] eqn:Hstore.
  - rewrite (Hsave store eq_refl).
    unfold bind at 1. unfold gets at 1.
    change (state (add_effect _ (add_effect _ ?x))) with (state x).
    rewrite Hstate.
    destruct tb as [|n]; simpl ToBlock_eqb.
    + unfold ret, add_effect, set_subscriptions. simpl. rewrite Hst.
      f_equal. f_equal. now rewrite <- app_assoc.
    + rewrite (Z.eqb_sym n T). destruct (T =? n) eqn:HTn.
      * unfold bind, detached, try_catch. cbv beta.
        erewrite stop_running by (simpl; exact Hst). simpl.
        unfold ret. f_equal. f_equal. now rewrite <- !app_assoc.
      * unfold ret, add_effect, set_subscriptions. simpl. rewrite Hst.
        f_equal. f_equal. now rewrite <- app_assoc.
  - unfold bind at 1. unfold gets at 1.
    change (state (add_effect _ ?x)) with (state x).
    rewrite Hstate.
    destruct tb as [|n]; simpl ToBlock_eqb.
    + unfold ret, add_effect, set_subscriptions. simpl. rewrite Hst. reflexivity.
    + rewrite (Z.eqb_sym n T). destruct (T =? n) eqn:HTn.
      * unfold bind, detached, try_catch. cbv beta.
        erewrite stop_running by (simpl; exact Hst). simpl.
        unfold ret. f_equal. f_equal. now rewrite <- !app_assoc.
      * unfold ret, add_effect, set_subscriptions. simpl. rewrite Hst. reflexivity.
Qed.

(** A tick that ran through its last phase without a failure, by the
    world that phase left. *)
Lemma poll_finished w h tb cb T ids w1 r w2 continue wF :
  state w = Running h tb cb ->
  pollFetch env tb w = (Ok (T, ids), w1) ->
  processEvents env T w1 = (Ok r, w2) ->
  pollFinish env T ids r w2 = (Ok continue, wF) ->
  poll env w =
    (if continue then scheduleNextPoll (eventPollDelayMs env) wF else (Ok tt, wF)).
Proof.
  intros Hst Hf Hp HF. rewrite (poll_running env w h tb cb Hst).
  unfold bind, try_catch. rewrite (pollBody_phases env _ _ _ _ _ _ _ Hf Hp), HF.
  now destruct continue.
Qed.

(** X4. Under [watch] (target [latest]) a tick that adds no
    subscription and saves without failure never stops the indexer: it
    reports [progress] against the head of the chain read in this tick
    and schedules the next tick at the polling interval, which is
    1000 ms unless configured. *)
Theorem poll_watching_goes_on w h cb T ids w1 r w2 :
  state w = Running h Latest cb ->
  pollFetch env Latest w = (Ok (T, ids), w1) ->
  processEvents env T w1 = (Ok r, w2) ->
  hasNewSubscriptions r = false ->
  let caughtUp :=
    updateAll (indexedTo T 0) ids
      (updateAll (indexedTo (indexedToBlock r) (indexedToLogIndex r)) ids
         (subscriptions w2)) in
  (forall store, subscriptionStore env = Some store -> store_save store caughtUp = None) ->
  exists w',
    poll env w = (Ok tt, w')
    /\ getLastBlockNumber env = Ok T
    /\ state w' = Running (nextTimer w) Latest cb
    /\ timers w' = <[nextTimer w := eventPollDelayMs env]> (timers w)
    /\ (pollingIntervalMs env = None -> eventPollDelayMs env = 1000)
    /\ subscriptions w' = caughtUp
    /\ effects w' =
         effects w2
           ++ EmitProgress (indexedToBlock r) T (length (eventQueue w2))
                :: savedEffects env caughtUp.
Proof.
  intros Hst Hf Hp Hnew caughtUp Hsave.
  destruct (phases_keep_state env _ _ _ _ _ _ _ Hf Hp) as (Hs2 & Ht2 & Hn2 & _).
  assert (Hst2 : state w2 = Running h Latest cb) by congruence.
  pose proof (pollFinish_done_ok T ids r w2 h Latest cb Hnew Hst2 Hsave) as HF.
  simpl ToBlock_eqb in HF. cbv iota in HF.
  rewrite (poll_finished w h Latest cb T ids w1 r w2 _ _ Hst Hf Hp HF).
  erewrite scheduleNextPoll_running by reflexivity.
  eexists. split; [reflexivity|]. simpl.
  destruct (pollFetch_inv _ _ _ _ _ Hf) as (HT & _).
  rewrite Hn2, Ht2. repeat split; try assumption.
  intros Hnone. unfold eventPollDelayMs. now rewrite Hnone.
Qed.

(** X5. A tick toward a concrete target that adds no subscription and
    saves without failure ends the run: after [progress] and the save it
    emits [stopped], runs the stop callback (which resolves the promise
    of [indexToBlock]), clears the timer and schedules none.  After it,
    [stop()] throws and a [poll] that still fires does nothing. *)
Theorem poll_reaching_target_stops w h N cb T ids w1 r w2 :
  state w = Running h (BlockNumber N) cb ->
  pollFetch env (BlockNumber N) w = (Ok (T, ids), w1) ->
  processEvents env T w1 = (Ok r, w2) ->
  hasNewSubscriptions r = false ->
  let caughtUp :=
    updateAll (indexedTo T 0) ids
      (updateAll (indexedTo (indexedToBlock r) (indexedToLogIndex r)) ids
         (subscriptions w2)) in
  (forall store, subscriptionStore env = Some store -> store_save store caughtUp = None) ->
  exists w',
    poll env w = (Ok tt, w')
    /\ T = N
    /\ state w' = Stopped
    /\ timers w' = delete h (timers w)
    /\ nextTimer w' = nextTimer w
    /\ subscriptions w' = caughtUp
    /\ effects w' =
         effects w2
           ++ EmitProgress (indexedToBlock r) N (length (eventQueue w2))
                :: savedEffects env caughtUp
           ++ EmitStopped :: onStopEffects cb
    /\ stop w' = (Throw (Error "Indexer is not running"), w')
    /\ poll env w' = (Ok tt, w').
Proof.
  intros Hst Hf Hp Hnew caughtUp Hsave.
  destruct (phases_keep_state env _ _ _ _ _ _ _ Hf Hp) as (Hs2 & Ht2 & Hn2 & _).
  assert (Hst2 : state w2 = Running h (BlockNumber N) cb) by congruence.
  destruct (pollFetch_inv _ _ _ _ _ Hf) as (HT & _). simpl in HT. subst T.
  pose proof (pollFinish_done_ok N ids r w2 h (BlockNumber N) cb Hnew Hst2 Hsave) as HF.
  simpl ToBlock_eqb in HF. rewrite Z.eqb_refl in HF.
  rewrite (poll_finished w h (BlockNumber N) cb N ids w1 r w2 _ _ Hst Hf Hp HF).
  eexists. split; [reflexivity|]. simpl.
  rewrite Ht2, Hn2. repeat split. now rewrite <- app_assoc.
Qed.

Lemma sameButIndexed_refl (s : Subscription Abi) : sameButIndexed s s.
Proof. repeat split. Qed.

Lemma sameButIndexed_trans (s1 s2 s3 : Subscription Abi) :
  sameButIndexed s1 s2 -> sameButIndexed s2 s3 -> sameButIndexed s1 s3.
Proof.
  intros (? & ? & ? & ? & ? & ? & ?) (? & ? & ? & ? & ? & ? & ?).
  repeat split; congruence.
Qed.

Lemma updateAll_indexed block logIndex ids (m : gmap string (Subscription Abi)) k :
  match m !! k with
  | Some s =>
      exists s', updateAll (indexedTo block logIndex) ids m !! k = Some s'
                 /\ sameButIndexed s s'
  | None => updateAll (indexedTo block logIndex) ids m !! k = None
  end.
Proof.
  unfold updateAll. revert m. induction ids as [|id ids IH]; intros m; simpl.
  - destruct (m !! k) as [s|]; [|reflexivity]. exists s.
    split; [reflexivity|apply sameButIndexed_refl].
  - specialize (IH (alter (applyUpdate (indexedTo block logIndex)) id m)).
    rewrite lookup_alter in IH.
    destruct (decide (id = k)) as [->|Hne].
    + destruct (m !! k) as [s|]; simpl in IH; [|exact IH].
      destruct IH as (s' & Hs' & Hsame). exists s'. split; [exact Hs'|].
      eapply sameButIndexed_trans; [|exact Hsame]. repeat split.
    + exact IH.
Qed.

(** The map a tick leaves when its first two phases succeed. *)
Lemma poll_phases_subscriptions w h tb cb T ids w1 r w2 :
  state w = Running h tb cb ->
  pollFetch env tb w = (Ok (T, ids), w1) ->
  processEvents env T w1 = (Ok r, w2) ->
  let marked :=
    updateAll (indexedTo (indexedToBlock r) (indexedToLogIndex r)) ids (subscriptions w2) in
  exists w',
    poll env w = (Ok tt, w')
    /\ subscriptions w' =
         if hasNewSubscriptions r then marked
         else updateAll (indexedTo T 0) ids marked.
Proof.
  intros Hst Hf Hp marked.
  destruct (hasNewSubscriptions r) eqn:Hnew.
  - destruct (phases_keep_state env _ _ _ _ _ _ _ Hf Hp) as (Hs2 & _).
    assert (Hst2 : state w2 = Running h tb cb) by congruence.
    rewrite (poll_running env w h tb cb Hst). unfold bind, try_catch.
    rewrite (pollBody_phases env _ _ _ _ _ _ _ Hf Hp).
    destruct (pollFinish env T ids r w2) as [res wF] eqn:HF.
    destruct (pollFinish_new_any env _ _ _ _ _ _ _ _ _ Hnew Hst2 HF)
      as [(HsF & _) Hres].
    destruct res as [continue|e].
    + subst continue. exists wF. split; [reflexivity|exact HsF].
    + destruct (pollCatch_running e wF h tb cb Hres) as (wC & -> & (HsC & _)).
      destruct (scheduleNextPoll_settles (eventPollDelayMs env) wC)
        as (w' & -> & (HsN & _)).
      exists w'. split; [reflexivity|]. rewrite HsN, HsC. exact HsF.
  - destruct (poll_done env w h tb cb T ids w1 r w2 Hst Hf Hp Hnew)
      as (w' & Hpoll & Hsubs & _).
    exists w'. split; [exact Hpoll|exact Hsubs].
Qed.

(** X6. After the event processor has run, a tick rewrites nothing but
    [indexedToBlock] and [indexedToLogIndex], and only of the
    subscriptions that were in the map when the tick began: it adds and
    removes no key, leaves every other member of a subscription as the
    processor left it, and does not touch a subscription the processor
    added, which so keeps [fetchedToBlock = -1] for the next tick's
    planner. *)
Theorem poll_rewrites_only_snapshot_cursors w h tb cb T ids w1 r w2 :
  state w = Running h tb cb ->
  pollFetch env tb w = (Ok (T, ids), w1) ->
  processEvents env T w1 = (Ok r, w2) ->
  exists w',
    poll env w = (Ok tt, w')
    /\ (forall k,
          subscriptions w !! k = None ->
          subscriptions w' !! k = subscriptions w2 !! k)
    /\ (forall k,
          match subscriptions w2 !! k with
          | Some s2 =>
              exists s', subscriptions w' !! k = Some s' /\ sameButIndexed s2 s'
          | None => subscriptions w' !! k = None
          end).
Proof.
  intros Hst Hf Hp.
  destruct (poll_phases_subscriptions w h tb cb T ids w1 r w2 Hst Hf Hp)
    as (w' & Hpoll & Hsubs).
  destruct (pollFetch_inv _ _ _ _ _ Hf) as (_ & _ & Hids & _).
  exists w'. split; [exact Hpoll|]. split.
  - intros k Hk.
    assert (Hnin : k ∉ ids).
    { rewrite Hids. intros Hin. apply snapshot_elem in Hin as [s Hs]. congruence. }
    rewrite Hsubs. destruct (hasNewSubscriptions r).
    + now apply updateAll_lookup_notin.
    + rewrite updateAll_lookup_notin by exact Hnin.
      now apply updateAll_lookup_notin.
  - intros k. rewrite Hsubs.
    pose proof (updateAll_indexed (indexedToBlock r) (indexedToLogIndex r) ids
                  (subscriptions w2) k) as H1.
    destruct (hasNewSubscriptions r); [exact H1|].
    destruct (subscriptions w2 !! k) as [s2|].
    + destruct H1 as (s1 & Hs1 & Hsame1).
      pose proof (updateAll_indexed T 0 ids
                    (updateAll (indexedTo (indexedToBlock r) (indexedToLogIndex r)) ids
                       (subscriptions w2)) k) as H2.
      rewrite Hs1 in H2. destruct H2 as (s' & Hs' & Hsame2).
      exists s'. split; [exact Hs'|].
      exact (sameButIndexed_trans _ _ _ Hsame1 Hsame2).
    + pose proof (updateAll_indexed T 0 ids
                    (updateAll (indexedTo (indexedToBlock r) (indexedToLogIndex r)) ids
                       (subscriptions w2)) k) as H2.
      now rewrite H1 in H2.
Qed.
End TickFacts.

Section LoadFacts.
Context {Abi : Type} (env : Env Abi).
Implicit Types (w : World Abi) (o : SubscribeOptions).

(** [subscribeToContract] is one insertion or nothing. *)
Lemma subscribeToContract_run o w :
  subscribeToContract env o w =
    match subscribeError env o with
    | Some e => (Throw e, w)
    | None => (Ok tt, snd (subscribeToContract env o w))
    end.
Proof.
  unfold subscribeError, subscribeToContract. unfold_monad.
  destruct (getAddress env (opt_address o)) as [address|e]; [|reflexivity].
  destruct (contracts env (opt_contract o)); reflexivity.
Qed.

Lemma subscribeToContract_inserts o w address :
  keyOf env o address ->
  subscribeError env o = None ->
  exists s,
    freshlyKeyed address s
    /\ forall w0,
         snd (subscribeToContract env o w0)
         = set_subscriptions (<[address := s]> (subscriptions w0)) w0.
Proof.
  unfold keyOf, subscribeError, subscribeToContract. intros Haddr.
  rewrite Haddr. destruct (contracts env (opt_contract o)) as [c|]; [|discriminate].
  intros _. eexists. split; [|intros w0; unfold_monad; rewrite ?Haddr; reflexivity].
  repeat split.
Qed.

Lemma subscribeToContract_noop o w e :
  subscribeError env o = Some e -> snd (subscribeToContract env o w) = w.
Proof. intros He. now rewrite subscribeToContract_run, He. Qed.

(** X7. [subscribeToContract] succeeds exactly when the address passes
    the checksum and the contract is registered.  Otherwise it throws
    and changes nothing: the error of the checksum when the address is
    malformed, whether or not the contract is known, and "Contract
    <name> not found" for a valid address with an unknown contract. *)
Theorem subscribeToContract_fails_untouched o w :
  (forall e,
     getAddress env (opt_address o) = Throw e ->
     subscribeToContract env o w = (Throw e, w))
  /\ (forall address,
        getAddress env (opt_address o) = Ok address ->
        contracts env (opt_contract o) = None ->
        subscribeToContract env o w
        = (Throw (Error ("Contract " +:+ opt_contract o +:+ " not found")), w))
  /\ (forall w', subscribeToContract env o w = (Ok tt, w') <->
        (exists address contract,
           getAddress env (opt_address o) = Ok address
           /\ contracts env (opt_contract o) = Some contract)
        /\ w' = snd (subscribeToContract env o w)).
Proof.
  split; [|split].
  - intros e He. rewrite subscribeToContract_run. unfold subscribeError. now rewrite He.
  - intros address Ha Hc. rewrite subscribeToContract_run. unfold subscribeError.
    now rewrite Ha, Hc.
  - intros w'. rewrite subscribeToContract_run at 1. unfold subscribeError.
    destruct (getAddress env (opt_address o)) as [address|e].
    + destruct (contracts env (opt_contract o)) as [c|].
      * split.
        -- intros [= <-]. split; [eauto|reflexivity].
        -- intros [_ ->]. reflexivity.
      * split; [discriminate|]. intros [(a & c & _ & Hc) _]. discriminate.
    + split; [discriminate|]. intros [(a & c & Ha & _) _]. discriminate.
Qed.

(** X8. A second [subscribeToContract] for an address that checksums to
    the same key replaces the first whatever the two calls' other
    options are, so the earlier subscription and the cursors it had
    reached are lost; in particular the same call made twice is the call
    made once. *)
Theorem resubscription_replaces o1 o2 w address :
  keyOf env o1 address ->
  keyOf env o2 address ->
  subscribeError env o2 = None ->
  snd (subscribeToContract env o2 (snd (subscribeToContract env o1 w)))
  = snd (subscribeToContract env o2 w)
  /\ snd (subscribeToContract env o2 (snd (subscribeToContract env o2 w)))
     = snd (subscribeToContract env o2 w).
Proof.
  intros H1 H2 Hok.
  destruct (subscribeToContract_inserts o2 w address H2 Hok) as (s2 & _ & Hins2).
  assert (Hover : forall w0 : World Abi,
            (subscriptions w0 = subscriptions w \/
             exists s, subscriptions w0 = <[address := s]> (subscriptions w)) ->
            state w0 = state w -> eventQueue w0 = eventQueue w ->
            timers w0 = timers w -> nextTimer w0 = nextTimer w ->
            effects w0 = effects w ->
            snd (subscribeToContract env o2 w0) = snd (subscribeToContract env o2 w)).
  { intros w0 Hsubs Hst Hq Ht Hn He. rewrite !Hins2.
    destruct w0 as [st0 m0 q0 t0 n0 e0], w as [st m q t n e]. simpl in *. subst.
    unfold set_subscriptions. simpl. f_equal.
    destruct Hsubs as [->|[s ->]]; [reflexivity|]. apply insert_insert_eq. }
  split.
  - destruct (subscribeError env o1) as [e1|] eqn:Hok1.
    + now rewrite (subscribeToContract_noop o1 w e1 Hok1).
    + destruct (subscribeToContract_inserts o1 w address H1 Hok1) as (s1 & _ & Hins1).
      apply Hover; rewrite Hins1; simpl; eauto.
  - apply Hover; rewrite Hins2; simpl; eauto.
Qed.

(** C3, as the code has it.  For every address that [getAddress]
    accepts and every registered contract, a call that supplies a
    custom [id] other than the checksummed address stores the
    subscription under the checksummed address, with that address as
    its [id]; what is under the custom id is what was there before; and
    a later call for the same address, whatever id it supplies, takes
    the place of this one. *)
Theorem custom_id_is_not_the_key o w id address :
  opt_id o = Some id ->
  keyOf env o address ->
  subscribeError env o = None ->
  id <> address ->
  exists s,
    subscribeToContract env o w
    = (Ok tt, set_subscriptions (<[address := s]> (subscriptions w)) w)
    /\ sub_id s = address
    /\ subscriptions (snd (subscribeToContract env o w)) !! id = subscriptions w !! id
    /\ forall o2,
         keyOf env o2 address ->
         subscribeError env o2 = None ->
         snd (subscribeToContract env o2 (snd (subscribeToContract env o w)))
         = snd (subscribeToContract env o2 w).
Proof.
  intros _ Hkey Hok Hne.
  destruct (subscribeToContract_inserts o w address Hkey Hok) as (s & Hfresh & Hins).
  exists s. split; [|split; [|split]].
  - rewrite subscribeToContract_run, Hok. now rewrite Hins.
  - apply Hfresh.
  - rewrite Hins. simpl. now apply lookup_insert_ne.
  - intros o2 Hkey2 Hok2.
    destruct (subscribeToContract_inserts o2 w address Hkey2 Hok2) as (s2 & _ & Hins2).
    rewrite !Hins2, Hins. unfold set_subscriptions. simpl. f_equal.
    apply insert_insert_eq.
Qed.

(** ** Loading the store *)

Lemma loadEach_app l1 l2 w :
  loadEach env (l1 ++ l2) w = bind (loadEach env l1) (fun _ => loadEach env l2) w.
Proof.
  unfold loadEach. revert w. induction l1 as [|st l1 IH]; intros w; simpl.
  - reflexivity.
  - unfold bind.
    destruct (subscribeToContract env (storedOptions st) w) as [[[]|e] w1];
      [|reflexivity].
    rewrite IH. reflexivity.
Qed.

Lemma storedOptions_reloads st address contract w :
  getAddress env (sub_contractAddress st) = Ok address ->
  contracts env (sub_contractName st) = Some contract ->
  subscribeToContract env (storedOptions st) w
  = (Ok tt,
     set_subscriptions (<[address := reloaded address contract st]> (subscriptions w)) w).
Proof.
  intros Ha Hc. unfold subscribeToContract. unfold_monad. simpl.
  rewrite Ha, Hc. reflexivity.
Qed.

Lemma subscribeToContract_other_key o w r w' k :
  subscribeToContract env o w = (r, w') ->
  getAddress env (opt_address o) <> Ok k ->
  subscriptions w' !! k = subscriptions w !! k.
Proof.
  unfold subscribeToContract. unfold_monad.
  destruct (getAddress env (opt_address o)) as [address|e]; simpl.
  - destruct (contracts env (opt_contract o)); intros [= _ <-] Hne; simpl.
    + apply lookup_insert_ne. congruence.
    + reflexivity.
  - intros [= _ <-] _. reflexivity.
Qed.

Lemma loadEach_other_key l w r w' k :
  loadEach env l w = (r, w') ->
  (forall st, In st l -> getAddress env (sub_contractAddress st) <> Ok k) ->
  subscriptions w' !! k = subscriptions w !! k.
Proof.
  unfold loadEach. revert w. induction l as [|st l IH]; intros w; simpl.
  - unfold ret. now intros [= _ <-].
  - unfold bind.
    destruct (subscribeToContract env (storedOptions st) w) as [[[]|e] w1] eqn:Hst;
      intros Hrest Hne.
    + rewrite (IH w1 Hrest) by (intros st' Hin; apply Hne; now right).
      apply (subscribeToContract_other_key _ _ _ _ _ Hst). apply Hne. now left.
    + injection Hrest as _ <-.
      apply (subscribeToContract_other_key _ _ _ _ _ Hst). apply Hne. now left.
Qed.

Lemma loadEach_all_ok l w :
  (forall st, In st l -> subscribeError env (storedOptions st) = None) ->
  exists w1, loadEach env l w = (Ok tt, w1).
Proof.
  unfold loadEach. revert w. induction l as [|st l IH]; intros w Hok; simpl.
  - now exists w.
  - unfold bind. rewrite subscribeToContract_run, (Hok st) by now left.
    apply IH. intros st' Hin. apply Hok. now right.
Qed.

Lemma init_loads store stored w :
  subscriptionStore env = Some store ->
  store_all store = Ok stored ->
  init env w = loadEach env stored w.
Proof.
  intros Hstore Hall. unfold init. rewrite Hstore. unfold bind, liftR.
  now rewrite Hall.
Qed.

(** X9. Subscriptions to addresses with different checksums do not
    interfere: made in either order they leave the same subscription
    under every key, and under each of the two addresses what the call
    for that address alone leaves there.  (The order in which the keys
    were inserted, which the source's [Map] keeps, is not part of this
    statement.) *)
Theorem subscriptions_to_distinct_addresses_commute o1 o2 w a1 a2 :
  keyOf env o1 a1 ->
  keyOf env o2 a2 ->
  a1 <> a2 ->
  let w12 := snd (subscribeToContract env o2 (snd (subscribeToContract env o1 w))) in
  let w21 := snd (subscribeToContract env o1 (snd (subscribeToContract env o2 w))) in
  (forall k, subscriptions w12 !! k = subscriptions w21 !! k)
  /\ subscriptions w12 !! a1 = subscriptions (snd (subscribeToContract env o1 w)) !! a1
  /\ subscriptions w12 !! a2 = subscriptions (snd (subscribeToContract env o2 w)) !! a2.
Proof.
  intros H1 H2 Hne w12 w21. unfold keyOf in H1, H2.
  assert (Hother1 : forall w0 k, k <> a1 ->
            subscriptions (snd (subscribeToContract env o1 w0)) !! k
            = subscriptions w0 !! k).
  { intros w0 k Hk.
    apply (subscribeToContract_other_key o1 w0
             (fst (subscribeToContract env o1 w0))); [apply surjective_pairing|].
    rewrite H1. congruence. }
  assert (Hother2 : forall w0 k, k <> a2 ->
            subscriptions (snd (subscribeToContract env o2 w0)) !! k
            = subscriptions w0 !! k).
  { intros w0 k Hk.
    apply (subscribeToContract_other_key o2 w0
             (fst (subscribeToContract env o2 w0))); [apply surjective_pairing|].
    rewrite H2. congruence. }
  assert (Hown1 : forall w0 w0',
            subscriptions (snd (subscribeToContract env o1 w0)) !! a1
            = subscriptions (snd (subscribeToContract env o1 w0')) !! a1
            \/ subscribeError env o1 <> None).
  { intros w0 w0'. destruct (subscribeError env o1) as [e1|] eqn:Hok1.
    - right. discriminate.
    - left. destruct (subscribeToContract_inserts o1 w0 a1 H1 Hok1) as (s1 & _ & Hins1).
      rewrite !Hins1. simpl. now rewrite !lookup_insert_eq. }
  assert (Hown2 : forall w0 w0',
            subscriptions (snd (subscribeToContract env o2 w0)) !! a2
            = subscriptions (snd (subscribeToContract env o2 w0')) !! a2
            \/ subscribeError env o2 <> None).
  { intros w0 w0'. destruct (subscribeError env o2) as [e2|] eqn:Hok2.
    - right. discriminate.
    - left. destruct (subscribeToContract_inserts o2 w0 a2 H2 Hok2) as (s2 & _ & Hins2).
      rewrite !Hins2. simpl. now rewrite !lookup_insert_eq. }
  assert (Hnoop1 : forall w0, subscribeError env o1 <> None ->
            snd (subscribeToContract env o1 w0) = w0).
  { intros w0 Hbad. destruct (subscribeError env o1) as [e1|] eqn:Hok1; [|congruence].
    exact (subscribeToContract_noop o1 w0 e1 Hok1). }
  assert (Hnoop2 : forall w0, subscribeError env o2 <> None ->
            snd (subscribeToContract env o2 w0) = w0).
  { intros w0 Hbad. destruct (subscribeError env o2) as [e2|] eqn:Hok2; [|congruence].
    exact (subscribeToContract_noop o2 w0 e2 Hok2). }
  assert (Ha1 : subscriptions w12 !! a1
                = subscriptions (snd (subscribeToContract env o1 w)) !! a1).
  { unfold w12. now rewrite Hother2 by exact Hne. }
  assert (Ha2 : subscriptions w12 !! a2
                = subscriptions (snd (subscribeToContract env o2 w)) !! a2).
  { unfold w12.
    destruct (Hown2 (snd (subscribeToContract env o1 w)) w) as [Heq|Hbad]; [exact Heq|].
    rewrite !Hnoop2 by exact Hbad. apply Hother1. congruence. }
  split; [|split; assumption].
  intros k. destruct (decide (k = a1)) as [->|Hk1].
  - rewrite Ha1. unfold w21.
    destruct (Hown1 w (snd (subscribeToContract env o2 w))) as [Heq|Hbad]; [exact Heq|].
    rewrite !Hnoop1 by exact Hbad. symmetry. now apply Hother2.
  - destruct (decide (k = a2)) as [->|Hk2].
    + rewrite Ha2. unfold w21. now rewrite Hother1 by exact Hk1.
    + unfold w12, w21.
      now rewrite Hother2, Hother1, Hother1, Hother2 by assumption.
Qed.

(** X10. A successful [init] restores, for every stored subscription
    that no later stored one shares its checksummed address with, the
    contract name, [fromBlock], [toBlock] and [indexedToBlock] as
    stored, under the checksummed address as key and id, with
    [fetchedToBlock = -1] and [indexedToLogIndex = 0]; the ABI is the
    one registered now.  Keys that are the checksum of no stored address
    are left as they were. *)
Theorem init_restores_stored_bounds store l1 st l2 w w' address :
  subscriptionStore env = Some store ->
  store_all store = Ok (l1 ++ st :: l2) ->
  init env w = (Ok tt, w') ->
  getAddress env (sub_contractAddress st) = Ok address ->
  (forall st', In st' l2 -> getAddress env (sub_contractAddress st') <> Ok address) ->
  (exists contract,
     contracts env (sub_contractName st) = Some contract
     /\ subscriptions w' !! address = Some (reloaded address contract st))
  /\ (forall k,
        (forall st', In st' (l1 ++ st :: l2) ->
                     getAddress env (sub_contractAddress st') <> Ok k) ->
        subscriptions w' !! k = subscriptions w !! k).
Proof.
  intros Hstore Hall Hinit Ha Hlater.
  rewrite (init_loads store _ w Hstore Hall) in Hinit.
  split.
  - rewrite loadEach_app in Hinit. unfold bind in Hinit.
    destruct (loadEach env l1 w) as [[[]|e] w1]; [|discriminate].
    unfold loadEach in Hinit. simpl in Hinit. unfold bind in Hinit.
    destruct (contracts env (sub_contractName st)) as [contract|] eqn:Hc.
    + rewrite (storedOptions_reloads st address contract w1 Ha Hc) in Hinit.
      exists contract. split; [reflexivity|].
      rewrite (loadEach_other_key l2 _ _ _ address Hinit Hlater).
      simpl. apply lookup_insert_eq.
    + rewrite subscribeToContract_run in Hinit. unfold subscribeError in Hinit.
      simpl in Hinit. rewrite Ha, Hc in Hinit. discriminate.
  - intros k Hk. exact (loadEach_other_key _ _ _ _ k Hinit Hk).
Qed.

(** X11. [init] without a store does nothing; when the store cannot be
    read it throws the store's error and changes nothing; and it stops
    at the first stored subscription whose address is malformed or whose
    contract is unknown: the error is thrown, the subscriptions stored
    before that one are in the map, and no other key has changed, so
    those stored after it are not loaded. *)
Theorem init_stops_at_first_failure w :
  (subscriptionStore env = None -> init env w = (Ok tt, w))
  /\ (forall store e,
        subscriptionStore env = Some store ->
        store_all store = Throw e ->
        init env w = (Throw e, w))
  /\ (forall store l1 bad l2 e,
        subscriptionStore env = Some store ->
        store_all store = Ok (l1 ++ bad :: l2) ->
        (forall st, In st l1 -> subscribeError env (storedOptions st) = None) ->
        subscribeError env (storedOptions bad) = Some e ->
        exists w1,
          init env w = (Throw e, w1)
          /\ (forall st, In st l1 ->
               exists address s,
                 getAddress env (sub_contractAddress st) = Ok address
                 /\ subscriptions w1 !! address = Some s
                 /\ freshlyKeyed address s)
          /\ (forall k,
               (forall st, In st l1 ->
                           getAddress env (sub_contractAddress st) <> Ok k) ->
               subscriptions w1 !! k = subscriptions w !! k)).
Proof.
  split; [|split].
  - intros Hstore. unfold init. now rewrite Hstore.
  - intros store e Hstore Hall. unfold init. rewrite Hstore. unfold bind, liftR.
    now rewrite Hall.
  - intros store l1 bad l2 e Hstore Hall Hok Hbad.
    destruct (loadEach_all_ok l1 w Hok) as [w1 Hl1].
    exists w1. split; [|split].
    + rewrite (init_loads store _ w Hstore Hall), loadEach_app. unfold bind.
      rewrite Hl1. unfold loadEach. simpl. unfold bind.
      now rewrite subscribeToContract_run, Hbad.
    + intros st Hin. exact (forEach_subscribe_loaded env l1 w w1 st Hl1 Hin).
    + intros k Hk. exact (loadEach_other_key l1 _ _ _ k Hl1 Hk).
Qed.

(** ** Starting a run *)

(** X12. [watch()] on a fresh indexer loads the store before it starts:
    when [init] succeeds the loaded subscriptions are in the map, the
    state is [running] toward [latest] with the first tick at delay 0,
    and [started] is the only signal; when [init] fails the state is
    still [initial], no timer is set and [error] is the only signal, with
    whatever [init] had loaded left in the map. *)
Theorem watch_loads_then_starts w :
  state w = Initial ->
  (forall w1,
     init env w = (Ok tt, w1) ->
     exists w',
       watch env w = (Ok tt, w')
       /\ subscriptions w' = subscriptions w1
       /\ state w' = Running (nextTimer w) Latest OfWatch
       /\ timers w' = <[nextTimer w := 0]> (timers w)
       /\ effects w' = effects w ++ [EmitStarted])
  /\ (forall e w1,
        init env w = (Throw e, w1) ->
        exists w',
          watch env w = (Ok tt, w')
          /\ subscriptions w' = subscriptions w1
          /\ state w' = Initial
          /\ timers w' = timers w
          /\ effects w' = effects w ++ [EmitError e]).
Proof.
  intros Hst. destruct (init_frame env w) as [m Hm]. split.
  - intros w1 Hinit. rewrite Hinit in Hm. simpl in Hm. subst w1.
    rewrite <- (initIfInitial_initial env w Hst) in Hinit.
    rewrite (watch_starts env w _ Hinit) by now rewrite Hst.
    eexists. split; [reflexivity|]. simpl. auto.
  - intros e w1 Hinit. rewrite Hinit in Hm. simpl in Hm. subst w1.
    unfold watch. unfold_monad. rewrite (initIfInitial_initial env w Hst), Hinit.
    eexists. split; [reflexivity|]. simpl. auto.
Qed.

(** X13. [indexToBlock("latest")] reads the head of the chain once and
    runs toward that block as a concrete target: the running state
    holds the block, not [latest], so every later tick targets it
    whatever the head has become.  When the head cannot be read the call
    throws with the state, the timers and the signals as they were,
    though [init] has already loaded the store. *)
Theorem indexToBlock_latest_pins_the_head w w1 :
  isRunning (state w) = false ->
  initIfInitial env w = (Ok tt, w1) ->
  (forall T,
     getLastBlockNumber env = Ok T ->
     exists w',
       indexToBlock env Latest w = (Ok tt, w')
       /\ state w' = Running (nextTimer w) (BlockNumber T) OfIndexToBlock
       /\ subscriptions w' = subscriptions w1
       /\ timers w' = <[nextTimer w := 0]> (timers w)
       /\ effects w' = effects w ++ [EmitStarted]
       /\ forall (later : Env Abi) wx T' ids wf,
            pollFetch later (BlockNumber T) wx = (Ok (T', ids), wf) -> T' = T)
  /\ (forall e,
        getLastBlockNumber env = Throw e ->
        indexToBlock env Latest w = (Throw e, w1)
        /\ state w1 = state w
        /\ timers w1 = timers w
        /\ effects w1 = effects w).
Proof.
  intros Hrun Hinit.
  destruct (initIfInitial_frame env w) as [m Hm]. rewrite Hinit in Hm. simpl in Hm.
  split.
  - intros T HT.
    rewrite (indexToBlock_starts env w w1 Latest T Hinit Hrun HT).
    eexists. split; [reflexivity|]. subst w1. simpl. repeat split.
    intros later wx T' ids wf Hf.
    destruct (pollFetch_inv later _ _ _ _ _ Hf) as (Hres & _). simpl in Hres. congruence.
  - intros e He. split; [|subst w1; repeat split].
    unfold indexToBlock. unfold bind at 1. rewrite Hinit.
    unfold bind at 1. unfold gets at 1.
    assert (Hst1 : state w1 = state w) by (subst w1; reflexivity).
    rewrite Hst1, Hrun. unfold bind, resolveTarget, liftR. now rewrite He.
Qed.
End LoadFacts.

Section CursorFacts.
Context {Abi : Type} (env : Env Abi).
Implicit Types (w : World Abi) (m : gmap string (Subscription Abi)).




















(** C7.  In a tick whose event processor reports new subscriptions,
    [poll] returns with the cursors of the snapshot at the processor's
    watermark, the update to [(targetBlock, 0)] not made, and no
    [progress] among the signals of the tick.  When the save does not
    fail (or no store is configured), the trace gains the event signals
    and the save only, so no [stopped] either, the next tick is
    scheduled at delay 0, and the state is still [running] with the same
    target, also when that target is the concrete block the tick
    reached.  When the save fails, its error goes to the error callback
    of the running state instead: under [watch] it is emitted and the
    next tick is scheduled at the polling interval, under
    [indexToBlock] the promise is rejected and the indexer stops. *)
Theorem poll_replans_on_new_subscriptions w h tb cb T ids w1 r w2 :
  state w = Running h tb cb ->
  pollFetch env tb w = (Ok (T, ids), w1) ->
  processEvents env T w1 = (Ok r, w2) ->
  hasNewSubscriptions r = true ->
  let marked :=
    updateAll (indexedTo (indexedToBlock r) (indexedToLogIndex r)) ids (subscriptions w2) in
  exists w',
    poll env w = (Ok tt, w')
    /\ subscriptions w' = marked
    /\ (exists added,
          effects w' = effects w ++ added
          /\ Forall (fun e => ~ isProgress e) added)
    /\ ((forall store, subscriptionStore env = Some store -> store_save store marked = None) ->
        state w' = Running (nextTimer w) tb cb
        /\ timers w' = <[nextTimer w := 0]> (timers w)
        /\ effects w' = effects w2 ++ savedEffects env marked
        /\ exists evs,
             effects w2 = effects w ++ evs /\ Forall isEventEffect evs)
    /\ (forall store e,
          subscriptionStore env = Some store ->
          store_save store marked = Some e ->
          effects w' = effects w2 ++ onErrorEffects cb e
          /\ match cb with
             | OfWatch => rescheduled (eventPollDelayMs env) w w'
             | OfIndexToBlock => stoppedFrom w w'
             end).
Proof.
  intros Hst Hf Hp Hnew marked.
  destruct (poll_replans env w h tb cb T ids w1 r w2 Hst Hf Hp Hnew)
    as (w' & Hpoll & Hsubs & Hadded & Hsaved).
  exists w'. split; [exact Hpoll|]. split; [exact Hsubs|].
  split; [exact Hadded|]. split; [exact Hsaved|].
  intros store e Hstore Hfail.
  destruct (phases_keep_state env _ _ _ _ _ _ _ Hf Hp) as (Hs2 & Ht2 & Hn2 & _).
  assert (Hbody : pollBody env tb w = (Throw e, set_subscriptions marked w2)).
  { rewrite (pollBody_phases env _ _ _ _ _ _ _ Hf Hp). unfold pollFinish.
    unfold bind at 1. rewrite updateEach_run. rewrite Hnew.
    unfold bind at 1. rewrite saveIfConfigured_run, Hstore.
    change (subscriptions (set_subscriptions _ w2)) with marked.
    now rewrite Hfail. }
  assert (Hst2 : state (set_subscriptions marked w2) = Running h tb cb)
    by (simpl; congruence).
  rewrite (poll_caught env w h tb cb e _ Hst Hbody Hst2) in Hpoll.
  injection Hpoll as <-. destruct cb; simpl.
  - split; [reflexivity|]. exists h, tb, OfWatch. rewrite Hn2, Ht2. auto.
  - split; [reflexivity|]. exists h, tb, OfIndexToBlock. rewrite Hn2, Ht2. auto.
Qed.
End CursorFacts.

Section LifecycleFacts.
Context {Abi : Type} (env : Env Abi).
Implicit Types (w : World Abi).

Lemma watch_control w :
  sameControl w (snd (watch env w)) \/ started w (snd (watch env w)).
Proof.
  destruct (isRunning (state w)) eqn:Hrun.
  - rewrite (watch_running env w Hrun). left. repeat split.
  - destruct (initIfInitial_frame env w) as [m Hm].
    destruct (initIfInitial env w) as [[[]|e] w1] eqn:Hinit; simpl in Hm; subst w1.
    + rewrite (watch_starts env w _ Hinit Hrun). right.
      split; [exact Hrun|]. exists Latest, OfWatch. repeat split.
    + left. unfold watch, try_catch. unfold bind at 1. rewrite Hinit.
      repeat split.
Qed.

Lemma indexToBlock_control target w :
  sameControl w (snd (indexToBlock env target w))
  \/ started w (snd (indexToBlock env target w)).
Proof.
  destruct (isRunning (state w)) eqn:Hrun.
  - rewrite (indexToBlock_running env w target Hrun). left. repeat split.
  - destruct (initIfInitial_frame env w) as [m Hm].
    destruct (initIfInitial env w) as [[[]|e] w1] eqn:Hinit; simpl in Hm; subst w1.
    + assert (Hresolved :
                (exists T, targetResolves env target T)
                \/ (exists e, target = Latest /\ getLastBlockNumber env = Throw e)).
      { destruct target as [|n]; [|left; exists n; reflexivity].
        destruct (getLastBlockNumber env) as [T|e] eqn:Hhead.
        - left. exists T. exact Hhead.
        - right. exists e. split; reflexivity. }
      destruct Hresolved as [[T HT]|(e & -> & Hhead)].
      * rewrite (indexToBlock_starts env w _ target T Hinit Hrun HT). right.
        split; [exact Hrun|]. exists (BlockNumber T), OfIndexToBlock. repeat split.
      * left. unfold indexToBlock. unfold bind at 1. rewrite Hinit.
        unfold bind at 1. unfold gets at 1.
        change (state (set_subscriptions m w)) with (state w). rewrite Hrun.
        unfold bind, resolveTarget, liftR. rewrite Hhead. repeat split.
    + left. unfold indexToBlock. unfold bind at 1. rewrite Hinit. repeat split.
Qed.

Lemma stop_control w : sameControl w (snd (stop w)) \/ stoppedFrom w (snd (stop w)).
Proof.
  destruct (state w) as [| |h tb cb] eqn:Hst.
  - left. rewrite stop_not_running by now rewrite Hst. repeat split.
  - left. rewrite stop_not_running by now rewrite Hst. repeat split.
  - right. rewrite (stop_running w h tb cb Hst). exists h, tb, cb.
    repeat split. exact Hst.
Qed.

Lemma subscribeToContract_control o w :
  sameControl w (snd (subscribeToContract env o w)).
Proof.
  destruct (subscribeToContract_frame env o w) as [m ->]. repeat split.
Qed.

Lemma poll_idle w : isRunning (state w) = false -> poll env w = (Ok tt, w).
Proof.
  intros Hrun. unfold poll. unfold_monad.
  destruct (state w); [reflexivity|reflexivity|discriminate].
Qed.

Lemma onePollPending_sameControl w w' :
  sameControl w w' -> onePollPending w -> onePollPending w'.
Proof. intros (Hs & Ht & _). unfold onePollPending. now rewrite Hs, Ht. Qed.

Lemma onePollPending_started w w' :
  started w w' -> onePollPending w -> onePollPending w'.
Proof.
  intros (Hrun & tb & cb & Hs & Ht & _). unfold onePollPending.
  rewrite Hs, Ht. intros Hw. exists 0.
  destruct (state w); try discriminate; rewrite Hw; apply insert_empty.
Qed.

Lemma onePollPending_stoppedFrom w w' :
  stoppedFrom w w' -> onePollPending w -> onePollPending w'.
Proof.
  intros (h & tb & cb & Hs & Hs' & Ht & _). unfold onePollPending.
  rewrite Hs, Hs', Ht. intros [delay ->]. apply delete_singleton_eq.
Qed.

(** A pending timer is the one the running state holds. *)
Lemma onePollPending_holds w h delay :
  onePollPending w ->
  timers w !! h = Some delay ->
  exists tb cb, state w = Running h tb cb /\ timers w = {[ h := delay ]}.
Proof.
  unfold onePollPending. intros Hw Hh.
  destruct (state w) as [| |h' tb cb].
  - rewrite Hw, lookup_empty in Hh. discriminate.
  - rewrite Hw, lookup_empty in Hh. discriminate.
  - destruct Hw as [delay' Hw]. rewrite Hw in Hh.
    apply lookup_singleton_Some in Hh as [-> ->]. exists tb, cb. auto.
Qed.

Lemma onePollPending_step w w' :
  onePollPending w -> runStep env w w' -> onePollPending w'.
Proof.
  intros Hw Hstep. destruct Hstep as [w|target w|w|o w|h delay w Hh].
  - destruct (watch_control w);
      eauto using onePollPending_sameControl, onePollPending_started.
  - destruct (indexToBlock_control target w);
      eauto using onePollPending_sameControl, onePollPending_started.
  - destruct (stop_control w);
      eauto using onePollPending_sameControl, onePollPending_stoppedFrom.
  - eauto using onePollPending_sameControl, subscribeToContract_control.
  - destruct (onePollPending_holds w h delay Hw Hh) as (tb & cb & Hst & Ht).
    unfold fire, bind, modify.
    set (w0 := set_timers (delete h (timers w)) (nextTimer w) w).
    assert (Hst0 : state w0 = Running h tb cb) by exact Hst.
    assert (Ht0 : timers w0 = ∅).
    { unfold w0. simpl. rewrite Ht. apply delete_singleton_eq. }
    destruct (poll_control_running env w0 h tb cb Hst0) as (w1 & -> & Hout).
    unfold onePollPending. simpl.
    destruct Hout as [Hr|[Hr|Hs]].
    + destruct Hr as (? & ? & ? & _ & -> & -> & _). exists 0.
      rewrite Ht0. apply insert_empty.
    + destruct Hr as (? & ? & ? & _ & -> & -> & _). exists (eventPollDelayMs env).
      rewrite Ht0. apply insert_empty.
    + destruct Hs as (? & ? & ? & _ & -> & -> & _). rewrite Ht0. apply delete_empty.
Qed.

(** X18. In a run in which every call completes before the next begins,
    from a world with no timer outside the running state (a new closure
    is one), whatever entry points are called and whenever the timers
    fire: a running indexer always has exactly one poll pending, the one
    its state holds, and an indexer that is not running has none.  So a
    running indexer never stalls, two polls are never pending at once,
    and a timer never fires into an indexer that is stopped. *)
Theorem one_poll_pending_while_running w w' :
  onePollPending w ->
  rtc (runStep env) w w' ->
  onePollPending w'
  /\ (forall h delay,
        timers w' !! h = Some delay ->
        exists tb cb, state w' = Running h tb cb /\ timers w' = {[ h := delay ]})
  /\ (isRunning (state w') = true -> exists h delay, timers w' !! h = Some delay).
Proof.
  intros Hw Hrun.
  assert (Hw' : onePollPending w').
  { induction Hrun as [|x y z Hxy _ IH]; [exact Hw|].
    apply IH. exact (onePollPending_step x y Hw Hxy). }
  split; [exact Hw'|]. split.
  - intros h delay. now apply onePollPending_holds.
  - unfold onePollPending in Hw'. destruct (state w') as [| |h tb cb]; try discriminate.
    intros _. destruct Hw' as [delay ->]. exists h, delay. apply lookup_singleton_eq.
Qed.
End LifecycleFacts.

Section ReaderMoreFacts.
Context {Abi Value : Type} (renv : ReadEnv Abi Value).

(* Goals about membership in an explicit list of calls. *)
Local Ltac settle_calls :=
  intros; simpl in *;
  repeat match goal with
         | H : _ \/ _ |- _ => destruct H
         | H : False |- _ => destruct H
         | H : RpcRead _ _ _ _ = RpcRead _ _ _ _ |- _ => injection H as <- <- <- <-
         | H : CacheInsert _ _ = CacheInsert _ _ |- _ => injection H as <- <-
         | H : Some _ = Some _ |- _ => injection H as <-
         end;
  try discriminate; try reflexivity; try assumption; try congruence.

(** X14. Whatever [readContract] returns or throws, it makes at most
    three calls, in the order lookup, RPC, insert.  It calls nothing
    when the contract is unknown or the call data cannot be encoded; it
    touches no cache when none is configured; it calls the RPC client
    only after a lookup that missed (or without a cache); and it writes
    the cache only with the bytes the RPC client returned to this call,
    under the key it had just looked up. *)
Theorem readContract_call_discipline args log r log' :
  readContract renv args log = (r, log') ->
  exists calls,
    log' = log ++ calls
    /\ (length calls <= 3)%nat
    /\ (rd_contracts renv (ra_contract args) = None -> calls = [])
    /\ (forall contract e,
          rd_contracts renv (ra_contract args) = Some contract ->
          encodeFunctionData renv contract (ra_functionName args) (ra_args args) = Throw e ->
          calls = [])
    /\ (rd_cache renv = None ->
        forall c, In c calls -> exists data, c = rpcCallOf args data)
    /\ (forall fn data address blockNumber,
          In (RpcRead fn data address blockNumber) calls ->
          RpcRead fn data address blockNumber = rpcCallOf args data
          /\ forall cache,
               rd_cache renv = Some cache ->
               getContractRead cache (readKey renv args data) = Ok None
               /\ calls !! 0%nat = Some (CacheGet (readKey renv args data)))
    /\ (forall key v,
          In (CacheInsert key v) calls ->
          exists data,
            key = readKey renv args data
            /\ rpcAnswer renv args data = Ok v
            /\ calls = [CacheGet key; rpcCallOf args data; CacheInsert key v]).
Proof.
  unfold readContract, lookupCache, fetchAndStore, called, rpcAnswer, rpcCallOf.
  destruct (rd_contracts renv (ra_contract args)) as [contract|] eqn:Hc.
  2:{ unfold throw. intros [= <- <-]. exists []. rewrite app_nil_r.
      repeat split; try (simpl; lia); try discriminate; intros; contradiction. }
  unfold bind at 1. unfold liftR at 1.
  destruct (encodeFunctionData renv contract (ra_functionName args) (ra_args args))
    as [data|e0] eqn:Henc.
  2:{ intros [= <- <-]. exists []. rewrite app_nil_r.
      repeat split; try (simpl; lia); try discriminate; intros; contradiction. }
  unfold_monad.
  destruct (rd_cache renv) as [cache|] eqn:Hcache.
  - destruct (getContractRead cache (readKey renv args data)) as [[h|]|e1] eqn:Hget.
    + intros [= <- <-]. eexists [_]. split; [reflexivity|].
      repeat split; try (simpl; lia); try discriminate; settle_calls.
    + destruct (rd_rpcReadContract renv (ra_functionName args) data (ra_address args)
                  (ra_blockNumber args)) as [v|e2] eqn:Hrpc.
      * destruct (insertContractRead cache (readKey renv args data) v) as [[]|e3];
          intros [= <- <-]; eexists [_; _; _];
          (split; [now rewrite <- !app_assoc|]);
          (repeat split; try (simpl; lia); try discriminate); settle_calls;
          exists data; repeat split; assumption.
      * intros [= <- <-]. eexists [_; _].
        split; [now rewrite <- !app_assoc|].
        repeat split; try (simpl; lia); try discriminate; settle_calls.
    + intros [= <- <-]. eexists [_]. split; [reflexivity|].
      repeat split; try (simpl; lia); try discriminate; settle_calls.
  - destruct (rd_rpcReadContract renv (ra_functionName args) data (ra_address args)
                (ra_blockNumber args)) as [v|e2] eqn:Hrpc;
      intros [= <- <-]; eexists [_]; (split; [reflexivity|]);
      (repeat split; try (simpl; lia); try discriminate); settle_calls; eauto.
Qed.

(** X15. The failures of [readContract] other than the RPC call's own:
    an unknown contract and an encoding failure throw before any call;
    a failing cache lookup is thrown without asking the RPC client; a
    failing cache insert is thrown although the RPC client had answered;
    and bytes that do not decode have already been inserted into the
    cache when the decoding error is thrown. *)
Theorem readContract_failures args log :
  (rd_contracts renv (ra_contract args) = None ->
   readContract renv args log
   = (Throw (Error ("Contract " +:+ ra_contract args +:+ " not found")), log))
  /\ (forall contract,
        rd_contracts renv (ra_contract args) = Some contract ->
        (forall e,
           encodeFunctionData renv contract (ra_functionName args) (ra_args args)
           = Throw e ->
           readContract renv args log = (Throw e, log))
        /\ (forall data cache,
              encodeFunctionData renv contract (ra_functionName args) (ra_args args)
              = Ok data ->
              rd_cache renv = Some cache ->
              let key := readKey renv args data in
              (forall e,
                 getContractRead cache key = Throw e ->
                 readContract renv args log = (Throw e, log ++ [CacheGet key]))
              /\ (forall v e,
                    getContractRead cache key = Ok None ->
                    rpcAnswer renv args data = Ok v ->
                    insertContractRead cache key v = Throw e ->
                    readContract renv args log
                    = (Throw e,
                       log ++ [CacheGet key; rpcCallOf args data; CacheInsert key v]))
              /\ (forall v e,
                    getContractRead cache key = Ok None ->
                    rpcAnswer renv args data = Ok v ->
                    insertContractRead cache key v = Ok tt ->
                    decodeFunctionResult renv contract (ra_functionName args) v
                    = Throw e ->
                    readContract renv args log
                    = (Throw e,
                       log ++ [CacheGet key; rpcCallOf args data; CacheInsert key v])))).
Proof.
  split.
  - intros Hc. unfold readContract. now rewrite Hc.
  - intros contract Hc. split.
    + intros e He. unfold readContract. rewrite Hc. unfold bind, liftR. now rewrite He.
    + intros data cache Hd Hcache key. unfold rpcAnswer, rpcCallOf.
      repeat split.
      * intros e Hget. unfold readContract. rewrite Hc.
        unfold bind at 1. unfold liftR at 1. rewrite Hd.
        unfold lookupCache. rewrite Hcache. unfold called. unfold_monad.
        fold key. now rewrite Hget.
      * intros v e Hget Hrpc Hins. unfold readContract. rewrite Hc.
        unfold bind at 1. unfold liftR at 1. rewrite Hd.
        unfold lookupCache, fetchAndStore. rewrite Hcache. unfold called. unfold_monad.
        fold key. rewrite Hget, Hrpc. fold key. rewrite Hins.
        now rewrite <- !app_assoc.
      * intros v e Hget Hrpc Hins Hdec. unfold readContract. rewrite Hc.
        unfold bind at 1. unfold liftR at 1. rewrite Hd.
        unfold lookupCache, fetchAndStore. rewrite Hcache. unfold called. unfold_monad.
        fold key. rewrite Hget, Hrpc. fold key. rewrite Hins, Hdec.
        now rewrite <- !app_assoc.
Qed.
End ReaderMoreFacts.

Section TransportMoreFacts.
Context (fetch : LogsRequest -> nat -> Result HttpResponse).

(** X16. [rpcCall] sends exactly one request whatever the answer, and
    it returns a result only from a response with status 200, a content
    type that contains "application/json" and a reply without an
    [error] member.  A response with any other status throws the
    [JsonRpcError] without provider error, whatever its headers and
    body are. *)
Theorem rpcCall_returns_only_json_results method params w :
  exists r,
    rpcCall fetch method params w = (r, sent w)
    /\ (forall result,
          r = Ok result <->
          exists response contentType,
            fetch params (requests w) = Ok response
            /\ resp_status response = 200
            /\ resp_contentType response = Some contentType
            /\ includes "application/json" contentType = true
            /\ resp_json response = Ok (ReplyResult result))
    /\ (forall response,
          fetch params (requests w) = Ok response ->
          resp_status response <> 200 ->
          r = Throw (JsonRpcError method None)).
Proof.
  rewrite rpcCall_run. eexists. split; [reflexivity|].
  unfold rpcCall. unfold_monad. simpl.
  destruct (fetch params (requests w)) as [response|e] eqn:Hfetch.
  2:{ split.
      - intros result. split; [discriminate|].
        intros (? & ? & [=] & _).
      - intros ? [=]. }
  destruct (resp_status response =? 200) eqn:Hstatus; simpl.
  2:{ apply Z.eqb_neq in Hstatus. split.
      - intros result. split; [discriminate|].
        intros (? & ? & [= <-] & ? & _). contradiction.
      - reflexivity. }
  apply Z.eqb_eq in Hstatus. split.
  2:{ intros ? [= <-] ?. contradiction. }
  intros result.
  destruct (resp_contentType response) as [contentType|] eqn:Hct.
  2:{ split; [discriminate|]. intros (? & ? & [= <-] & _ & ? & _). congruence. }
  destruct (includes "application/json" contentType) eqn:Hjson.
  2:{ split; [discriminate|].
      intros (? & ? & [= <-] & _ & ? & ? & _). congruence. }
  destruct (resp_json response) as [[body|result']|e] eqn:Hreply; simpl.
  - split; [discriminate|].
    intros (? & ? & [= <-] & _ & _ & _ & ?). congruence.
  - split.
    + intros [= <-]. exists response, contentType. repeat split; assumption.
    + intros (? & ? & [= <-] & _ & _ & _ & ?). congruence.
  - split; [discriminate|].
    intros (? & ? & [= <-] & _ & _ & _ & ?). congruence.
Qed.

(** X17. When the server answered and its body, if read, parsed, an
    attempt of [getLogs] throws [JsonRpcRangeTooWideError] exactly when
    the response has status 200, a JSON content type and a provider
    error whose message contains one of the two phrases; the cause is
    then that provider error.  In particular a response with another
    status is never turned into it, and the attempt is retried. *)
Theorem range_too_wide_only_from_provider_phrase opts n response :
  fetch opts n = Ok response ->
  (forall e, resp_json response = Throw e -> exists msg, e = Error msg) ->
  (forall cause,
     attemptOutcome fetch opts n = Throw (JsonRpcRangeTooWideError cause) <->
     resp_status response = 200
     /\ exists contentType body m,
          resp_contentType response = Some contentType
          /\ includes "application/json" contentType = true
          /\ resp_json response = Ok (ReplyError body)
          /\ message body = Some m
          /\ (includes "query returned more than" m = true
              \/ includes "Log response size exceeded" m = true)
          /\ cause = JsonRpcError "eth_getLogs" (Some body))
  /\ (resp_status response <> 200 ->
      attemptOutcome fetch opts n = Throw (JsonRpcError "eth_getLogs" None)
      /\ shouldRetry (JsonRpcError "eth_getLogs" None) = true).
Proof.
  exact (attemptOutcome_of_response fetch opts n response).
Qed.
End TransportMoreFacts.

(** * The scenarios, checked *)




(** C7 fails as stated when the save fails.  In the tick in which the
    listener of the first event subscribes to USDC and the store cannot
    be written, no poll is scheduled at delay 0: under [indexToBlock]
    the promise is rejected and the indexer stops with no timer, and
    under [watch] the error is emitted and the next poll is scheduled
    at the polling interval. *)
Lemma replanning_tick_with_failing_save :
  (exists w',
     poll (listenerEnv (Some (Error "disk full")) [usdcOptions 0])
       (daiIndexingWorld None) = (Ok tt, w')
     /\ state w' = Stopped
     /\ timers w' = ∅
     /\ effects w'
        = [EmitStarted; EmitEvent "Token" "Transfer" (demoEvent 10 0 daiChecksummed);
           Rejected (Error "disk full"); EmitStopped; Resolved])
  /\ (exists w',
        poll (listenerEnv (Some (Error "disk full")) [usdcOptions 0])
          daiWatchingWorld = (Ok tt, w')
        /\ state w' = Running 1 Latest OfWatch
        /\ timers w' = {[ 1%nat := 1000 ]}
        /\ timers w' !! 1%nat <> Some 0
        /\ effects w'
           = [EmitStarted; EmitEvent "Token" "Transfer" (demoEvent 10 0 daiChecksummed);
              EmitError (Error "disk full")]).
Proof.
  split.
  - eexists. split; [vm_compute; reflexivity|]. repeat split.
  - eexists. split; [vm_compute; reflexivity|]. repeat split. discriminate.
Qed.


(** The DAI contract subscribed under the id [transfers-only], and a
    second view of it under [approvals-only]. *)
Lemma custom_id_is_not_the_key_witness :
  let o := daiOptions (Some "transfers-only") None in
  let o2 := daiOptions (Some "approvals-only") (Some (BlockNumber 9)) in
  exists s,
    subscribeToContract (mainnetEnv []) o freshWorld
    = (Ok tt, set_subscriptions (<[daiChecksummed := s]> ∅) freshWorld)
    /\ sub_id s = daiChecksummed
    /\ subscriptions (after (subscribeToContract (mainnetEnv []) o) freshWorld)
         !! "transfers-only" = None
    /\ after (subscribeToContract (mainnetEnv []) o2)
         (after (subscribeToContract (mainnetEnv []) o) freshWorld)
       = after (subscribeToContract (mainnetEnv []) o2) freshWorld.
Proof.
  destruct (custom_id_is_not_the_key (mainnetEnv [])
              (daiOptions (Some "transfers-only") None) freshWorld
              "transfers-only" daiChecksummed eq_refl eq_refl eq_refl)
    as (s & Hrun & Hid & Hnone & Hover); [discriminate|].
  exists s. split; [exact Hrun|]. split; [exact Hid|]. split; [exact Hnone|].
  apply Hover; reflexivity.
Defined.

(** C4 fails as stated: a stopped indexer is taken back to [running] by
    [watch()] and by [indexToBlock(5)]. *)
Lemma stopped_indexer_runs_again :
  state stoppedWorld = Stopped
  /\ state (after (watch (demoEnv [])) stoppedWorld) = Running 1 Latest OfWatch
  /\ state (after (indexToBlock (demoEnv []) (BlockNumber 5)) stoppedWorld)
     = Running 1 (BlockNumber 5) OfIndexToBlock.
Proof.
  vm_compute. repeat split.
Qed.

(** [watch()] on the stopped indexer. *)
Lemma running_entered_unless_running_witness :
  state stoppedWorld = Stopped
  /\ exists w',
       watch (demoEnv []) stoppedWorld = (Ok tt, w')
       /\ state w' = Running (nextTimer stoppedWorld) Latest OfWatch
       /\ timers w' = <[nextTimer stoppedWorld := 0]> (timers stoppedWorld)
       /\ effects w' = effects stoppedWorld ++ [EmitStarted].
Proof.
  split; [reflexivity|].
  destruct (running_entered_unless_running (demoEnv []) stoppedWorld) as [Hwatch _].
  apply Hwatch. reflexivity.
Defined.

(** Scenario 5: the tick in which the listener of the first event
    subscribes to USDC and the save succeeds, toward the concrete
    target 100 it would otherwise reach. *)
Lemma poll_replans_on_new_subscriptions_witness :
  exists w',
    poll (listenerEnv None [usdcOptions 0]) (daiIndexingWorld None) = (Ok tt, w')
    /\ state w' = Running 1 (BlockNumber 100) OfIndexToBlock
    /\ timers w' = <[1%nat := 0]> (timers (daiIndexingWorld None))
    /\ exists evs,
         effects w' = (effects (daiIndexingWorld None) ++ evs) ++ [Saved (subscriptions w')]
         /\ Forall isEventEffect evs.
Proof.
  edestruct (poll_replans_on_new_subscriptions (listenerEnv None [usdcOptions 0])
               (daiIndexingWorld None) 0%nat (BlockNumber 100) OfIndexToBlock)
    as (w' & Hpoll & Hsubs & _ & Hsaved & _).
  - reflexivity.
  - vm_compute. reflexivity.
  - vm_compute. reflexivity.
  - reflexivity.
  - destruct Hsaved as (Hstate & Htimers & Heffects & evs & Hevs & Hall).
    { intros store [= <-]. reflexivity. }
    exists w'. split; [exact Hpoll|]. split; [exact Hstate|].
    split; [exact Htimers|]. exists evs. split; [|exact Hall].
    rewrite Heffects, Hevs, Hsubs. reflexivity.
Defined.

(** A call with a custom id, and the load of a subscription stored with
    log index 3. *)
Lemma subscriptions_keyed_by_address_from_log_index_zero_witness :
  (exists address s,
     demoChecksum "0xabc" = Ok address
     /\ subscriptions
          (after (subscribeToContract (demoEnv [])
                    (demoOptions "0xabc" (Some "transfers-only") None)) freshWorld)
          !! address = Some s
     /\ sub_id s = address
     /\ sub_fetchedToBlock s = -1
     /\ sub_indexedToLogIndex s = 0)
  /\ (exists address s,
        demoChecksum "0xdef" = Ok address
        /\ subscriptions (after (init spawningEnv) freshWorld) !! address = Some s
        /\ sub_id s = address
        /\ sub_fetchedToBlock s = -1
        /\ sub_indexedToLogIndex s = 0).
Proof.
  destruct (subscriptions_keyed_by_address_from_log_index_zero (demoEnv []))
    as [Hcall _].
  destruct (subscriptions_keyed_by_address_from_log_index_zero spawningEnv)
    as [_ Hinit].
  split.
  - destruct (Hcall (demoOptions "0xabc" (Some "transfers-only") None) freshWorld
                (after (subscribeToContract (demoEnv [])
                          (demoOptions "0xabc" (Some "transfers-only") None))
                   freshWorld) eq_refl)
      as (address & s & Ha & Hs & Hid & Hf & Hl & _).
    exists address, s. auto.
  - exact (Hinit _ [storedSubscription] freshWorld
             (after (init spawningEnv) freshWorld) storedSubscription
             eq_refl eq_refl eq_refl (or_introl eq_refl)).
Defined.

(** [watch()] on a running indexer, and on a fresh one whose store
    cannot be read. *)
Lemma watch_never_throws_witness :
  (exists w',
     watch (demoEnv []) (indexingWorld None) = (Ok tt, w')
     /\ w' = add_effect (EmitError (Error "Indexer is already running"))
               (indexingWorld None)
     /\ indexToBlock (demoEnv []) Latest (indexingWorld None)
        = (Throw (Error "Indexer is already running"), indexingWorld None))
  /\ (exists w',
        watch brokenStoreEnv freshWorld = (Ok tt, w')
        /\ w' = add_effect (EmitError (Error "store unavailable")) freshWorld).
Proof.
  split.
  - destruct (watch_never_throws (demoEnv []) (indexingWorld None))
      as (w' & Hwatch & Hrunning & _).
    destruct (Hrunning eq_refl) as [Hw' Hreject].
    exists w'. split; [exact Hwatch|]. split; [exact Hw'|]. apply Hreject.
  - destruct (watch_never_throws brokenStoreEnv freshWorld)
      as (w' & Hwatch & _ & Hinit).
    destruct (Hinit (Error "store unavailable") freshWorld eq_refl eq_refl)
      as [Hw' _].
    exists w'. split; [exact Hwatch|exact Hw'].
Defined.

(** The claim's sentence on a miss fails when the cache cannot be
    written: the RPC client answers the read at block 44, the insert
    throws, and [readContract] throws that error in place of returning
    the decoded answer. *)
Lemma miss_with_failing_insert_throws :
  let key :=
    {| key_chainId := 1; key_address := "0xABC"; key_blockNumber := 44;
       key_functionName := "balanceOf"; key_data := "0x70a08231" |} in
  getContractRead flakyCache key = Ok None
  /\ rd_rpcReadContract flakyReadEnv "balanceOf" "0x70a08231" "0xABC" 44 = Ok "0x2b"
  /\ decodeFunctionResult flakyReadEnv tt "balanceOf" "0x2b" = Ok "0x2b"
  /\ readContract flakyReadEnv (demoRead 44) []
     = (Throw (Error "cache is read-only"),
        [CacheGet key; RpcRead "balanceOf" "0x70a08231" "0xABC" 44;
         CacheInsert key "0x2b"])
  /\ fst (readContract flakyReadEnv (demoRead 44) []) <> Ok "0x2b".
Proof.
  repeat split. discriminate.
Qed.

(** A hit at block 42, a miss at block 43, a failing call at block 44. *)
Lemma readContract_cache_through_witness :
  readContract demoReadEnv (demoRead 42) []
  = (Ok "0x2a", [CacheGet demoKey])
  /\ readContract demoReadEnv (demoRead 43) []
     = (Ok "0x2b",
        [CacheGet (readKey demoReadEnv (demoRead 43) "0x70a08231");
         RpcRead "balanceOf" "0x70a08231" "0xABC" 43;
         CacheInsert (readKey demoReadEnv (demoRead 43) "0x70a08231") "0x2b"])
  /\ readContract demoReadEnv (demoRead 44) []
     = (Throw (Error "execution reverted"),
        [CacheGet (readKey demoReadEnv (demoRead 44) "0x70a08231");
         RpcRead "balanceOf" "0x70a08231" "0xABC" 44]).
Proof.
  split; [|split].
  - destruct (readContract_cache_through demoReadEnv (demoRead 42) tt "0x70a08231" []
                eq_refl eq_refl) as (Hhit & _).
    exact (Hhit demoCache "0x2a" eq_refl eq_refl).
  - destruct (readContract_cache_through demoReadEnv (demoRead 43) tt "0x70a08231" []
                eq_refl eq_refl) as (_ & Hmiss & _).
    exact (Hmiss demoCache "0x2b" eq_refl eq_refl eq_refl eq_refl).
  - destruct (readContract_cache_through demoReadEnv (demoRead 44) tt "0x70a08231" []
                eq_refl eq_refl) as (_ & _ & _ & Hfail & _).
    exact (Hfail demoCache (Error "execution reverted") eq_refl eq_refl eq_refl).
Defined.

(** Two HTTP 500 answers, then the provider refuses the range: three
    requests, two delays, and the distinguished error. *)
Lemma getLogs_retries_five_times_except_range_too_wide_witness :
  getLogs demoFetch demoRequest idleWire
  = (Throw (JsonRpcRangeTooWideError (JsonRpcError "eth_getLogs" (Some tooManyResults))),
     {| requests := 3; delays := [1000; 1000] |}).
Proof.
  destruct (getLogs_retries_five_times_except_range_too_wide demoFetch demoRequest idleWire)
    as (Hconvert & _ & Hretry).
  destruct (Hretry 2%nat) as (_ & Hwide & _).
  - lia.
  - intros i Hi. exists (JsonRpcError "eth_getLogs" None).
    destruct i as [|[|i]];
      [split; [reflexivity|discriminate]|split; [reflexivity|discriminate]|lia].
  - apply Hwide.
    eapply (Hconvert 2%nat); try reflexivity.
    left. reflexivity.
Defined.

(** A tick of the indexer running toward block 100. *)
Lemma poll_reschedules_once_or_stops_witness :
  exists w',
    poll (demoEnv []) (indexingWorld None) = (Ok tt, w')
    /\ (rescheduled 0 (indexingWorld None) w'
        \/ rescheduled 1000 (indexingWorld None) w'
        \/ stoppedFrom (indexingWorld None) w')
    /\ (timers (indexingWorld None) = ∅ ->
        match state w' with
        | Running h' _ _ => exists delay, timers w' = {[ h' := delay ]}
        | Stopped => timers w' = ∅
        | Initial => False
        end).
Proof.
  exact (poll_reschedules_once_or_stops (demoEnv []) (indexingWorld None) 0%nat
           (BlockNumber 100) OfIndexToBlock eq_refl).
Defined.

(** A tick under [watch()] while the node cannot be reached. *)
Lemma poll_head_failure_moves_nothing_witness :
  exists w',
    poll headlessEnv watchingWorld = (Ok tt, w')
    /\ subscriptions w' = subscriptions watchingWorld
    /\ eventQueue w' = eventQueue watchingWorld
    /\ effects w' = effects watchingWorld ++ [EmitError (Error "node unreachable")]
    /\ rescheduled 1000 watchingWorld w'.
Proof.
  exact (poll_head_failure_moves_nothing headlessEnv watchingWorld 0%nat
           OfWatch (Error "node unreachable") eq_refl eq_refl).
Defined.

(** A tick of [indexToBlock(100)] whose planner fails after it pushed
    three logs: the promise is rejected and the indexer stops. *)
Lemma poll_reports_any_failure_witness :
  exists w',
    poll failingPlanEnv (indexingWorld None) = (Ok tt, w')
    /\ effects w'
       = [EmitStarted; Rejected (Error "getLogs failed"); EmitStopped; Resolved]
    /\ length (eventQueue w') = 3%nat
    /\ stoppedFrom (indexingWorld None) w'.
Proof.
  edestruct (poll_reports_any_failure failingPlanEnv (indexingWorld None) 0%nat
               (BlockNumber 100) OfIndexToBlock)
    as (w' & Hpoll & _ & Hqueue & Heffects & Hstopped).
  - reflexivity.
  - vm_compute. reflexivity.
  - exists w'. split; [exact Hpoll|]. split; [exact Heffects|].
    split; [now rewrite Hqueue|exact Hstopped].
Defined.

(** Scenario 1 under [watch()]. *)
Lemma poll_watching_goes_on_witness :
  exists w',
    poll (demoEnv threeLogs) watchingWorld = (Ok tt, w')
    /\ state w' = Running 1 Latest OfWatch
    /\ timers w' = <[1%nat := 1000]> (timers watchingWorld).
Proof.
  edestruct (poll_watching_goes_on (demoEnv threeLogs) watchingWorld 0%nat OfWatch)
    as (w' & Hpoll & _ & Hstate & Htimers & _).
  - reflexivity.
  - vm_compute. reflexivity.
  - vm_compute. reflexivity.
  - reflexivity.
  - intros store [=].
  - exists w'. exact (conj Hpoll (conj Hstate Htimers)).
Defined.

(** Scenario 1 under [indexToBlock(100)]. *)
Lemma poll_reaching_target_stops_witness :
  exists w',
    poll (demoEnv threeLogs) (indexingWorld None) = (Ok tt, w')
    /\ state w' = Stopped
    /\ timers w' = delete 0%nat (timers (indexingWorld None))
    /\ stop w' = (Throw (Error "Indexer is not running"), w')
    /\ poll (demoEnv threeLogs) w' = (Ok tt, w').
Proof.
  edestruct (poll_reaching_target_stops (demoEnv threeLogs) (indexingWorld None)
               0%nat 100 OfIndexToBlock)
    as (w' & Hpoll & _ & Hstate & Htimers & _ & _ & _ & Hstop & Hagain).
  - reflexivity.
  - vm_compute. reflexivity.
  - vm_compute. reflexivity.
  - reflexivity.
  - intros store [=].
  - exists w'.
    exact (conj Hpoll (conj Hstate (conj Htimers (conj Hstop Hagain)))).
Defined.

(** Scenario 5: the subscription [0xDEF] that the listener added is
    left as made, and no key is added to or taken from what the
    processor left. *)
Lemma poll_rewrites_only_snapshot_cursors_witness :
  exists w' w2,
    poll spawningEnv (indexingWorld None) = (Ok tt, w')
    /\ subscriptions w' !! "0xDEF" = subscriptions w2 !! "0xDEF"
    /\ sub_fetchedToBlock <$> subscriptions w2 !! "0xDEF" = Some (-1)
    /\ forall k,
         match subscriptions w2 !! k with
         | Some s2 =>
             exists s', subscriptions w' !! k = Some s' /\ sameButIndexed s2 s'
         | None => subscriptions w' !! k = None
         end.
Proof.
  edestruct (poll_rewrites_only_snapshot_cursors spawningEnv (indexingWorld None)
               0%nat (BlockNumber 100) OfIndexToBlock)
    as (w' & Hpoll & Hnew & Hall).
  - reflexivity.
  - vm_compute. reflexivity.
  - vm_compute. reflexivity.
  - eexists w', _. split; [exact Hpoll|]. split; [apply Hnew; reflexivity|].
    split; [vm_compute; reflexivity|exact Hall].
Defined.

(** A malformed address, and a contract that is not registered. *)
Lemma subscribeToContract_fails_untouched_witness :
  subscribeToContract (demoEnv []) (demoOptions "0x123" None None) freshWorld
  = (Throw (Error "Address is invalid"), freshWorld)
  /\ subscribeToContract (demoEnv []) vaultOptions (indexingWorld None)
     = (Throw (Error "Contract Vault not found"), indexingWorld None).
Proof.
  split.
  - destruct (subscribeToContract_fails_untouched (demoEnv [])
                (demoOptions "0x123" None None) freshWorld) as (Hbad & _).
    exact (Hbad (Error "Address is invalid") eq_refl).
  - destruct (subscribeToContract_fails_untouched (demoEnv [])
                vaultOptions (indexingWorld None)) as (_ & Hunknown & _).
    exact (Hunknown "0xABC" eq_refl eq_refl).
Defined.

(** Two views of the contract at [0xabc], written in different case. *)
Lemma resubscription_replaces_witness :
  let o1 := demoOptions "0xabc" (Some "transfers-only") None in
  let o2 := demoOptions "0xABC" (Some "approvals-only") (Some (BlockNumber 9)) in
  after (subscribeToContract (demoEnv []) o2)
    (after (subscribeToContract (demoEnv []) o1) freshWorld)
  = after (subscribeToContract (demoEnv []) o2) freshWorld
  /\ after (subscribeToContract (demoEnv []) o2)
       (after (subscribeToContract (demoEnv []) o2) freshWorld)
     = after (subscribeToContract (demoEnv []) o2) freshWorld.
Proof.
  exact (resubscription_replaces (demoEnv [])
           (demoOptions "0xabc" (Some "transfers-only") None)
           (demoOptions "0xABC" (Some "approvals-only") (Some (BlockNumber 9)))
           freshWorld "0xABC" eq_refl eq_refl eq_refl).
Defined.

(** Subscriptions to [0xabc] and to [0xdef], read back under both
    keys. *)
Lemma subscriptions_to_distinct_addresses_commute_witness :
  let o1 := demoOptions "0xabc" None None in
  let o2 := demoOptions "0xdef" None (Some (BlockNumber 9)) in
  let w12 :=
    after (subscribeToContract (demoEnv []) o2)
      (after (subscribeToContract (demoEnv []) o1) freshWorld) in
  let w21 :=
    after (subscribeToContract (demoEnv []) o1)
      (after (subscribeToContract (demoEnv []) o2) freshWorld) in
  subscriptions w12 !! "0xABC" = subscriptions w21 !! "0xABC"
  /\ subscriptions w12 !! "0xDEF" = subscriptions w21 !! "0xDEF".
Proof.
  destruct (subscriptions_to_distinct_addresses_commute (demoEnv [])
              (demoOptions "0xabc" None None)
              (demoOptions "0xdef" None (Some (BlockNumber 9)))
              freshWorld "0xABC" "0xDEF" eq_refl eq_refl) as [Hall _];
    [discriminate|].
  split; apply Hall.
Defined.

(** The load of the subscription stored at log 3 of block 40. *)
Lemma init_restores_stored_bounds_witness :
  exists contract,
    demoContracts "Token" = Some contract
    /\ subscriptions (after (init spawningEnv) freshWorld) !! "0xDEF"
       = Some (reloaded "0xDEF" contract storedSubscription).
Proof.
  edestruct (init_restores_stored_bounds spawningEnv
               {| store_all := Ok [storedSubscription]; store_save := fun _ => None |}
               [] storedSubscription []
               freshWorld (after (init spawningEnv) freshWorld) "0xDEF")
    as [Hloaded _].
  - reflexivity.
  - reflexivity.
  - reflexivity.
  - reflexivity.
  - intros st' [].
  - exact Hloaded.
Defined.

(** A store whose second subscription names an unknown contract: the
    first is loaded, the third is not. *)
Lemma init_stops_at_first_failure_witness :
  exists w1,
    init staleStoreEnv freshWorld = (Throw (Error "Contract Vault not found"), w1)
    /\ (exists s, subscriptions w1 !! "0xDEF" = Some s /\ freshlyKeyed "0xDEF" s)
    /\ subscriptions w1 !! "0xABC" = None.
Proof.
  destruct (init_stops_at_first_failure staleStoreEnv freshWorld) as (_ & _ & Hbad).
  edestruct (Hbad {| store_all :=
                       Ok [storedSubscription; retiredSubscription; demoSubscription Latest];
                     store_save := fun _ => None |}
               [storedSubscription] retiredSubscription [demoSubscription Latest])
    as (w1 & Hinit & Hloaded & Hother).
  - reflexivity.
  - reflexivity.
  - intros st [<-|[]]. reflexivity.
  - reflexivity.
  - exists w1. split; [exact Hinit|]. split.
    + destruct (Hloaded storedSubscription (or_introl eq_refl))
        as (address & s & Haddress & Hs & Hfresh).
      injection Haddress as <-. exists s. exact (conj Hs Hfresh).
    + rewrite Hother; [reflexivity|].
      intros st [<-|[]]. discriminate.
Defined.

(** [watch()] on a fresh indexer whose store loads, and on one whose
    store holds a subscription of an unknown contract. *)
Lemma watch_loads_then_starts_witness :
  (exists w',
     watch spawningEnv freshWorld = (Ok tt, w')
     /\ subscriptions w' = subscriptions (after (init spawningEnv) freshWorld)
     /\ state w' = Running 0 Latest OfWatch
     /\ effects w' = [EmitStarted])
  /\ (exists w',
        watch staleStoreEnv freshWorld = (Ok tt, w')
        /\ subscriptions w' = subscriptions (after (init staleStoreEnv) freshWorld)
        /\ state w' = Initial
        /\ effects w' = [EmitError (Error "Contract Vault not found")]).
Proof.
  split.
  - destruct (watch_loads_then_starts spawningEnv freshWorld eq_refl) as [Hok _].
    destruct (Hok (after (init spawningEnv) freshWorld) eq_refl)
      as (w' & Hwatch & Hsubs & Hstate & _ & Heffects).
    exists w'. exact (conj Hwatch (conj Hsubs (conj Hstate Heffects))).
  - destruct (watch_loads_then_starts staleStoreEnv freshWorld eq_refl) as [_ Hfail].
    destruct (Hfail (Error "Contract Vault not found")
                (after (init staleStoreEnv) freshWorld) eq_refl)
      as (w' & Hwatch & Hsubs & Hstate & _ & Heffects).
    exists w'. exact (conj Hwatch (conj Hsubs (conj Hstate Heffects))).
Defined.

(** [indexToBlock("latest")] with the head at block 100, and with a
    node that cannot be reached. *)
Lemma indexToBlock_latest_pins_the_head_witness :
  (exists w',
     indexToBlock (demoEnv []) Latest freshWorld = (Ok tt, w')
     /\ state w' = Running 0 (BlockNumber 100) OfIndexToBlock)
  /\ indexToBlock headlessEnv Latest stoppedWorld
     = (Throw (Error "node unreachable"), stoppedWorld).
Proof.
  split.
  - destruct (indexToBlock_latest_pins_the_head (demoEnv []) freshWorld freshWorld
                eq_refl eq_refl) as [Hhead _].
    destruct (Hhead 100 eq_refl) as (w' & Hrun & Hstate & _).
    exists w'. exact (conj Hrun Hstate).
  - destruct (indexToBlock_latest_pins_the_head headlessEnv stoppedWorld stoppedWorld
                eq_refl eq_refl) as [_ Hfail].
    destruct (Hfail (Error "node unreachable") eq_refl) as [Hthrow _].
    exact Hthrow.
Defined.

(** The read at block 43, which misses the cache. *)
Lemma readContract_call_discipline_witness :
  exists calls,
    snd (readContract demoReadEnv (demoRead 43) []) = [] ++ calls
    /\ (length calls <= 3)%nat
    /\ forall key v,
         In (CacheInsert key v) calls ->
         exists data,
           key = readKey demoReadEnv (demoRead 43) data
           /\ rpcAnswer demoReadEnv (demoRead 43) data = Ok v
           /\ calls = [CacheGet key; rpcCallOf (demoRead 43) data; CacheInsert key v].
Proof.
  destruct (readContract_call_discipline demoReadEnv (demoRead 43) []
              (fst (readContract demoReadEnv (demoRead 43) []))
              (snd (readContract demoReadEnv (demoRead 43) [])) eq_refl)
    as (calls & Hlog & Hlen & _ & _ & _ & _ & Hinsert).
  exists calls. exact (conj Hlog (conj Hlen Hinsert)).
Defined.

(** A cache that cannot be read at block 42 and cannot be written at
    block 43, and a contract that is not registered. *)
Lemma readContract_failures_witness :
  readContract flakyReadEnv (demoRead 42) []
  = (Throw (Error "cache unavailable"),
     [CacheGet (readKey flakyReadEnv (demoRead 42) "0x70a08231")])
  /\ readContract flakyReadEnv (demoRead 43) []
     = (Throw (Error "cache is read-only"),
        [CacheGet (readKey flakyReadEnv (demoRead 43) "0x70a08231");
         RpcRead "balanceOf" "0x70a08231" "0xABC" 43;
         CacheInsert (readKey flakyReadEnv (demoRead 43) "0x70a08231") "0x2b"]).
Proof.
  split.
  - destruct (readContract_failures flakyReadEnv (demoRead 42) []) as [_ Hknown].
    destruct (Hknown tt eq_refl) as [_ Hcached].
    destruct (Hcached "0x70a08231" flakyCache eq_refl eq_refl) as (Hlookup & _).
    exact (Hlookup (Error "cache unavailable") eq_refl).
  - destruct (readContract_failures flakyReadEnv (demoRead 43) []) as [_ Hknown].
    destruct (Hknown tt eq_refl) as [_ Hcached].
    destruct (Hcached "0x70a08231" flakyCache eq_refl eq_refl) as (_ & Hinsert & _).
    exact (Hinsert "0x2b" (Error "cache is read-only") eq_refl eq_refl eq_refl).
Defined.

(** The first answer of the provider, HTTP 500, and its third, which
    refuses the range. *)
Lemma range_too_wide_only_from_provider_phrase_witness :
  attemptOutcome demoFetch demoRequest 0 = Throw (JsonRpcError "eth_getLogs" None)
  /\ forall cause,
       attemptOutcome demoFetch demoRequest 2 = Throw (JsonRpcRangeTooWideError cause) ->
       cause = JsonRpcError "eth_getLogs" (Some tooManyResults).
Proof.
  split.
  - edestruct (range_too_wide_only_from_provider_phrase demoFetch demoRequest 0%nat)
      as [_ Hstatus].
    + reflexivity.
    + intros e [= <-]. eexists. reflexivity.
    + apply Hstatus. discriminate.
  - intros cause Hcause.
    edestruct (range_too_wide_only_from_provider_phrase demoFetch demoRequest 2%nat)
      as [Hwide _].
    + reflexivity.
    + intros e [=].
    + destruct (proj1 (Hwide cause) Hcause)
        as (_ & contentType & body & m & _ & _ & Hbody & _ & _ & ->).
      injection Hbody as <-. reflexivity.
Defined.

(** [indexToBlock(100)] on a new closure, its first tick, which reaches
    the target and stops, and [watch()] after it. *)
Lemma one_poll_pending_while_running_witness :
  exists w',
    rtc (runStep (demoEnv threeLogs)) freshWorld w'
    /\ state w' = Running 1 Latest OfWatch
    /\ onePollPending w'.
Proof.
  set (w1 := after (indexToBlock (demoEnv threeLogs) (BlockNumber 100)) freshWorld).
  set (w2 := after (fire (demoEnv threeLogs) 0) w1).
  set (w3 := after (watch (demoEnv threeLogs)) w2).
  assert (Hrun : rtc (runStep (demoEnv threeLogs)) freshWorld w3).
  { apply (rtc_l _ _ w1); [apply run_indexToBlock|].
    apply (rtc_l _ _ w2); [apply (run_fire _ 0%nat 0); reflexivity|].
    apply rtc_once. apply run_watch. }
  exists w3. split; [exact Hrun|]. split; [reflexivity|].
  exact (proj1 (one_poll_pending_while_running (demoEnv threeLogs) freshWorld w3
                  eq_refl Hrun)).
Defined.
